(** * ROBOEXHIBIT museum assistant: query repair, result projection and
      answer orchestration of [app.py]

    Python [str] values are modelled as lists of code points below 256
    (Latin-1).  The character classes ([str.isspace] and [str.strip], the
    regex classes [\s] and [\w] of [str] patterns, [str.upper]) are
    those of Python on that range.  Matching under [re.IGNORECASE] is
    used by the program only for the ASCII keywords SELECT and WHERE,
    whose letters no character of the range matches but the ASCII letters
    themselves. *)

From Stdlib Require Import List Ascii String Bool Arith Lia ZArith QArith.
From Stdlib Require Import DecimalString.
Import ListNotations.
Local Close Scope Q_scope.
Local Close Scope Z_scope.
Local Open Scope nat_scope.
Local Open Scope list_scope.
Local Open Scope bool_scope.

Set Implicit Arguments.

(** ** Text primitives *)

Definition text := list ascii.

Definition lit (s : string) : text := list_ascii_of_string s.

Definition text_eqb (a b : text) : bool :=
  if list_eq_dec ascii_dec a b then true else false.

(** [str.isspace] on one character, which is also the regex class [\s] of
    a [str] pattern: TAB, LF, VT, FF, CR, the four separators FS GS RS US,
    SPACE, NEL (U+0085) and the no-break space (U+00A0). *)
Definition is_space (c : ascii) : bool :=
  let n := nat_of_ascii c in
  ((9 <=? n) && (n <=? 13)) || ((28 <=? n) && (n <=? 32))
  || (n =? 133) || (n =? 160).

(** The regex class [\w] of a [str] pattern on one character: the digits,
    the letters and the underscore of ASCII, and above them the letters
    and numerals of Latin-1 (feminine and masculine ordinal, micro sign,
    superscript digits, the three fractions, and the letters from U+00C0
    on except the signs U+00D7 and U+00F7). *)
Definition is_word (c : ascii) : bool :=
  let n := nat_of_ascii c in
  ((48 <=? n) && (n <=? 57)) || ((65 <=? n) && (n <=? 90))
  || (n =? 95) || ((97 <=? n) && (n <=? 122))
  || (n =? 170) || ((178 <=? n) && (n <=? 179)) || (n =? 181)
  || ((185 <=? n) && (n <=? 186)) || ((188 <=? n) && (n <=? 190))
  || ((192 <=? n) && (n <=? 214)) || ((216 <=? n) && (n <=? 246))
  || (248 <=? n).

(** [c.upper()] for one character: the letters a to z and the small
    letters of Latin-1 from U+00E0 to U+00FE (but the division sign) go to
    their capitals, 32 places below.  Three characters are left as they
    are because their upper-case forms are not one character of the range:
    the sharp s (SS), the micro sign (a Greek capital) and the y with
    diaeresis (U+0178).  The program looks only for the ASCII keywords
    SELECT, WHERE and NO_SPARQL in upper-cased text, and none of the three
    forms completes one of them: an S of SS stands next to another S. *)
Definition upper_char (c : ascii) : ascii :=
  let n := nat_of_ascii c in
  if ((97 <=? n) && (n <=? 122)) || ((224 <=? n) && (n <=? 246))
     || ((248 <=? n) && (n <=? 254))
  then ascii_of_nat (n - 32) else c.

(** [s.upper()] *)
Definition upper (s : text) : text := map upper_char s.

(** [s.startswith(p)] *)
Fixpoint startswith (s p : text) {struct p} : bool :=
  match p with
  | [] => true
  | c :: p' =>
      match s with
      | [] => false
      | d :: s' => Ascii.eqb c d && startswith s' p'
      end
  end.

(** [needle in s] *)
Fixpoint contains (s needle : text) : bool :=
  startswith s needle ||
  match s with
  | [] => false
  | _ :: s' => contains s' needle
  end.

(** [s.lstrip()], [s.rstrip()], [s.strip()] *)
Fixpoint lstrip (s : text) : text :=
  match s with
  | c :: s' => if is_space c then lstrip s' else s
  | [] => []
  end.

Definition rstrip (s : text) : text := rev (lstrip (rev s)).

Definition strip (s : text) : text := rstrip (lstrip s).

(** ** Result rows

    A [ResultRow] of rdflib: the projected variables in order
    ([row.labels]), each bound to a term or to [None].  A term is kept as
    its [str()] rendering. *)

Definition Row := list (text * option text).

Definition labels (row : Row) : list text := map fst row.

(** [v in row.labels] *)
Definition has_label (row : Row) (v : text) : bool :=
  existsb (text_eqb v) (labels row).

(** [row[v]] for a [v] in [row.labels] *)
Fixpoint get (row : Row) (v : text) : option text :=
  match row with
  | [] => None
  | (k, x) :: row' => if text_eqb v k then x else get row' v
  end.

(** The guard of the loop: [v in row.labels], [row[v] is not None] and
    [str(row[v]).strip()] is not the empty string. *)
Definition valid_binding (row : Row) (v : text) : bool :=
  has_label row v &&
  match get row v with
  | None => false
  | Some x => negb (text_eqb (strip x) [])
  end.

(** [str(row[v]).strip()] where the guard holds. *)
Definition binding_point (row : Row) (v : text) : text :=
  match get row v with
  | Some x => strip x
  | None => []
  end.

(** The loop of [assistant_endpoint] that extracts the point: [point] is
    the value of the variable before the loop. *)
Fixpoint extract_point (point : text) (results : list Row) : text :=
  match results with
  | [] => point
  | row :: rest =>
      if valid_binding row (lit "p") then binding_point row (lit "p")
      else if valid_binding row (lit "posizione")
           then binding_point row (lit "posizione")
           else extract_point point rest
  end.

(** ** Substitution engine

    [re.sub(pattern, template, s)] and [s.replace(old, new)] both scan [s]
    from the left: where the pattern matches, the expansion of the template
    is emitted and the scan resumes after the match; elsewhere one
    character is copied.  A matcher gives, for a match at the head of its
    argument, the expanded template and the text left after the match.
    None of the patterns below matches the empty string, so a scan of [s]
    needs at most [length s] steps. *)

Definition matcher := text -> option (text * text).

Fixpoint sub_from (m : matcher) (fuel : nat) (s : text) : text :=
  match fuel with
  | 0 => s
  | S fuel' =>
      match m s with
      | Some (rep, rest) => rep ++ sub_from m fuel' rest
      | None =>
          match s with
          | [] => []
          | c :: s' => c :: sub_from m fuel' s'
          end
      end
  end.

Definition re_sub (m : matcher) (s : text) : text :=
  sub_from m (S (List.length s)) s.

(** Longest prefix of characters satisfying [p], and what follows it. *)
Fixpoint span (p : ascii -> bool) (s : text) : text * text :=
  match s with
  | c :: s' =>
      if p c then let (a, b) := span p s' in (c :: a, b) else ([], s)
  | [] => ([], [])
  end.

(** A literal keyword at the head of [s]. *)
Fixpoint take_lit (kw s : text) : option text :=
  match kw with
  | [] => Some s
  | k :: kw' =>
      match s with
      | c :: s' => if Ascii.eqb k c then take_lit kw' s' else None
      | [] => None
      end
  end.

(** An upper-case keyword at the head of [s] under [re.IGNORECASE]: the
    text matched (in its own case) and the rest. *)
Fixpoint take_ci (kw s : text) : option (text * text) :=
  match kw with
  | [] => Some ([], s)
  | k :: kw' =>
      match s with
      | c :: s' =>
          if Ascii.eqb k (upper_char c) then
            match take_ci kw' s' with
            | Some (a, r) => Some (c :: a, r)
            | None => None
            end
          else None
      | [] => None
      end
  end.

Definition ch (s : string) : ascii :=
  match s with
  | String c _ => c
  | EmptyString => zero
  end.

(** [s.replace(old, new)] for a non-empty [old]. *)
Definition m_replace (old new : text) : matcher := fun s =>
  match old with
  | [] => None
  | _ => match take_lit old s with
         | Some rest => Some (new, rest)
         | None => None
         end
  end.

Definition replace (old new s : text) : text := re_sub (m_replace old new) s.

(** ** The patterns of [correct_sparql_syntax_advanced] *)

(** Pattern [(SELECT)] followed by the group [\?|\*], under
    [re.IGNORECASE]; template [\1 \2]. *)
Definition m_select : matcher := fun s =>
  match take_ci (lit "SELECT") s with
  | Some (kw, c :: rest) =>
      if Ascii.eqb c (ch "?") || Ascii.eqb c (ch "*")
      then Some (kw ++ [ch " "; c], rest) else None
  | _ => None
  end.

(** [(WHERE)\{], [re.IGNORECASE], template [\1 {]. *)
Definition m_where : matcher := fun s =>
  match take_ci (lit "WHERE") s with
  | Some (kw, c :: rest) =>
      if Ascii.eqb c (ch "{") then Some (kw ++ lit " {", rest) else None
  | _ => None
  end.

(** [(progettoMuseo:\w+)\?(\w+)], template [\1 ?\2].  Both [\w+] are
    greedy; as [?] is not a word character the first one cannot give
    characters back. *)
Definition m_glue : matcher := fun s =>
  match take_lit (lit "progettoMuseo:") s with
  | Some r =>
      match span is_word r with
      | ((_ :: _) as w1, q :: r1) =>
          if Ascii.eqb q (ch "?") then
            match span is_word r1 with
            | ((_ :: _) as w2, r2) =>
                Some (lit "progettoMuseo:" ++ w1 ++ lit " ?" ++ w2, r2)
            | _ => None
            end
          else None
      | _ => None
      end
  | None => None
  end.

(** [\s+], template one space. *)
Definition m_spaces : matcher := fun s =>
  match span is_space s with
  | (_ :: _, rest) => Some (lit " ", rest)
  | _ => None
  end.

(** [(\?\w+)\s*\}], template [\1 . }]. *)
Definition m_dot : matcher := fun s =>
  match s with
  | q :: r =>
      if Ascii.eqb q (ch "?") then
        match span is_word r with
        | ((_ :: _) as w, r1) =>
            match snd (span is_space r1) with
            | b :: rest =>
                if Ascii.eqb b (ch "}")
                then Some (q :: w ++ lit " . }", rest) else None
            | [] => None
            end
        | _ => None
        end
      else None
  | [] => None
  end.

(** [(SELECT\s+[^\{]+)\{], [re.IGNORECASE], template [\1 WHERE {].  After
    the keyword the match runs up to the first [{]; [\s+] and [[^\{]+]
    share the text before it, which needs a whitespace character first and
    at least one more character. *)
Definition m_add_where : matcher := fun s =>
  match take_ci (lit "SELECT") s with
  | Some (kw, r) =>
      match span (fun c => negb (Ascii.eqb c (ch "{"))) r with
      | ((w :: _ :: _) as body, _ :: rest) =>
          if is_space w then Some (kw ++ body ++ lit " WHERE {", rest)
          else None
      | _ => None
      end
  | None => None
  end.

Definition PREFIX_MARK : text := lit "PREFIX progettoMuseo:".

Definition PREFIX_DECL : text :=
  lit "PREFIX progettoMuseo: <http://www.semanticweb.org/lucreziamosca/ontologies/progettoMuseo#> ".

(** [re.sub(r'\s+', ' ', query).strip()] *)
Definition squeeze (q : text) : text := strip (re_sub m_spaces q).

Definition LF : ascii := "010"%char.
Definition CR : ascii := "013"%char.

(** [query.replace('\n', ' ').replace('\r', ' ')] *)
Definition unwrap_lines (q : text) : text :=
  replace [CR] (lit " ") (replace [LF] (lit " ") q).

(** [correct_sparql_syntax_advanced] *)
Definition correct_sparql_syntax_advanced (query : text) : text :=
  let query := unwrap_lines query in
  let query :=
    if negb (contains query PREFIX_MARK) then PREFIX_DECL ++ query
    else query in
  let query := re_sub m_select query in
  let query := re_sub m_where query in
  let query := re_sub m_glue query in
  let query := squeeze query in
  let query := re_sub m_dot query in
  let query :=
    if negb (contains (upper query) (lit "WHERE"))
    then re_sub m_add_where query else query in
  squeeze query.

(** ** Requests, responses and calls to the collaborators *)

Record AssistantRequest := {
  message : text;
  max_tokens : Z;
  temperature : Q
}.

Record Response := {
  query : option text;
  response : text;
  point : text
}.

Inductive HTTPException :=
| HTTPError (status_code : Z) (detail : text).

(** One entry per call that leaves the endpoint (or enters the repair
    function, which logs its argument), with what the call gave back;
    [None] stands for a raised exception. *)
Inductive Call :=
| CallSerialize (result : option text)
| CallCompletion (system user : text) (max_tok : Z) (temp : Q)
                 (result : option text)
| CallRepair (candidate : text)
| CallParseQuery (candidate : text) (ok : bool)
| CallGraphQuery (q : text) (result : option (list Row))
| CallClassify (t : text) (result : option text)
| CallTranslate (model t : text) (result : option text).

Definition is_completion (c : Call) : bool :=
  match c with CallCompletion _ _ _ _ _ => true | _ => false end.

Definition is_query_work (c : Call) : bool :=
  match c with
  | CallRepair _ | CallParseQuery _ _ | CallGraphQuery _ _ => true
  | _ => false
  end.

(** Python truthiness of [generated_query] (a [str] or [None]) and of
    [results] (a list). *)
Definition truthy (q : option text) : bool :=
  match q with
  | Some (_ :: _) => true
  | _ => false
  end.

Definition nonempty {A : Type} (l : list A) : bool :=
  match l with
  | [] => false
  | _ :: _ => true
  end.

(** [str(x)] of a term or [None]. *)
Definition py_str (x : option text) : text :=
  match x with
  | Some t => t
  | None => lit "None"
  end.

Definition str_of_nat (n : nat) : text :=
  lit (NilEmpty.string_of_uint (Nat.to_uint n)).

(** [sep.join(parts)] *)
Fixpoint join (sep : text) (parts : list text) : text :=
  match parts with
  | [] => []
  | [x] => x
  | x :: rest => x ++ sep ++ join sep rest
  end.

(** One line of [results_str]: the variables of the row in their order. *)
Definition render_row (row : Row) : text :=
  join (lit ", ") (map (fun kv => fst kv ++ lit "=" ++ py_str (snd kv)) row).

Fixpoint render_from (idx : nat) (results : list Row) : list text :=
  match results with
  | [] => []
  | row :: rest =>
      (str_of_nat (idx + 1) ++ lit ") " ++ render_row row)
      :: render_from (S idx) rest
  end.

Definition render_results (results : list Row) : text :=
  join [LF] (render_from 0 results).

Definition create_system_prompt_for_guide : text :=
  lit "SEI UNA GUIDA MUSEALE VIRTUALE. " ++
  lit "RISPONDI IN MODO DISCORSIVO E NATURALE (circa 100 parole), SENZA SALUTI O INTRODUZIONI PROLISSE. " ++
  lit "SE HAI RISULTATI SPARQL, USALI; SE NON CI SONO, RISPONDI BASANDOTI SULLE TUE CONOSCENZE. " ++
  lit "QUALORA LA DOMANDA CONTENGA ESPRESSIONI COME 'fammi vedere', 'portami', 'mi fai vedere', O SIMILI, " ++
  lit "TRADUCI LA RICHIESTA IN UN INVITO ALL'AZIONE, AD ESEMPIO 'Adesso ti accompagno all'opera', " ++
  lit "SENZA RIPETERE DETTAGLI SPAZIALI O TECNICI (ES. COORDINATE, DISTANZE, POSITIONI FISICHE). " ++
  lit "PER ALTRE DOMANDE, RISPONDI IN MODO DESCRITTIVO MA SENZA INCLUDERE INFORMAZIONI TECNICHE SULLA POSIZIONE.".

Definition TRANSLATOR_MODEL_PREFIX : text := lit "Helsinki-NLP/opus-mt".

Definition NO_SPARQL : text := lit "NO_SPARQL".

Definition DQUOTE : ascii := "034"%char.
Definition BACKSLASH : ascii := "092"%char.

(** The two [replace] calls on [final_ans] at the end of step 4: the
    first deletes every backslash followed by a double quote, the second
    every double quote that is left. *)
Definition strip_quotes (s : text) : text :=
  replace [DQUOTE] [] (replace [BACKSLASH; DQUOTE] [] s).

(** The three prompts of step 3. *)
Definition prompt_with_results (user_message q : text) (results : list Row)
  : text :=
  create_system_prompt_for_guide ++ [LF; LF] ++
  lit "Domanda utente: " ++ user_message ++ [LF] ++
  lit "Query generata: " ++ q ++ [LF] ++
  lit "Risultati:" ++ [LF] ++ render_results results ++ [LF] ++
  lit "Rispondi in modo breve (max ~50 parole).".

Definition prompt_no_results (user_message q : text) : text :=
  create_system_prompt_for_guide ++ [LF; LF] ++
  lit "Domanda utente: " ++ user_message ++ [LF] ++
  lit "Query generata: " ++ q ++ [LF] ++
  lit "Nessun risultato dalla query. Prova comunque a rispondere con le tue conoscenze.".

Definition prompt_no_query (user_message : text) : text :=
  create_system_prompt_for_guide ++ [LF; LF] ++
  lit "Domanda utente: " ++ user_message ++ [LF] ++
  lit "Nessuna query SPARQL generata. Rispondi come puoi, riarrangiando le tue conoscenze.".

(** Point and prompt chosen by the [if]/[elif]/[else] of step 3. *)
Definition point_and_prompt (user_message : text)
    (generated_query : option text) (results : list Row) : text * text :=
  let q := match generated_query with Some q => q | None => [] end in
  if truthy generated_query && nonempty results then
    (extract_point [] results, prompt_with_results user_message q results)
  else if truthy generated_query && negb (nonempty results) then
    ([], prompt_no_results user_message q)
  else ([], prompt_no_query user_message).

(** ** The rooms endpoint: local names and grouping *)

(** [s.split(sep)] for a one-character separator. *)
Fixpoint split_on (sep : ascii) (s : text) : list text :=
  match s with
  | [] => [[]]
  | c :: s' =>
      if Ascii.eqb c sep then [] :: split_on sep s'
      else match split_on sep s' with
           | piece :: pieces => (c :: piece) :: pieces
           | [] => [[c]]
           end
  end.

Definition HASH : ascii := ch "#".

(** [uri.split("#")[-1].strip() if "#" in uri else uri] *)
Definition local_name (uri : text) : text :=
  if contains uri [HASH] then strip (last (split_on HASH uri) [])
  else uri.

Record Entry := {
  nome : text;
  punto : text
}.

Record Stanza := {
  roomName : text;
  entries : list Entry
}.

(** [opera_dict] of one row. *)
Definition opera_dict (row : Row) : Entry :=
  {| nome := local_name (py_str (get row (lit "opera")));
     punto := match get row (lit "p") with
              | Some v => v
              | None => []
              end |}.

Definition stanza_local (row : Row) : text :=
  local_name (py_str (get row (lit "stanza"))).

(** [temp_dict]: a dict keeps its keys in order of insertion. *)
Definition Dict := list (text * list Entry).

(** [if k not in d: d[k] = []] then [d[k].append(e)] *)
Fixpoint dict_append (k : text) (e : Entry) (d : Dict) : Dict :=
  match d with
  | [] => [(k, [e])]
  | (k', es) :: d' =>
      if text_eqb k k' then (k', es ++ [e]) :: d'
      else (k', es) :: dict_append k e d'
  end.

Definition group_rows (rows : list Row) : Dict :=
  fold_left (fun d row => dict_append (stanza_local row) (opera_dict row) d)
            rows [].

Definition stanze_list (rows : list Row) : list Stanza :=
  map (fun kv => {| roomName := fst kv; entries := snd kv |})
      (group_rows rows).

Definition STANZE_QUERY : text :=
  lit "PREFIX progettoMuseo: <http://www.semanticweb.org/lucreziamosca/ontologies/progettoMuseo#> " ++
  lit "SELECT ?stanza ?opera ?p WHERE { ?opera progettoMuseo:" ++
  [ascii_of_nat 232] ++ lit "Esposto ?stanza. " ++
  lit "OPTIONAL { ?opera progettoMuseo:posizioneOpera ?p. } }".

(** ** The collaborators and the monad of the endpoints

    The generation, language-identification and translation services and
    the graph store answer as they please: each is a function of a state of
    the world that it may change.  [None] is a raised exception (or an
    answer without the expected fields, which raises inside the same
    [try]).  The rdflib parser is a fixed function of its argument.  The
    text of the query-synthesis prompt, a fixed template around the
    serialized ontology, is left open.

    The store answers a SELECT query with rows.  It answers an ASK query
    with a truth value and a CONSTRUCT or DESCRIBE query with triples;
    these have no [labels], so that on such an answer, unless it is empty,
    step 3 of [assistant_endpoint] raises an [AttributeError] which
    nothing catches, after the first generation call.  Such runs end with
    neither a response nor the error of the answer call, and are not among
    the runs described here: the store of this model answers rows or
    raises. *)

Record Services (World : Type) := {
  ontology_serialize : World -> World * option text;
  chat_completions_create :
    World -> text -> text -> Z -> Q -> World * option text;
  parseQuery : text -> bool;
  ontology_query : World -> text -> World * option (list Row);
  text_classification : World -> text -> World * option text;
  translation : World -> text -> text -> World * option text;
  create_system_prompt_for_sparql : text -> text
}.

Record State (World : Type) := {
  world : World;
  calls : list Call
}.

Definition M (World A : Type) : Type :=
  State World -> State World * (HTTPException + A).

Definition ret {World A : Type} (a : A) : M World A :=
  fun st => (st, inr a).

Definition raise {World A : Type} (e : HTTPException) : M World A :=
  fun st => (st, inl e).

Definition bind {World A B : Type} (m : M World A) (k : A -> M World B)
  : M World B :=
  fun st =>
    match m st with
    | (st', inr a) => k a st'
    | (st', inl e) => (st', inl e)
    end.

Notation "x <- m ;; k" := (bind m (fun x => k))
  (at level 61, m at next level, right associativity).

(** A call to a collaborator: the world moves on and the call is
    recorded. *)
Definition perform {World A : Type} (f : World -> World * A)
    (record : A -> Call) : M World A :=
  fun st =>
    let (w, r) := f (world st) in
    ({| world := w; calls := calls st ++ [record r] |}, inr r).

Definition note {World : Type} (c : Call) : M World unit :=
  fun st => ({| world := world st; calls := calls st ++ [c] |}, inr tt).

Section Endpoints.

Context {World : Type} (sv : Services World).

Definition serialize_ontology : M World (option text) :=
  perform (ontology_serialize sv) CallSerialize.

Definition complete (system user : text) (max_tok : Z) (temp : Q)
  : M World (option text) :=
  perform (fun w => chat_completions_create sv w system user max_tok temp)
          (CallCompletion system user max_tok temp).

Definition repair_query (candidate : text) : M World text :=
  _ <- note (CallRepair candidate) ;;
  ret (correct_sparql_syntax_advanced candidate).

(** [is_sparql_query_valid] *)
Definition is_sparql_query_valid (candidate : text) : M World bool :=
  perform (fun w => (w, parseQuery sv candidate)) (CallParseQuery candidate).

Definition run_query (q : text) : M World (option (list Row)) :=
  perform (fun w => ontology_query sv w q) (CallGraphQuery q).

Definition classify (t : text) : M World (option text) :=
  perform (fun w => text_classification sv w t) (CallClassify t).

Definition translate (model t : text) : M World (option text) :=
  perform (fun w => translation sv w model t) (CallTranslate model t).

(** [classify_and_translate] *)
Definition classify_and_translate (question_text model_answer_text : text)
  : M World text :=
  ql <- classify question_text ;;
  let question_lang := match ql with Some l => l | None => lit "en" end in
  al <- classify model_answer_text ;;
  let answer_lang := match al with Some l => l | None => lit "it" end in
  if text_eqb question_lang answer_lang then ret model_answer_text
  else
    let translator_model :=
      TRANSLATOR_MODEL_PREFIX ++ lit "-" ++ answer_lang ++ lit "-"
      ++ question_lang in
    tr <- translate translator_model model_answer_text ;;
    ret (match tr with
         | Some translated => translated
         | None => model_answer_text
         end).

Definition FINAL_USER : text := lit "Fornisci la risposta finale.".

Definition ANSWER_ERROR : HTTPException :=
  HTTPError 500
    (lit "Errore nella generazione della risposta in linguaggio naturale.").

(** Step 1 of [assistant_endpoint]: the query or [None]. *)
Definition generate_query (user_message : text) : M World (option text) :=
  ser <- serialize_ontology ;;
  let ontology_turtle := match ser with Some t => t | None => [] end in
  let system_prompt_sparql :=
    create_system_prompt_for_sparql sv ontology_turtle in
  gen <- complete system_prompt_sparql user_message 512%Z (2 # 10)%Q ;;
  let possible_query :=
    match gen with Some content => strip content | None => NO_SPARQL end in
  if startswith (upper possible_query) NO_SPARQL then ret None
  else
    advanced_corrected <- repair_query possible_query ;;
    ok <- is_sparql_query_valid advanced_corrected ;;
    ret (if ok then Some advanced_corrected else None).

(** Step 2: the rows of the query, none when there is no query or the
    store raises. *)
Definition execute_query (generated_query : option text)
  : M World (list Row) :=
  if truthy generated_query then
    r <- run_query (match generated_query with Some q => q | None => [] end) ;;
    ret (match r with Some rows => rows | None => [] end)
  else ret [].

(** [assistant_endpoint] *)
Definition assistant_endpoint (req : AssistantRequest) : M World Response :=
  let user_message := message req in
  generated_query <- generate_query user_message ;;
  results <- execute_query generated_query ;;
  let (pt, second_prompt) :=
    point_and_prompt user_message generated_query results in
  final_output <- complete second_prompt FINAL_USER 512%Z (5 # 10)%Q ;;
  match final_output with
  | None => raise ANSWER_ERROR
  | Some content =>
      let final_answer := strip content in
      final_ans <- classify_and_translate user_message final_answer ;;
      ret {| query := generated_query;
             response := strip_quotes final_ans;
             point := pt |}
  end.

(** [query_stanze_endpoint] *)
Definition query_stanze_endpoint : M World (list Stanza) :=
  corrected_query <- repair_query STANZE_QUERY ;;
  ok <- is_sparql_query_valid corrected_query ;;
  if negb ok then raise (HTTPError 400 (lit "Query SPARQL non valida."))
  else
    r <- run_query corrected_query ;;
    match r with
    | Some rows => ret (stanze_list rows)
    | None =>
        raise (HTTPError 500
                 (lit "Errore nell'esecuzione della query SPARQL."))
    end.

End Endpoints.

(** The endpoint run on a fresh request. *)
Definition serve {World A : Type} (m : M World A) (w : World)
  : list Call * (HTTPException + A) :=
  let (st, out) := m {| world := w; calls := [] |} in (calls st, out).

(** ** Reference readings of the specification *)

(** What the specification's two-tier rule would return: the first
    non-empty [p] over all rows, else the first non-empty [posizione]. *)
Fixpoint first_valid (v : text) (results : list Row) : option text :=
  match results with
  | [] => None
  | row :: rest =>
      if valid_binding row v then Some (binding_point row v)
      else first_valid v rest
  end.

Definition priority_point (results : list Row) : text :=
  match first_valid (lit "p") results with
  | Some x => x
  | None =>
      match first_valid (lit "posizione") results with
      | Some y => y
      | None => []
      end
  end.

Definition neither (row : Row) : Prop :=
  valid_binding row (lit "p") = false /\
  valid_binding row (lit "posizione") = false.

(** A matcher that never matches the empty string. *)
Definition consuming (m : matcher) : Prop :=
  forall s rep rest, m s = Some (rep, rest) -> List.length rest < List.length s.

(** ** Canned collaborators for worked examples

    The world counts the generation calls and the language-identification
    calls made so far: [gen1] and [gen2] answer the first and the later
    generation calls, [lang1] and [lang2] the first and the later
    detections. *)

Definition canned (gen1 gen2 : option text) (valid : bool)
    (rows : option (list Row)) (lang1 lang2 : option text)
    (tr : option text) : Services (nat * nat) :=
  {| ontology_serialize := fun w => (w, Some []);
     chat_completions_create := fun w _ _ _ _ =>
       ((S (fst w), snd w), if fst w =? 0 then gen1 else gen2);
     parseQuery := fun _ => valid;
     ontology_query := fun w _ => (w, rows);
     text_classification := fun w _ =>
       ((fst w, S (snd w)), if snd w =? 0 then lang1 else lang2);
     translation := fun w _ _ => (w, tr);
     create_system_prompt_for_sparql := fun ontology => ontology |}.

(** The completions of a run, in order. *)
Definition completions (cs : list Call) : list Call :=
  filter is_completion cs.

(** A question off the museum's topic, with a budget and a temperature of
    the caller's own; the generation service answers the marker in lower
    case, then an answer that quotes a word. *)
Definition weather_request : AssistantRequest :=
  {| message := lit "Che tempo fa oggi?";
     max_tokens := 100%Z;
     temperature := (9 # 10)%Q |}.

Definition QUOTED_ANSWER : text :=
  lit "Non conosco il " ++ [BACKSLASH; DQUOTE] ++ lit "meteo" ++ [DQUOTE]
  ++ lit " di oggi.".

Definition sentinel_services : Services (nat * nat) :=
  canned (Some (lit " no_sparql ")) (Some QUOTED_ANSWER) true None
         (Some (lit "it")) (Some (lit "it")) None.

(** The answer call raises. *)
Definition silent_services : Services (nat * nat) :=
  canned (Some (lit "NO_SPARQL")) None true None
         (Some (lit "it")) (Some (lit "it")) None.

(** The question is English, the answer Italian, the translation raises. *)
Definition untranslated_services : Services (nat * nat) :=
  canned (Some (lit "NO_SPARQL")) (Some (lit "Non lo so.")) true None
         (Some (lit "en")) (Some (lit "it")) None.

(** ** What a repair step may do to a text

    Every step after the prefix check copies its input and touches it only
    at whitespace or between two characters: a line break becomes a space,
    a run of whitespace becomes one space, a space is put before [?], [*]
    or [{], whitespace before [}] becomes [ . ], and [ WHERE ] is put
    before [{]. *)

Definition all_space (w : text) : bool := forallb is_space w.

Definition no_space (k : text) : bool :=
  forallb (fun c => negb (is_space c)) k.

Definition SPACE : ascii := " "%char.
Definition QMARK : ascii := "?"%char.
Definition STAR : ascii := "*"%char.
Definition LBRACE : ascii := "{"%char.
Definition RBRACE : ascii := "}"%char.
Definition DOT : ascii := "."%char.

(** [gap w u c]: whitespace [w] in front of [c] may become [u]. *)
Inductive gap : text -> text -> ascii -> Prop :=
| gap_squeeze (w : text) (c : ascii) : w <> [] -> gap w [SPACE] c
| gap_split (c : ascii) :
    c = QMARK \/ c = STAR \/ c = LBRACE -> gap [] [SPACE] c
| gap_dot (w : text) : gap w [SPACE; DOT; SPACE] RBRACE
| gap_where : gap [] (SPACE :: lit "WHERE" ++ [SPACE]) LBRACE.

Inductive edit : text -> text -> Prop :=
| edit_nil : edit [] []
| edit_copy (c : ascii) (s s' : text) :
    edit s s' -> edit (c :: s) (c :: s')
| edit_blank (c : ascii) (s s' : text) :
    is_space c = true -> edit s s' -> edit (c :: s) (SPACE :: s')
| edit_gap (w u : text) (c : ascii) (s s' : text) :
    all_space w = true -> is_space c = false -> gap w u c ->
    edit s s' -> edit (w ++ c :: s) (u ++ c :: s')
| edit_end (w : text) :
    w <> [] -> all_space w = true -> edit w [SPACE].

(** Somewhere in [s] a suffix satisfies [occ]. *)
Definition anywhere (occ : text -> Prop) (s : text) : Prop :=
  exists a b, s = a ++ b /\ occ b.

(** The pattern of matcher [m] matches at the head of [s]. *)
Definition matches (m : matcher) (s : text) : Prop := m s <> None.

(** What the two [replace] calls of step 1 do to one character. *)
Definition unwrap_char (c : ascii) : ascii :=
  if Ascii.eqb CR c then SPACE else if Ascii.eqb LF c then SPACE else c.

(** Texts whose only whitespace is single spaces ([single_from]), and
    which moreover neither start nor end with one ([tidy]): the fixed
    points of [squeeze].  The flag tells whether the character before was
    a space. *)
Fixpoint single_from (after_space : bool) (s : text) : bool :=
  match s with
  | [] => true
  | c :: r =>
      if is_space c
      then Ascii.eqb c SPACE && negb after_space && single_from true r
      else single_from false r
  end.

Fixpoint tidy_from (after_space : bool) (s : text) : bool :=
  match s with
  | [] => negb after_space
  | c :: r =>
      if is_space c
      then Ascii.eqb c SPACE && negb after_space && tidy_from true r
      else tidy_from false r
  end.

Definition tidy (s : text) : bool :=
  match s with
  | [] => true
  | _ => tidy_from true s
  end.

(** What may follow the first character of an inserted gap, with the
    character the gap stands before. *)
Definition inserted_tails : list text :=
  [ lit ". }"; lit "WHERE {"; lit "HERE {"; lit "ERE {"; lit "RE {";
    lit "E {" ].

(** A matcher that never matches inside an inserted gap. *)
Definition tails_ok (m : matcher) : Prop :=
  forall b t, In b inserted_tails -> m (b ++ t) = None.

(** A pattern made of characters other than whitespace: a match is
    decided by a non-empty prefix free of whitespace. *)
Definition token_pattern (m : matcher) : Prop :=
  forall s, matches m s ->
    exists k r, s = k ++ r /\ k <> [] /\ no_space k = true /\
                forall r', matches m (k ++ r').

(** What a match consumes is a prefix of the text. *)
Definition suffixing (m : matcher) : Prop :=
  forall s rep rest, m s = Some (rep, rest) -> exists a, s = a ++ rest.

(** The shape shared by the patterns of steps 3 and 4: a keyword in any
    letter case directly followed by a character of a given class, with a
    space put between the two. *)
Definition m_keyword (K : text) (follow : ascii -> bool) : matcher := fun s =>
  match take_ci K s with
  | Some (kw, c :: rest) =>
      if follow c then Some (kw ++ [SPACE; c], rest) else None
  | _ => None
  end.

Definition select_follow (c : ascii) : bool :=
  Ascii.eqb c QMARK || Ascii.eqb c STAR.

Definition where_follow (c : ascii) : bool := Ascii.eqb c LBRACE.

Definition NAME : text := lit "progettoMuseo".
Definition COLON : ascii := ":"%char.

(** [b] starts with [k]. *)
Definition starts (k : text) (b : text) : Prop := exists r, b = k ++ r.

(** [b] starts with [k] in some letter case. *)
Definition starts_ci (K : text) (b : text) : Prop :=
  exists k r, b = k ++ r /\ upper k = K.

(** The characters a step may put a gap before. *)
Definition is_special (c : ascii) : bool :=
  Ascii.eqb c QMARK || Ascii.eqb c STAR || Ascii.eqb c LBRACE
  || Ascii.eqb c RBRACE.

Definition no_special (k : text) : bool :=
  forallb (fun c => negb (is_special c)) k.

(** [PREFIX], whitespace, [progettoMuseo:]: what squeezing turns into the
    declaration mark. *)
Definition loose_mark (b : text) : Prop :=
  exists w r, b = lit "PREFIX" ++ w ++ lit "progettoMuseo:" ++ r /\
              w <> [] /\ all_space w = true.

(** The prepended declaration without its final space. *)
Definition PREFIX_HEAD : text :=
  lit "PREFIX progettoMuseo: <http://www.semanticweb.org/lucreziamosca/ontologies/progettoMuseo#>".

(** Does the pattern match at some position? *)
Fixpoint has_match (m : matcher) (s : text) : bool :=
  match m s with
  | Some _ => true
  | None =>
      match s with
      | [] => false
      | _ :: s' => has_match m s'
      end
  end.

(** Steps 2 and 8 of the repair on their own. *)
Definition with_prefix (q : text) : text :=
  if negb (contains q PREFIX_MARK) then PREFIX_DECL ++ q else q.

Definition with_where (q : text) : text :=
  if negb (contains (upper q) (lit "WHERE")) then re_sub m_add_where q
  else q.

(** Steps 6 to 9. *)
Definition finish (q : text) : text :=
  squeeze (with_where (re_sub m_dot (squeeze q))).

(** The texts the repair of step 2 is safe on: the first character is the
    [P] of the declaration and no loose mark follows it. *)
Definition solo (t : text) : Prop :=
  exists t', t = "P"%char :: t' /\ ~ anywhere loose_mark t'.

Definition headed (t : text) : Prop := exists r, t = PREFIX_HEAD ++ r.

(** ** The patterns as regular expressions

    The six patterns of the repair, written as regular expressions with
    the usual language semantics, to state what each matcher above
    finds. *)

Inductive regex : Type :=
| Class (p : ascii -> bool)
| Cat (a b : regex)
| Many1 (a : regex)
| Many (a : regex)
| Nothing.

Inductive accepts : regex -> text -> Prop :=
| acc_class (p : ascii -> bool) (c : ascii) :
    p c = true -> accepts (Class p) [c]
| acc_cat (a b : regex) (u v : text) :
    accepts a u -> accepts b v -> accepts (Cat a b) (u ++ v)
| acc_many1_one (a : regex) (u : text) :
    accepts a u -> accepts (Many1 a) u
| acc_many1_more (a : regex) (u v : text) :
    accepts a u -> accepts (Many1 a) v -> accepts (Many1 a) (u ++ v)
| acc_many_nil (a : regex) : accepts (Many a) []
| acc_many_more (a : regex) (u v : text) :
    accepts a u -> accepts (Many a) v -> accepts (Many a) (u ++ v)
| acc_nothing : accepts Nothing [].

(** A literal, and an upper-case literal under [re.IGNORECASE]. *)
Fixpoint word_lit (K : text) : regex :=
  match K with
  | [] => Nothing
  | k :: K' => Cat (Class (Ascii.eqb k)) (word_lit K')
  end.

Fixpoint word_ci (K : text) : regex :=
  match K with
  | [] => Nothing
  | k :: K' => Cat (Class (fun c => Ascii.eqb k (upper_char c))) (word_ci K')
  end.

Definition not_lbrace (c : ascii) : bool := negb (Ascii.eqb c LBRACE).

Definition p_select : regex :=
  Cat (word_ci (lit "SELECT")) (Class select_follow).

Definition p_where : regex :=
  Cat (word_ci (lit "WHERE")) (Class where_follow).

Definition p_glue : regex :=
  Cat (word_lit (lit "progettoMuseo:"))
      (Cat (Many1 (Class is_word))
           (Cat (Class (Ascii.eqb QMARK)) (Many1 (Class is_word)))).

Definition p_spaces : regex := Many1 (Class is_space).

Definition p_dot : regex :=
  Cat (Class (Ascii.eqb QMARK))
      (Cat (Many1 (Class is_word))
           (Cat (Many (Class is_space)) (Class (Ascii.eqb RBRACE)))).

Definition p_add_where : regex :=
  Cat (word_ci (lit "SELECT"))
      (Cat (Many1 (Class is_space))
           (Cat (Many1 (Class not_lbrace)) (Class (Ascii.eqb LBRACE)))).

(** [m] finds the pattern [p]: where it matches, what it consumes is the
    longest prefix that [p] accepts; where it does not, [p] accepts no
    prefix. *)
Definition finds (m : matcher) (p : regex) : Prop :=
  forall s,
    match m s with
    | Some (_, rest) =>
        exists u, s = u ++ rest /\ accepts p u /\
                  forall u' r', s = u' ++ r' -> accepts p u' ->
                                List.length u' <= List.length u
    | None => forall u r, s = u ++ r -> ~ accepts p u
    end.

(** ** What a repair keeps of its input *)

(** The characters of a text other than whitespace. *)
Definition visible (s : text) : text :=
  filter (fun c => negb (is_space c)) s.

(** [embeds a b]: deleting characters of [b] gives [a]. *)
Inductive embeds : text -> text -> Prop :=
| embeds_nil : embeds [] []
| embeds_keep (c : ascii) (a b : text) :
    embeds a b -> embeds (c :: a) (c :: b)
| embeds_skip (c : ascii) (a b : text) :
    embeds a b -> embeds a (c :: b).

(** ** Reading a grouping *)

(** The distinct elements of [ks], each where it first occurs. *)
Fixpoint first_seen (ks : list text) : list text :=
  match ks with
  | [] => []
  | k :: rest => k :: filter (fun k' => negb (text_eqb k' k)) (first_seen rest)
  end.

(** [list(d.keys())] *)
Definition keys (d : Dict) : list text := map fst d.

(** [d.get(k, [])] *)
Fixpoint dict_get (k : text) (d : Dict) : list Entry :=
  match d with
  | [] => []
  | (k', es) :: d' => if text_eqb k k' then es else dict_get k d'
  end.

(** The rows of a result that belong to room [k]. *)
Definition rows_of (k : text) (rows : list Row) : list Row :=
  filter (fun row => text_eqb (stanza_local row) k) rows.

(** The number of entries of a dict, over all its keys. *)
Definition total (d : Dict) : nat :=
  List.length (List.concat (map snd d)).

(** ** Further collaborators for worked examples *)

(** Services of the rooms endpoint: the parser's verdict and the store's
    answer are given. *)
Definition rooms_services (valid : bool) (rows : option (list Row))
  : Services (nat * nat) :=
  canned None None valid rows None None None.

Definition two_rooms : list Row :=
  [ [(lit "stanza", Some (lit "http://m#stanzaGrecia"));
     (lit "opera", Some (lit "http://m#Discobolo"));
     (lit "p", Some (lit "(0, 0, 0.77)"))];
    [(lit "stanza", Some (lit "http://m#stanzaItalia"));
     (lit "opera", Some (lit "http://m#David")); (lit "p", None)];
    [(lit "stanza", Some (lit "http://m#stanzaGrecia"));
     (lit "opera", Some (lit "AfroditeDiMilo")); (lit "p", None)] ].

(** The question is English, the answer Italian, the translation
    succeeds. *)
Definition translating_services : Services (nat * nat) :=
  canned (Some (lit "NO_SPARQL")) (Some (lit "Non lo so.")) true None
         (Some (lit "en")) (Some (lit "it")) (Some (lit "I do not know.")).

(** Both language detections raise. *)
Definition blind_services : Services (nat * nat) :=
  canned (Some (lit "NO_SPARQL")) (Some (lit "Non lo so.")) true None
         None None (Some (lit "I do not know.")).



(** A question about a work; the generation service answers a query that
    lacks its prefix declaration, then an answer. *)
Definition discobolo_request : AssistantRequest :=
  {| message := lit "Fammi vedere il Discobolo.";
     max_tokens := 512%Z;
     temperature := (5 # 10)%Q |}.

Definition DISCOBOLO_QUERY : text :=
  lit "SELECT ?p { progettoMuseo:Discobolo progettoMuseo:posizioneOpera ?p }".

Definition museum_services (gen1 : option text) (valid : bool)
    (rows : option (list Row)) : Services (nat * nat) :=
  canned gen1 (Some (lit "Adesso ti accompagno all'opera.")) valid rows
         (Some (lit "it")) (Some (lit "it")) None.

(** The store cannot serialize the ontology. *)
Definition unserializable_services : Services (nat * nat) :=
  {| ontology_serialize := fun w => (w, None);
     chat_completions_create := chat_completions_create sentinel_services;
     parseQuery := parseQuery sentinel_services;
     ontology_query := ontology_query sentinel_services;
     text_classification := text_classification sentinel_services;
     translation := translation sentinel_services;
     create_system_prompt_for_sparql :=
       fun ontology => lit "ONTOLOGIA: " ++ ontology |}.

(** An answer of the store whose second row binds the position. *)
Definition discobolo_rows : list Row :=
  [ [(lit "opera", Some (lit "http://m#Discobolo")); (lit "p", None)];
    [(lit "p", Some (lit " (0, 0, 0.77) "))] ].

(** ** Glued pairs that hide one another

    The glue step replaces matches that do not overlap.  Where a glued
    pair [progettoMuseo:name?var] has a variable name that ends in
    [progettoMuseo] and goes on with a colon, a name and a second glued
    variable, the first match takes the head of the second pair with it,
    and only a second run of the repair splits that one. *)

(** [w] ends in SELECT, in some letter case: step 3 has then put a space
    between [w] and a [?] that follows it. *)
Definition ends_select (w : text) : Prop :=
  exists a k, w = a ++ k /\ upper k = lit "SELECT".

(** [b] is [progettoMuseo:w1?w] followed by [progettoMuseo:w3?c], where
    [w1], [w] and [w3] are runs of word characters, [w1] and [w3] not
    empty, and [c] is a word character. *)
Definition glued_chain (w1 w w3 : text) (c : ascii) (r b : text) : Prop :=
  b = lit "progettoMuseo:" ++ w1 ++ QMARK :: w ++
      lit "progettoMuseo:" ++ w3 ++ QMARK :: c :: r /\
  w1 <> [] /\ forallb is_word w1 = true /\
  forallb is_word w = true /\
  w3 <> [] /\ forallb is_word w3 = true /\ is_word c = true.

Definition glued_pair (b : text) : Prop :=
  exists w1 w w3 c r, glued_chain w1 w w3 c r b.

(** A glued pair hidden behind another one, neither of which step 3
    separates. *)
Definition hidden_glue (b : text) : Prop :=
  exists w1 w w3 c r,
    glued_chain w1 w w3 c r b /\ ~ ends_select w1 /\ ~ ends_select w3.

(** A check for glued pairs in a row. *)
Definition pair_here (b : text) : bool :=
  match take_lit (lit "progettoMuseo:") b with
  | Some r =>
      match span is_word r with
      | (_ :: _, q :: r1) =>
          Ascii.eqb q QMARK &&
          (let (w, r2) := span is_word r1 in
           startswith (rev w) (rev NAME) &&
           match r2 with
           | k :: r3 =>
               Ascii.eqb k COLON &&
               match span is_word r3 with
               | (_ :: _, q2 :: c :: _) => Ascii.eqb q2 QMARK && is_word c
               | _ => false
               end
           | [] => false
           end)
      | _ => false
      end
  | None => false
  end.

Fixpoint has_pair (s : text) : bool :=
  pair_here s ||
  match s with
  | [] => false
  | _ :: s' => has_pair s'
  end.

(** ** Characters beyond ASCII for worked examples *)

Definition NBSP : ascii := ascii_of_nat 160.
Definition A_GRAVE : ascii := ascii_of_nat 224.
Definition E_GRAVE : ascii := ascii_of_nat 232.

(** The generation service answers the marker between two no-break
    spaces. *)
Definition padded_sentinel_services : Services (nat * nat) :=
  canned (Some (NBSP :: lit "no_sparql" ++ [NBSP])) (Some QUOTED_ANSWER)
         true (Some discobolo_rows) (Some (lit "it")) (Some (lit "it")) None.

(** * Properties *)

(** ** Text basics *)

Lemma text_eqb_eq (a b : text) : text_eqb a b = true <-> a = b.
Proof.
  unfold text_eqb. destruct (list_eq_dec ascii_dec a b); split; congruence.
Qed.

Lemma text_eqb_refl (a : text) : text_eqb a a = true.
Proof. now apply text_eqb_eq. Qed.

Lemma text_eqb_neq (a b : text) : text_eqb a b = false <-> a <> b.
Proof.
  unfold text_eqb. destruct (list_eq_dec ascii_dec a b); split; congruence.
Qed.

(** ** Location point *)

Lemma valid_binding_value (row : Row) (v : text) :
  valid_binding row v = true ->
  exists x, get row v = Some x /\ strip x <> [] /\
            binding_point row v = strip x.
Proof.
  unfold valid_binding, binding_point. intros H.
  apply andb_true_iff in H as [_ H].
  destruct (get row v) as [x|]; [|discriminate].
  exists x. repeat split; auto.
  apply negb_true_iff, text_eqb_neq in H. exact H.
Qed.

Lemma extract_point_skip (before rest : list Row) (pt : text) :
  (forall r, In r before -> neither r) ->
  extract_point pt (before ++ rest) = extract_point pt rest.
Proof.
  induction before as [|r before IH]; intros Hn; cbn [app extract_point]; auto.
  destruct (Hn r (or_introl eq_refl)) as [Hp Hq].
  rewrite Hp, Hq. apply IH. intros r' Hr'. apply Hn. now right.
Qed.

(** C1 fails as stated: a row that binds only [posizione] and comes before
    a row that binds [p] decides the point. *)
Lemma extract_point_posizione_preempts_p :
  let rows : list Row :=
    [ [(lit "posizione", Some (lit "(0, 0, 0.77)"))];
      [(lit "p", Some (lit "(0.586, 0, -0.1)"))] ] in
  priority_point rows = lit "(0.586, 0, -0.1)" /\
  extract_point [] rows = lit "(0, 0, 0.77)" /\
  extract_point [] rows <> priority_point rows.
Proof. vm_compute. repeat split; discriminate. Qed.

(** C1, amended: the point is taken from the first row, in order, that has
    a non-empty [p] or a non-empty [posizione]: its stripped [p] when that
    is non-empty, its stripped [posizione] otherwise; with no such row the
    point is empty. *)
Theorem extract_point_first_hit (results : list Row) :
  (forall before row after,
      results = before ++ row :: after ->
      (forall r, In r before -> neither r) ->
      (valid_binding row (lit "p") = true ->
       exists x, get row (lit "p") = Some x /\ strip x <> [] /\
                 extract_point [] results = strip x) /\
      (valid_binding row (lit "p") = false ->
       valid_binding row (lit "posizione") = true ->
       exists x, get row (lit "posizione") = Some x /\ strip x <> [] /\
                 extract_point [] results = strip x)) /\
  ((forall r, In r results -> neither r) -> extract_point [] results = []).
Proof.
  split.
  - intros before row after -> Hb. rewrite extract_point_skip by exact Hb.
    cbn [extract_point]. split.
    + intros Hp. rewrite Hp.
      destruct (valid_binding_value _ _ Hp) as (x & Hx & Hne & Hv).
      exists x. now rewrite Hv.
    + intros Hp Hq. rewrite Hp, Hq.
      destruct (valid_binding_value _ _ Hq) as (x & Hx & Hne & Hv).
      exists x. now rewrite Hv.
  - intros Hn. rewrite <- (app_nil_r results).
    now rewrite extract_point_skip by exact Hn.
Qed.

Lemma extract_point_first_hit_witness :
  let rows : list Row :=
    [ [(lit "autore", Some (lit "Mirone")); (lit "p", None)];
      [(lit "posizione", Some (lit " (0, 0, 0.77) "))];
      [(lit "p", Some (lit "(0.586, 0, -0.1)"))] ] in
  extract_point [] rows = lit "(0, 0, 0.77)".
Proof.
  intros rows.
  destruct (extract_point_first_hit rows) as [H _].
  destruct (H [ [(lit "autore", Some (lit "Mirone")); (lit "p", None)] ]
              [(lit "posizione", Some (lit " (0, 0, 0.77) "))]
              [ [(lit "p", Some (lit "(0.586, 0, -0.1)"))] ]
              eq_refl) as [_ Hq].
  - intros r [<-|[]]. split; reflexivity.
  - destruct (Hq eq_refl eq_refl) as (x & Hx & _ & Hv).
    rewrite Hv. injection Hx as <-. reflexivity.
Defined.

(** ** The substitution engine *)

#[local] Arguments re_sub : simpl never.
#[local] Arguments lit : simpl never.

Lemma sub_from_fuel (m : matcher) (Hm : consuming m) (f1 f2 : nat) :
  forall s, List.length s < f1 -> List.length s < f2 ->
            sub_from m f1 s = sub_from m f2 s.
Proof.
  revert f2. induction f1 as [|f1 IH]; intros f2 s H1 H2; [lia|].
  destruct f2 as [|f2]; [lia|]. cbn [sub_from].
  destruct (m s) as [[rep rest]|] eqn:E.
  - apply Hm in E. f_equal. apply IH; lia.
  - destruct s as [|c s']; auto. cbn [List.length] in *.
    f_equal. apply IH; lia.
Qed.

Lemma re_sub_eq (m : matcher) (Hm : consuming m) (s : text) :
  re_sub m s =
  match m s with
  | Some (rep, rest) => rep ++ re_sub m rest
  | None => match s with
            | [] => []
            | c :: s' => c :: re_sub m s'
            end
  end.
Proof.
  unfold re_sub at 1. cbn [sub_from].
  destruct (m s) as [[rep rest]|] eqn:E.
  - apply Hm in E. f_equal. apply sub_from_fuel; auto; lia.
  - destruct s as [|c s']; reflexivity.
Qed.

Lemma re_sub_nil (m : matcher) : m [] = None -> re_sub m [] = [].
Proof. intros H. unfold re_sub. cbn. now rewrite H. Qed.

(** Induction along the scan: the engine either copies a character or
    jumps over a match. *)
Lemma scan_ind (m : matcher) (Hm : consuming m) (P : text -> Prop) :
  P [] ->
  (forall c s, m (c :: s) = None -> P s -> P (c :: s)) ->
  (forall s rep rest, m s = Some (rep, rest) -> P rest -> P s) ->
  forall s, P s.
Proof.
  intros Hnil Hcopy Hjump s.
  remember (List.length s) as n eqn:Hn. revert s Hn.
  induction n as [n IH] using lt_wf_ind. intros s ->.
  destruct (m s) as [[rep rest]|] eqn:E.
  - apply (Hjump _ _ _ E). apply (IH (List.length rest)); auto.
    now apply Hm in E.
  - destruct s as [|c s']; auto. apply Hcopy; auto.
    apply (IH (List.length s')); auto.
Qed.

Lemma take_lit_app (kw s rest : text) :
  take_lit kw s = Some rest <-> s = kw ++ rest.
Proof.
  revert s. induction kw as [|k kw IH]; intros s; cbn.
  - split; congruence.
  - destruct s as [|c s']; [split; discriminate|].
    destruct (Ascii.eqb_spec k c) as [->|Hne].
    + rewrite IH. split; congruence.
    + split; [discriminate|]. intros [= -> _]. congruence.
Qed.

Lemma take_ci_app (kw s a r : text) :
  take_ci kw s = Some (a, r) -> s = a ++ r /\ upper a = kw.
Proof.
  revert s a r. induction kw as [|k kw IH]; intros s a r; cbn.
  - intros [= <- <-]. auto.
  - destruct s as [|c s']; [discriminate|].
    destruct (Ascii.eqb_spec k (upper_char c)) as [->|]; [|discriminate].
    destruct (take_ci kw s') as [[a' r']|] eqn:E; [|discriminate].
    intros [= <- <-]. apply IH in E as [-> <-]. auto.
Qed.

Lemma span_app (p : ascii -> bool) (s : text) :
  fst (span p s) ++ snd (span p s) = s.
Proof.
  induction s as [|c s IH]; cbn; auto.
  destruct (p c); cbn; auto.
  destruct (span p s) as [a b]. cbn in *. now f_equal.
Qed.

Lemma span_eq (p : ascii -> bool) (s a b : text) :
  span p s = (a, b) -> s = a ++ b.
Proof. intros E. rewrite <- (span_app p s), E. reflexivity. Qed.

Lemma upper_length (s : text) : List.length (upper s) = List.length s.
Proof. apply length_map. Qed.

Lemma m_replace_consuming (old new : text) : consuming (m_replace old new).
Proof.
  intros s rep rest. unfold m_replace.
  destruct old as [|o old]; [discriminate|].
  destruct (take_lit (o :: old) s) as [r|] eqn:E; [|discriminate].
  intros [= <- <-]. apply take_lit_app in E. subst s.
  rewrite length_app. cbn. lia.
Qed.

Lemma m_spaces_consuming : consuming m_spaces.
Proof.
  intros s rep rest. unfold m_spaces.
  destruct (span is_space s) as [[|c a] b] eqn:E; [discriminate|].
  intros [= <- <-]. apply span_eq in E. subst s. cbn.
  rewrite length_app. lia.
Qed.

Lemma m_select_consuming : consuming m_select.
Proof.
  intros s rep rest. unfold m_select.
  destruct (take_ci (lit "SELECT") s) as [[kw [|c r]]|] eqn:E;
    try discriminate.
  destruct (_ || _); [|discriminate].
  intros [= <- <-]. apply take_ci_app in E as [-> _].
  rewrite length_app. cbn. lia.
Qed.

Lemma m_where_consuming : consuming m_where.
Proof.
  intros s rep rest. unfold m_where.
  destruct (take_ci (lit "WHERE") s) as [[kw [|c r]]|] eqn:E;
    try discriminate.
  destruct (Ascii.eqb _ _); [|discriminate].
  intros [= <- <-]. apply take_ci_app in E as [-> _].
  rewrite length_app. cbn. lia.
Qed.

Lemma m_glue_consuming : consuming m_glue.
Proof.
  intros s rep rest. unfold m_glue.
  destruct (take_lit (lit "progettoMuseo:") s) as [r|] eqn:E;
    [|discriminate].
  destruct (span is_word r) as [[|c1 w1] [|q r1]] eqn:E1; try discriminate.
  destruct (Ascii.eqb q _); [|discriminate].
  destruct (span is_word r1) as [[|c2 w2] r2] eqn:E2; try discriminate.
  intros [= <- <-]. apply take_lit_app in E. apply span_eq in E1, E2.
  subst. repeat (rewrite length_app; cbn [List.length]). lia.
Qed.

Lemma m_dot_consuming : consuming m_dot.
Proof.
  intros s rep rest. unfold m_dot.
  destruct s as [|q r]; [discriminate|].
  destruct (Ascii.eqb q _); [|discriminate].
  destruct (span is_word r) as [[|c w] r1] eqn:E1; try discriminate.
  destruct (span is_space r1) as [sp [|b r2]] eqn:E2; cbn [snd];
    try discriminate.
  destruct (Ascii.eqb b _); [|discriminate].
  intros [= <- <-]. apply span_eq in E1, E2. subst.
  cbn [List.length]. repeat (rewrite length_app; cbn [List.length]). lia.
Qed.

Lemma m_add_where_consuming : consuming m_add_where.
Proof.
  intros s rep rest. unfold m_add_where.
  destruct (take_ci (lit "SELECT") s) as [[kw r]|] eqn:E; [|discriminate].
  destruct (span _ r) as [[|w [|w' body]] [|b r2]] eqn:E1; try discriminate.
  destruct (is_space w); [|discriminate].
  intros [= <- <-]. apply take_ci_app in E as [-> _]. apply span_eq in E1.
  subst. repeat (rewrite length_app; cbn [List.length]). lia.
Qed.

Create HintDb scan.

#[local] Hint Resolve m_replace_consuming m_spaces_consuming
  m_select_consuming m_where_consuming m_glue_consuming m_dot_consuming
  m_add_where_consuming : scan.

(** Replacing one character by nothing is a filter, by one character a
    map. *)
Lemma replace_char_nil (c : ascii) (s : text) :
  replace [c] [] s = filter (fun x => negb (Ascii.eqb c x)) s.
Proof.
  unfold replace. induction s as [|x s IH].
  - reflexivity.
  - rewrite re_sub_eq by auto with scan. cbn.
    destruct (Ascii.eqb c x); cbn; rewrite IH; reflexivity.
Qed.

Lemma replace_char_char (c d : ascii) (s : text) :
  replace [c] [d] s = map (fun x => if Ascii.eqb c x then d else x) s.
Proof.
  unfold replace. induction s as [|x s IH].
  - reflexivity.
  - rewrite re_sub_eq by auto with scan. cbn.
    destruct (Ascii.eqb c x); cbn; rewrite IH; reflexivity.
Qed.

Lemma strip_quotes_clean (s : text) : ~ In DQUOTE (strip_quotes s).
Proof.
  unfold strip_quotes. rewrite replace_char_nil. intros H.
  apply filter_In in H as [_ H]. now rewrite Ascii.eqb_refl in H.
Qed.

(** ** Runs of the endpoints *)

Section Runs.

Context {World : Type} (sv : Services World).

Lemma perform_run {A : Type} (f : World -> World * A) (record : A -> Call)
    (st : State World) :
  exists w r, f (world st) = (w, r) /\
    perform f record st =
    ({| world := w; calls := calls st ++ [record r] |}, inr r).
Proof.
  unfold perform. destruct (f (world st)) as [w r]. eauto.
Qed.

(** [classify_and_translate] always returns: the answer itself when the
    two labels agree or the translation raises, the translation
    otherwise. *)
Lemma classify_and_translate_run (question answer : text)
    (st : State World) :
  exists w ql al,
    let question_lang := match ql with Some l => l | None => lit "en" end in
    let answer_lang := match al with Some l => l | None => lit "it" end in
    let detect := [CallClassify question ql; CallClassify answer al] in
    (question_lang = answer_lang /\
     classify_and_translate sv question answer st =
     ({| world := w; calls := calls st ++ detect |}, inr answer))
    \/
    (question_lang <> answer_lang /\
     exists tr,
       classify_and_translate sv question answer st =
       ({| world := w;
           calls := calls st ++ detect ++
             [CallTranslate (TRANSLATOR_MODEL_PREFIX ++ lit "-" ++ answer_lang
                             ++ lit "-" ++ question_lang) answer tr] |},
        inr (match tr with Some t => t | None => answer end))).
Proof.
  unfold classify_and_translate, classify, translate, bind.
  destruct (perform_run (fun w => text_classification sv w question)
              (CallClassify question) st) as (w1 & ql & _ & ->).
  match goal with |- context [perform ?f ?r ?s] =>
    destruct (perform_run f r s) as (w2 & al & _ & ->) end.
  cbn [calls world].
  destruct (text_eqb _ _) eqn:E.
  - exists w2, ql, al. left. apply text_eqb_eq in E. split; auto.
    unfold ret. now rewrite <- app_assoc.
  - apply text_eqb_neq in E.
    match goal with |- context [perform ?f ?r ?s] =>
      destruct (perform_run f r s) as (w3 & tr & _ & ->) end.
    exists w3, ql, al. right. split; auto. exists tr.
    unfold ret. cbn [calls world]. now rewrite <- !app_assoc.
Qed.

End Runs.

Section EndpointRuns.

Context {World : Type} (sv : Services World).

Ltac step_call :=
  match goal with |- context [perform ?f ?r ?s] =>
    let w := fresh "w" in let x := fresh "x" in
    destruct (perform_run f r s) as (w & x & _ & ->)
  end.

Lemma generate_query_run (msg : text) (st : State World) :
  exists w ser gen,
    let sysp := create_system_prompt_for_sparql sv
                  (match ser with Some t => t | None => [] end) in
    let pq := match gen with Some c => strip c | None => NO_SPARQL end in
    let fixed := correct_sparql_syntax_advanced pq in
    let pre := [CallSerialize ser;
                CallCompletion sysp msg 512%Z (2 # 10)%Q gen] in
    (startswith (upper pq) NO_SPARQL = true /\
     generate_query sv msg st =
     ({| world := w; calls := calls st ++ pre |}, inr None))
    \/
    (startswith (upper pq) NO_SPARQL = false /\
     generate_query sv msg st =
     ({| world := w;
         calls := calls st ++ pre ++
                  [CallRepair pq; CallParseQuery fixed (parseQuery sv fixed)] |},
      inr (if parseQuery sv fixed then Some fixed else None))).
Proof.
  unfold generate_query, serialize_ontology, complete, repair_query,
    is_sparql_query_valid, bind.
  step_call. step_call. cbn [calls world].
  destruct (startswith _ _) eqn:E.
  - exists w0, x, x0. left. split; auto. unfold ret.
    now rewrite <- app_assoc.
  - exists w0, x, x0. right. split; auto.
    unfold note, ret, perform. cbn [calls world].
    now rewrite <- !app_assoc.
Qed.

Lemma execute_query_run (gq : option text) (st : State World) :
  exists w work results,
    execute_query sv gq st =
    ({| world := w; calls := calls st ++ work |}, inr results) /\
    filter is_completion work = [] /\
    (truthy gq = false -> work = [] /\ results = []).
Proof.
  unfold execute_query, run_query, bind.
  destruct (truthy gq).
  - step_call. eexists w, [_], _. unfold ret. cbn [calls world].
    repeat split; try reflexivity; discriminate.
  - exists (world st), [], []. unfold ret. rewrite app_nil_r.
    destruct st; auto.
Qed.

(** Every run of [assistant_endpoint]: the two fixed calls of step 1, the
    work on the query, the answer call, then language normalization. *)
Lemma assistant_endpoint_run (req : AssistantRequest) (w : World) :
  exists ser gen work gq results fin tail out,
    let sysp := create_system_prompt_for_sparql sv
                  (match ser with Some t => t | None => [] end) in
    let pq := match gen with Some c => strip c | None => NO_SPARQL end in
    let pp := point_and_prompt (message req) gq results in
    serve (assistant_endpoint sv req) w =
    ([CallSerialize ser;
      CallCompletion sysp (message req) 512%Z (2 # 10)%Q gen] ++ work ++
     CallCompletion (snd pp) FINAL_USER 512%Z (5 # 10)%Q fin :: tail, out) /\
    filter is_completion work = [] /\
    filter is_completion tail = [] /\
    filter is_query_work tail = [] /\
    (startswith (upper pq) NO_SPARQL = true ->
     gq = None /\ filter is_query_work work = []) /\
    (truthy gq = false -> results = []) /\
    match fin with
    | None => out = inl ANSWER_ERROR /\ tail = []
    | Some content =>
        exists normalized,
          out = inr {| query := gq; response := strip_quotes normalized;
                       point := fst pp |} /\
          (normalized = strip content \/
           exists model,
             In (CallTranslate model (strip content) (Some normalized)) tail)
    end.
Proof.
  unfold serve, assistant_endpoint, bind.
  set (st0 := {| world := w; calls := [] |}).
  destruct (generate_query_run (message req) st0)
    as (w1 & ser & gen & [[Hs ->] | [Hs ->]]);
    cbn [calls st0 app].
  - match goal with |- context [execute_query sv None ?s] =>
      destruct (execute_query_run None s)
        as (w2 & work & results & -> & Hw & Hr) end.
    destruct (Hr eq_refl) as [-> ->].
    destruct (point_and_prompt (message req) None []) as [pt prompt] eqn:Epp.
    unfold complete. step_call. cbn [calls world app].
    destruct x as [content|].
    + match goal with |- context [classify_and_translate sv ?q ?a ?s] =>
        destruct (classify_and_translate_run sv q a s)
          as (w3 & ql & al & [[_ ->] | [_ [[t|] ->]]]) end;
      cbn [calls world app];
      (exists ser, gen, [], None, []; do 3 eexists;
       rewrite Epp; cbn [fst snd]; split; [reflexivity|];
       repeat split; try reflexivity; eauto 8 with datatypes).
    + exists ser, gen, [], None, [], None, [], (inl ANSWER_ERROR).
      rewrite Epp. cbn [fst snd]. repeat split; auto.
  - set (pq := match gen with Some c => strip c | None => NO_SPARQL end) in *.
    set (gq := if parseQuery sv _ then _ else _).
    match goal with |- context [execute_query sv gq ?s] =>
      destruct (execute_query_run gq s)
        as (w2 & work & results & -> & Hw & Hr) end.
    destruct (point_and_prompt (message req) gq results)
      as [pt prompt] eqn:Epp.
    unfold complete. step_call. cbn [calls world app].
    destruct x as [content|].
    + match goal with |- context [classify_and_translate sv ?q ?a ?s] =>
        destruct (classify_and_translate_run sv q a s)
          as (w3 & ql & al & [[_ ->] | [_ [[t|] ->]]]) end;
      cbn [calls world app];
      (exists ser, gen; eexists (_ :: _ :: work), gq, results;
       do 3 eexists; rewrite Epp; cbn [fst snd]; split;
       [rewrite <- ?app_assoc; reflexivity|];
       repeat split; try reflexivity; eauto 8 with datatypes;
       try (intros; unfold pq in *; congruence);
       try (intros H; apply Hr in H; tauto)).
    + exists ser, gen; eexists (_ :: _ :: work), gq, results.
      exists None, [], (inl ANSWER_ERROR).
      rewrite Epp. cbn [fst snd]. split; [rewrite <- ?app_assoc; reflexivity|].
      repeat split; auto; try (intros; unfold pq in *; congruence).
      intros H; apply Hr in H; tauto.
Qed.

End EndpointRuns.

(** ** Claims about the assistant endpoint *)

Lemma startswith_app (s p : text) :
  startswith s p = true <-> exists rest, s = p ++ rest.
Proof.
  revert s. induction p as [|c p IH]; intros s; cbn.
  - split; eauto.
  - destruct s as [|d s]; [split; [discriminate|intros [r [=]]]|].
    rewrite andb_true_iff, IH. split.
    + intros [Hc [r ->]]. apply Ascii.eqb_eq in Hc. subst. eauto.
    + intros [r [= -> ->]]. rewrite Ascii.eqb_refl. eauto.
Qed.

(** A case-insensitive prefix match, as [s.upper().startswith(kw)] does
    it. *)
Lemma startswith_upper (s kw : text) :
  startswith (upper s) kw = true <->
  exists p rest, s = p ++ rest /\ upper p = kw.
Proof.
  rewrite startswith_app. unfold upper. split.
  - intros [r H]. apply map_eq_app in H as (p & rest & -> & <- & _). eauto.
  - intros (p & rest & -> & <-). rewrite map_app. eauto.
Qed.

Lemma point_without_query (msg : text) (results : list Row) :
  fst (point_and_prompt msg None results) = [].
Proof. reflexivity. Qed.

Section EndpointClaims.

Context {World : Type} (sv : Services World).

Ltac use_run req w H :=
  let Hrun := fresh "Hrun" in
  destruct (assistant_endpoint_run sv req w)
    as (ser & gen & work & gq & results & fin & tail & out' & Hrun
        & Hwork & Htail & Htailq & Hsent & Hres & Hfin);
  cbv zeta in Hrun; rewrite Hrun in H; injection H as Hcs Hout; subst.

Lemma completions_of_run (a b c : Call) (work tail : list Call) :
  is_completion b = true -> is_completion c = true ->
  is_completion a = false ->
  filter is_completion work = [] -> filter is_completion tail = [] ->
  completions (a :: b :: work ++ c :: tail) = [b; c].
Proof.
  intros Hb Hc Ha Hw Ht. unfold completions.
  cbn [filter]. rewrite Ha, Hb.
  rewrite filter_app, Hw. cbn [filter app]. now rewrite Hc, Ht.
Qed.

(** C3: a response whose query field is absent has the empty point. *)
Theorem no_query_no_point (req : AssistantRequest) (w : World)
    (cs : list Call) (r : Response) :
  serve (assistant_endpoint sv req) w = (cs, inr r) ->
  query r = None -> point r = [].
Proof.
  intros H Hq. use_run req w H.
  destruct fin as [content|].
  - destruct Hfin as (normalized & [= ->] & _). cbn in *. subst gq.
    reflexivity.
  - destruct Hfin as [[=] _].
Qed.

(** C4: when the second generation call raises, the endpoint raises the
    service error and gives no response. *)
Theorem answer_failure_is_terminal (req : AssistantRequest) (w : World)
    (cs : list Call) (out : HTTPException + Response)
    (system user : text) (max_tok : Z) (temp : Q) :
  serve (assistant_endpoint sv req) w = (cs, out) ->
  nth_error (completions cs) 1
  = Some (CallCompletion system user max_tok temp None) ->
  out = inl ANSWER_ERROR /\ forall r, out <> inr r.
Proof.
  intros H Hsecond. use_run req w H.
  rewrite completions_of_run in Hsecond by auto.
  injection Hsecond as _ _ _ _ ->. destruct Hfin as [-> _].
  split; [reflexivity|discriminate].
Qed.

(** C5: when the first generation call answers with text whose stripped
    form starts with the marker in any letter case, the run neither
    repairs, validates nor queries, and a response has no query and the
    empty point. *)
Theorem sentinel_means_no_query (req : AssistantRequest) (w : World)
    (cs : list Call) (out : HTTPException + Response)
    (system user : text) (max_tok : Z) (temp : Q)
    (content head rest : text) :
  serve (assistant_endpoint sv req) w = (cs, out) ->
  nth_error (completions cs) 0
  = Some (CallCompletion system user max_tok temp (Some content)) ->
  strip content = head ++ rest -> upper head = NO_SPARQL ->
  filter is_query_work cs = [] /\
  forall r, out = inr r -> query r = None /\ point r = [].
Proof.
  intros H Hfirst Hstrip Hhead. use_run req w H.
  rewrite completions_of_run in Hfirst by auto.
  injection Hfirst as _ _ _ _ ->.
  destruct Hsent as [-> Hq].
  { apply startswith_upper. eauto. }
  split.
  - cbn [filter is_query_work]. rewrite filter_app.
    cbn [filter is_query_work]. now rewrite Hq, Htailq.
  - intros r ->. destruct fin as [c|].
    + destruct Hfin as (normalized & [= ->] & _). split; reflexivity.
    + destruct Hfin as [[=] _].
Qed.

(** C9: the answer text of a response has no double-quote character.  It
    is the normalized answer (the stripped output of the answer call, or
    its translation) with every backslash-quote pair and then every quote
    taken out. *)
Theorem final_answer_has_no_quote (req : AssistantRequest) (w : World)
    (cs : list Call) (r : Response) :
  serve (assistant_endpoint sv req) w = (cs, inr r) ->
  ~ In DQUOTE (response r) /\
  exists prompt content normalized,
    nth_error (completions cs) 1
    = Some (CallCompletion prompt FINAL_USER 512%Z (5 # 10)%Q
              (Some content)) /\
    (normalized = strip content \/
     exists model,
       In (CallTranslate model (strip content) (Some normalized)) cs) /\
    response r =
    replace [DQUOTE] [] (replace [BACKSLASH; DQUOTE] [] normalized).
Proof.
  intros H. use_run req w H.
  destruct fin as [content|].
  - destruct Hfin as (normalized & [= ->] & Hn). cbn [response]. split.
    + apply strip_quotes_clean.
    + exists (snd (point_and_prompt (message req) gq results)), content,
        normalized.
      split; [|split; [|reflexivity]].
      * now rewrite completions_of_run.
      * destruct Hn as [Hn | (model & Hn)]; [now left|right].
        exists model. right. right. apply in_or_app. right. now right.
  - destruct Hfin as [[=] _].
Qed.

(** C8: [classify_and_translate] always returns a text, and when its
    translation call raises that text is the answer it was given. *)
Theorem translation_failure_falls_back (question answer : text) (w : World)
    (cs : list Call) (out : HTTPException + text) (model t : text) :
  serve (classify_and_translate sv question answer) w = (cs, out) ->
  (exists result, out = inr result) /\
  (In (CallTranslate model t None) cs -> out = inr answer).
Proof.
  unfold serve.
  destruct (classify_and_translate_run sv question answer
              {| world := w; calls := [] |})
    as (w' & ql & al & [[_ ->] | [_ [tr ->]]]); cbn [calls app];
    intros [= <- <-]; split; eauto.
  intros [[=] | [[=] | [[= _ _ ->] | []]]]. reflexivity.
Qed.

End EndpointClaims.

Lemma no_query_no_point_witness :
  exists cs r,
    serve (assistant_endpoint sentinel_services weather_request) (0, 0)
    = (cs, inr r) /\ query r = None /\ point r = [].
Proof.
  do 2 eexists. split; [vm_compute; reflexivity|].
  split; [reflexivity|].
  eapply (no_query_no_point sentinel_services weather_request (0, 0));
    vm_compute; reflexivity.
Defined.

Lemma answer_failure_is_terminal_witness :
  exists cs,
    serve (assistant_endpoint silent_services weather_request) (0, 0)
    = (cs, inl ANSWER_ERROR).
Proof.
  destruct (serve (assistant_endpoint silent_services weather_request) (0, 0))
    as [cs out] eqn:E.
  exists cs. f_equal.
  eapply (answer_failure_is_terminal silent_services weather_request (0, 0)
            E).
  vm_compute in E. injection E as <- _. vm_compute. reflexivity.
Defined.

Lemma sentinel_means_no_query_witness :
  exists cs r,
    serve (assistant_endpoint padded_sentinel_services weather_request) (0, 0)
    = (cs, inr r) /\
    filter is_query_work cs = [] /\ query r = None /\ point r = [].
Proof.
  do 2 eexists. split; [vm_compute; reflexivity|].
  assert (H := sentinel_means_no_query padded_sentinel_services
                 weather_request (0, 0)).
  specialize (H _ _ [] (message weather_request) 512%Z (2 # 10)%Q
                (NBSP :: lit "no_sparql" ++ [NBSP]) (lit "no_sparql") []
                eq_refl).
  destruct H as [Hq Hr]; try (vm_compute; reflexivity).
  split; [exact Hq|]. apply Hr. reflexivity.
Defined.

Lemma final_answer_has_no_quote_witness :
  exists cs r,
    serve (assistant_endpoint sentinel_services weather_request) (0, 0)
    = (cs, inr r) /\
    response r = lit "Non conosco il meteo di oggi." /\
    ~ In DQUOTE (response r).
Proof.
  do 2 eexists. split; [vm_compute; reflexivity|].
  split; [vm_compute; reflexivity|].
  eapply (final_answer_has_no_quote sentinel_services weather_request (0, 0)).
  vm_compute; reflexivity.
Defined.

Lemma translation_failure_falls_back_witness :
  exists cs,
    serve (classify_and_translate untranslated_services
             (lit "Where is it?") (lit "Non lo so.")) (0, 0)
    = (cs, inr (lit "Non lo so.")).
Proof.
  destruct (serve (classify_and_translate untranslated_services
                     (lit "Where is it?") (lit "Non lo so.")) (0, 0))
    as [cs out] eqn:E.
  exists cs. f_equal.
  eapply (translation_failure_falls_back untranslated_services _ _ (0, 0)
            (lit "Helsinki-NLP/opus-mt-it-en") (lit "Non lo so.") E).
  vm_compute in E. injection E as <- _. vm_compute. auto.
Defined.

Section AnswerBudget.

Context {World : Type} (sv : Services World).

(** In every run the answer call is made with 512 tokens and temperature
    0.5, whatever the request asks for. *)
Lemma answer_call_budget (req : AssistantRequest) (w : World)
    (cs : list Call) (out : HTTPException + Response) (c : Call) :
  serve (assistant_endpoint sv req) w = (cs, out) ->
  nth_error (completions cs) 1 = Some c ->
  exists prompt result,
    c = CallCompletion prompt FINAL_USER 512%Z (5 # 10)%Q result.
Proof.
  intros H Hc.
  destruct (assistant_endpoint_run sv req w)
    as (ser & gen & work & gq & results & fin & tail & out' & Hrun
        & Hwork & Htail & _).
  cbv zeta in Hrun. rewrite Hrun in H. injection H as <- _.
  change ([?a; ?b] ++ ?l) with (a :: b :: l) in Hc.
  rewrite completions_of_run in Hc by auto.
  injection Hc as <-. eauto.
Qed.

End AnswerBudget.

(** C2 does not hold of the code: a request with [max_tokens = 100] and
    [temperature = 0.9] has its answer generated with 512 tokens and
    temperature 0.5. *)
Theorem answer_call_ignores_request :
  max_tokens weather_request = 100%Z /\
  temperature weather_request = (9 # 10)%Q /\
  exists prompt result,
    nth_error
      (completions
         (fst (serve (assistant_endpoint sentinel_services weather_request)
                     (0, 0)))) 1
    = Some (CallCompletion prompt FINAL_USER 512%Z (5 # 10)%Q result) /\
    512%Z <> max_tokens weather_request /\
    ~ ((5 # 10) == temperature weather_request)%Q.
Proof.
  split; [reflexivity|]. split; [reflexivity|].
  do 2 eexists. split; [vm_compute; reflexivity|].
  split; [discriminate|]. intros H. vm_compute in H. discriminate.
Qed.

(** ** The rooms endpoint *)

Lemma contains_char (s : text) (c : ascii) :
  contains s [c] = true <-> In c s.
Proof.
  induction s as [|d s IH]; cbn.
  - split; [discriminate|tauto].
  - rewrite orb_true_iff, IH, andb_true_r, Ascii.eqb_eq.
    intuition congruence.
Qed.

Lemma split_on_clean (sep : ascii) (s : text) :
  ~ In sep s -> split_on sep s = [s].
Proof.
  induction s as [|c s IH]; intros H; cbn; auto.
  destruct (Ascii.eqb_spec c sep) as [->|_].
  - exfalso. apply H. now left.
  - rewrite IH; auto. intros Hs. apply H. now right.
Qed.

Lemma split_on_last (sep : ascii) (pre frag : text) :
  ~ In sep frag ->
  exists first pieces,
    split_on sep (pre ++ sep :: frag) = first :: pieces ++ [frag].
Proof.
  intros Hf. induction pre as [|c pre (first & pieces & IH)]; cbn.
  - rewrite Ascii.eqb_refl, split_on_clean by auto. now exists [], [].
  - rewrite IH. destruct (Ascii.eqb c sep).
    + now exists [], (first :: pieces).
    + now exists (c :: first), pieces.
Qed.

(** [local_name]: the identifier itself when it has no [#]; otherwise what
    follows its last [#], stripped. *)
Lemma local_name_spec (uri : text) :
  (~ In HASH uri -> local_name uri = uri) /\
  (forall pre frag, uri = pre ++ HASH :: frag -> ~ In HASH frag ->
                    local_name uri = strip frag).
Proof.
  unfold local_name. split.
  - intros H. destruct (contains uri [HASH]) eqn:E; auto.
    apply contains_char in E. contradiction.
  - intros pre frag -> Hf.
    destruct (contains _ _) eqn:E.
    + destruct (@split_on_last HASH pre frag Hf) as (first & pieces & ->).
      change (first :: pieces ++ [frag]) with ((first :: pieces) ++ [frag]).
      now rewrite last_last.
    + assert (In HASH (pre ++ HASH :: frag)) as H
        by (apply in_or_app; right; now left).
      apply contains_char in H. congruence.
Qed.

Lemma dict_append_keeps (k : text) (e : Entry) (d : Dict)
    (k0 : text) (es0 : list Entry) (e0 : Entry) :
  In (k0, es0) d -> In e0 es0 ->
  exists es, In (k0, es) (dict_append k e d) /\ In e0 es.
Proof.
  induction d as [|[k' es'] d IH]; intros Hd He; [destruct Hd|].
  cbn. destruct (text_eqb k k') eqn:E.
  - destruct Hd as [[= <- <-]|Hd].
    + exists (es' ++ [e]). split; [now left|]. apply in_or_app. now left.
    + exists es0. split; [now right|auto].
  - destruct Hd as [[= <- <-]|Hd].
    + exists es'. split; [now left|auto].
    + destruct (IH Hd He) as (es & H1 & H2). exists es.
      split; [now right|auto].
Qed.

Lemma dict_append_adds (k : text) (e : Entry) (d : Dict) :
  exists es, In (k, es) (dict_append k e d) /\ In e es.
Proof.
  induction d as [|[k' es'] d (es & H1 & H2)]; cbn.
  - exists [e]. split; now left.
  - destruct (text_eqb k k') eqn:E.
    + apply text_eqb_eq in E. subst k'. exists (es' ++ [e]).
      split; [now left|]. apply in_or_app. right. now left.
    + exists es. split; [now right|auto].
Qed.

Lemma group_rows_keeps (rows : list Row) (d : Dict)
    (k0 : text) (es0 : list Entry) (e0 : Entry) :
  In (k0, es0) d -> In e0 es0 ->
  exists es,
    In (k0, es)
       (fold_left
          (fun d row => dict_append (stanza_local row) (opera_dict row) d)
          rows d) /\ In e0 es.
Proof.
  revert d es0. induction rows as [|row rows IH]; intros d es0 Hd He; cbn.
  - eauto.
  - destruct (@dict_append_keeps (stanza_local row) (opera_dict row) _ _ _ _
                Hd He) as (es & H1 & H2).
    eapply IH; eauto.
Qed.

Lemma group_rows_has (rows : list Row) (row : Row) (d : Dict) :
  In row rows ->
  exists es,
    In (stanza_local row, es)
       (fold_left
          (fun d row => dict_append (stanza_local row) (opera_dict row) d)
          rows d) /\ In (opera_dict row) es.
Proof.
  revert d. induction rows as [|r rows IH]; intros d Hin; [destruct Hin|].
  destruct Hin as [->|H]; cbn.
  - destruct (dict_append_adds (stanza_local row) (opera_dict row) d)
      as (es & H1 & H2).
    eapply group_rows_keeps; eauto.
  - now apply IH.
Qed.

(** C10 fails as stated: the fragment after the last [#] of the work
    identifier below starts with a space, which the entry's [nome] has
    lost. *)
Lemma nome_is_stripped_fragment :
  let row : Row :=
    [(lit "stanza", Some (lit "http://museo#stanzaItalia"));
     (lit "opera", Some (lit "http://museo# David"));
     (lit "p", Some (lit "(0.586, 0, -0.1)"))] in
  py_str (get row (lit "opera")) = lit "http://museo" ++ HASH :: lit " David"
  /\ ~ In HASH (lit " David")
  /\ nome (opera_dict row) = lit "David"
  /\ nome (opera_dict row) <> lit " David".
Proof.
  cbv zeta. repeat split; try (vm_compute; reflexivity).
  - vm_compute. intros H; repeat (destruct H as [H|H]; [discriminate|]).
    exact H.
  - vm_compute. discriminate.
Qed.

(** C10, amended: every row of the result gives one entry, listed under
    the room of the row.  Its [nome] is the work identifier itself when
    that has no [#], and otherwise the fragment after the last [#] without
    its leading and trailing whitespace; its [punto] is the position value,
    or the empty string when the position is unbound. *)
Theorem opera_entry_of_row (rows : list Row) (row : Row) :
  In row rows ->
  let uri := py_str (get row (lit "opera")) in
  let entry := opera_dict row in
  (exists room, In room (stanze_list rows) /\
                roomName room = stanza_local row /\
                In entry (entries room)) /\
  (~ In HASH uri -> nome entry = uri) /\
  (forall pre frag, uri = pre ++ HASH :: frag -> ~ In HASH frag ->
                    nome entry = strip frag) /\
  (forall v, get row (lit "p") = Some v -> punto entry = v) /\
  (get row (lit "p") = None -> punto entry = []).
Proof.
  intros Hin uri entry. split; [|split; [|split; [|split]]].
  - destruct (@group_rows_has rows row [] Hin) as (es & H1 & H2).
    exists {| roomName := stanza_local row; entries := es |}.
    repeat split; auto. unfold stanze_list.
    apply in_map_iff. exists (stanza_local row, es). auto.
  - apply local_name_spec.
  - apply local_name_spec.
  - intros v Hv. unfold entry, opera_dict. cbn [punto]. now rewrite Hv.
  - intros Hv. unfold entry, opera_dict. cbn [punto]. now rewrite Hv.
Qed.

Lemma opera_entry_of_row_witness :
  let row : Row :=
    [(lit "stanza", Some (lit "http://museo#stanzaGrecia"));
     (lit "opera", Some (lit "http://museo#Discobolo"));
     (lit "p", None)] in
  nome (opera_dict row) = lit "Discobolo" /\ punto (opera_dict row) = [].
Proof.
  intros row.
  destruct (@opera_entry_of_row [row] row (or_introl eq_refl))
    as (_ & _ & Hn & _ & Hp).
  split.
  - rewrite (Hn (lit "http://museo") (lit "Discobolo") eq_refl).
    + reflexivity.
    + vm_compute. intros H; repeat (destruct H as [H|H]; [discriminate|]).
      exact H.
  - apply Hp. reflexivity.
Defined.

(** ** Edits *)

Lemma is_space_SPACE : is_space SPACE = true.
Proof. reflexivity. Qed.

Lemma all_space_cons (c : ascii) (w : text) :
  all_space (c :: w) = is_space c && all_space w.
Proof. reflexivity. Qed.

Lemma all_space_app (a b : text) :
  all_space (a ++ b) = all_space a && all_space b.
Proof. apply forallb_app. Qed.

Lemma gap_starts_blank (w u : text) (c : ascii) :
  gap w u c -> exists u', u = SPACE :: u'.
Proof. intros []; eauto. Qed.

(** A character of the output that is not whitespace was copied. *)
Lemma edit_peel (s r' : text) (k : ascii) :
  edit s (k :: r') -> is_space k = false ->
  exists r, s = k :: r /\ edit r r'.
Proof.
  intros H Hk. inversion H as
    [ | c s0 s0' H0 | c s0 s0' Hc H0 | w u c s0 s0' Hw Hc Hg H0 E1 E2
      | w Hw Hs ]; subst.
  - eauto.
  - rewrite is_space_SPACE in Hk. discriminate.
  - destruct (gap_starts_blank Hg) as [u' ->]. cbn in E2.
    injection E2 as <- _. rewrite is_space_SPACE in Hk. discriminate.
  - rewrite is_space_SPACE in Hk. discriminate.
Qed.

Lemma edit_peel_word (k : text) :
  no_space k = true ->
  forall s r', edit s (k ++ r') -> exists r, s = k ++ r /\ edit r r'.
Proof.
  induction k as [|c k IH]; intros Hk s r' H; cbn in *.
  - eauto.
  - apply andb_true_iff in Hk as [Hc Hk]. apply negb_true_iff in Hc.
    destruct (edit_peel H Hc) as (r0 & -> & H0).
    destruct (IH Hk _ _ H0) as (r & -> & Hr). eauto.
Qed.

Lemma all_space_head (w : text) (c : ascii) (a b : text) :
  all_space w = true -> is_space c = false ->
  c :: a = w ++ b -> w = [] /\ b = c :: a.
Proof.
  intros Hw Hc E. destruct w as [|x w]; cbn in *; auto.
  injection E as <- _. apply andb_true_iff in Hw as [Hx _]. congruence.
Qed.

(** Whitespace of the output in front of a character that no step puts
    a gap before stems from whitespace of the input. *)
Lemma edit_walk (c0 : ascii) (r' : text) :
  is_space c0 = false ->
  c0 <> QMARK -> c0 <> STAR -> c0 <> LBRACE -> c0 <> DOT ->
  c0 <> "W"%char ->
  forall ws' s,
    all_space ws' = true -> edit s (ws' ++ c0 :: r') ->
    exists ws r, s = ws ++ c0 :: r /\ all_space ws = true /\ edit r r' /\
                 (ws' <> [] -> ws <> []).
Proof.
  intros Hc0 Hq Hs Hl Hd HW. induction ws' as [|x ws' IH]; intros s Hws H.
  - destruct (edit_peel H Hc0) as (r & -> & Hr).
    exists [], r. repeat split; auto.
  - cbn in Hws. apply andb_true_iff in Hws as [Hx Hws]. cbn in H.
    inversion H as
      [ | c s0 s0' H0 | c s0 s0' Hc H0 | w u c s0 s0' Hw Hc Hg H0 E1 E2
        | w Hw Hsp ]; subst.
    + destruct (IH _ Hws H0) as (ws & r & -> & Hw & Hr & _).
      exists (x :: ws), r. repeat split; auto.
      * now rewrite all_space_cons, Hx, Hw.
      * discriminate.
    + destruct (IH _ Hws H0) as (ws & r & -> & Hw & Hr & _).
      exists (c :: ws), r. repeat split; auto.
      * now rewrite all_space_cons, Hc, Hw.
      * discriminate.
    + destruct Hg as [w c Hne | c Hsp | w | ]; cbn in E2.
      * injection E2 as <- E2.
        destruct (all_space_head _ _ Hws Hc E2) as [-> [= -> ->]].
        exists w, s0. repeat split; auto.
      * injection E2 as <- E2.
        destruct (all_space_head _ _ Hws Hc E2) as [-> [= -> ->]].
        intuition congruence.
      * injection E2 as <- E2. exfalso.
        destruct ws' as [|y ws']; cbn in *.
        -- injection E2 as <- _. now apply Hd.
        -- injection E2 as <- _.
           apply andb_true_iff in Hws as [Hy _]. discriminate.
      * injection E2 as <- E2. exfalso.
        destruct ws' as [|y ws']; cbn in *.
        -- injection E2 as <- _. now apply HW.
        -- injection E2 as <- _.
           apply andb_true_iff in Hws as [Hy _]. discriminate.
    + destruct ws'; discriminate.
Qed.

(** A character of the input that is neither whitespace nor one a step
    puts a gap before is copied. *)
Lemma edit_keep (k : ascii) (s s' : text) :
  edit (k :: s) s' -> is_space k = false ->
  k <> QMARK -> k <> STAR -> k <> LBRACE -> k <> RBRACE ->
  exists r', s' = k :: r' /\ edit s r'.
Proof.
  intros H Hk Hq Hs Hl Hr. inversion H as
    [ | c s0 s0' H0 | c s0 s0' Hc H0 | w u c s0 s0' Hw Hc Hg H0 E1 E2
      | w Hw Hsp ]; subst.
  - eauto.
  - congruence.
  - destruct w as [|x w]; cbn in E1.
    + injection E1 as -> ->.
      inversion Hg; subst; try tauto; intuition congruence.
    + injection E1 as -> _. cbn in Hw.
      apply andb_true_iff in Hw as [Hx _]. congruence.
  - cbn in Hsp. apply andb_true_iff in Hsp as [Hx _]. congruence.
Qed.

Lemma anywhere_here (occ : text -> Prop) (s : text) :
  occ s -> anywhere occ s.
Proof. intros H. now exists [], s. Qed.

Lemma anywhere_later (occ : text -> Prop) (a s : text) :
  anywhere occ s -> anywhere occ (a ++ s).
Proof.
  intros (a0 & b & -> & H). exists (a ++ a0), b. now rewrite app_assoc.
Qed.

Lemma anywhere_cons (occ : text -> Prop) (c : ascii) (s : text) :
  anywhere occ (c :: s) <-> occ (c :: s) \/ anywhere occ s.
Proof.
  split.
  - intros ([|x a] & b & E & H); cbn in E.
    + subst b. now left.
    + injection E as -> ->. right. now exists a, b.
  - intros [H|H]; [now apply anywhere_here|].
    now apply (@anywhere_later _ [c]).
Qed.

Lemma anywhere_nil (occ : text -> Prop) : anywhere occ [] <-> occ [].
Proof.
  split; [|apply anywhere_here].
  intros (a & b & E & H). symmetry in E.
  apply app_eq_nil in E as [_ ->]. exact H.
Qed.

Section Reflection.

Variable occ : text -> Prop.

Hypothesis occ_nil : ~ occ [].
Hypothesis occ_space : forall c t, is_space c = true -> ~ occ (c :: t).

(** Occurrences in the output of an edit come from the input, when the
    pattern reflects at the head and nothing inserted starts one. *)
Lemma edit_reflects :
  (forall s s', edit s s' -> occ s' -> occ s) ->
  (forall w u c a b t, gap w u c -> u = a ++ b -> b <> [] ->
                       ~ occ (b ++ c :: t)) ->
  forall s s', edit s s' -> anywhere occ s' -> anywhere occ s.
Proof.
  intros Hhead Hins s s' H. induction H as
    [ | c s s' H IH | c s s' Hc H IH | w u c s s' Hw Hc Hg H IH | w Hw Hs ];
    intros Hany.
  - exact Hany.
  - apply anywhere_cons in Hany as [Ho|Ho].
    + apply anywhere_here, (Hhead _ (c :: s')); auto using edit_copy.
    + apply (@anywhere_later _ [c]); auto.
  - apply anywhere_cons in Hany as [Ho|Ho].
    + now apply occ_space in Ho.
    + apply (@anywhere_later _ [c]); auto.
  - assert (Hat : occ (c :: s') -> anywhere occ (w ++ c :: s)).
    { intros Ho. apply anywhere_later, anywhere_here.
      apply (Hhead _ (c :: s')); auto using edit_copy. }
    destruct Hany as (a & b & E & Ho).
    apply app_eq_app in E as [l [[-> ->] | [-> E]]].
    + destruct l as [|x l]; [auto|].
      exfalso. apply (Hins _ _ _ _ _ _ Hg eq_refl) in Ho; auto. discriminate.
    + destruct l as [|x l]; cbn in E.
      * subst b. auto.
      * injection E as <- ->. apply anywhere_later.
        apply (@anywhere_later _ [c]), IH. now exists l, b.
  - apply anywhere_cons in Hany as [Ho|Ho].
    + now apply occ_space in Ho.
    + exfalso. apply occ_nil. now apply anywhere_nil.
Qed.

(** Occurrences in the input of an edit survive, when the pattern is kept
    at the head. *)
Lemma edit_preserves :
  (forall s s', edit s s' -> occ s -> occ s') ->
  forall s s', edit s s' -> anywhere occ s -> anywhere occ s'.
Proof.
  intros Hhead s s' H. induction H as
    [ | c s s' H IH | c s s' Hc H IH | w u c s s' Hw Hc Hg H IH | w Hw Hs ];
    intros Hany.
  - exact Hany.
  - apply anywhere_cons in Hany as [Ho|Ho].
    + apply anywhere_here, (Hhead (c :: s)); auto using edit_copy.
    + apply (@anywhere_later _ [c]); auto.
  - apply anywhere_cons in Hany as [Ho|Ho].
    + now apply occ_space in Ho.
    + apply (@anywhere_later _ [SPACE]); auto.
  - assert (Hat : occ (c :: s) -> anywhere occ (u ++ c :: s')).
    { intros Ho. apply anywhere_later, anywhere_here.
      apply (Hhead (c :: s)); auto using edit_copy. }
    destruct Hany as (a & b & E & Ho).
    apply app_eq_app in E as [l [[-> ->] | [-> E]]].
    + destruct l as [|x l]; [auto|]. exfalso.
      rewrite all_space_app, all_space_cons in Hw.
      apply andb_true_iff in Hw as [_ Hw].
      apply andb_true_iff in Hw as [Hx _].
      exact (occ_space Hx Ho).
    + destruct l as [|x l]; cbn in E.
      * subst b. auto.
      * injection E as <- ->. apply anywhere_later.
        apply (@anywhere_later _ [c]), IH. now exists l, b.
  - exfalso. destruct Hany as (a & b & -> & Ho).
    rewrite all_space_app in Hs. apply andb_true_iff in Hs as [_ Hb].
    destruct b as [|x b]; [contradiction|].
    rewrite all_space_cons in Hb. apply andb_true_iff in Hb as [Hx _].
    exact (occ_space Hx Ho).
Qed.

End Reflection.

(** ** Each step is an edit *)

Lemma span_spec (p : ascii -> bool) (s a b : text) :
  span p s = (a, b) ->
  s = a ++ b /\ forallb p a = true /\
  match b with [] => True | c :: _ => p c = false end.
Proof.
  revert a b. induction s as [|c s IH]; intros a b; cbn.
  - intros [= <- <-]. auto.
  - destruct (p c) eqn:E.
    + destruct (span p s) as [a0 b0]. intros [= <- <-].
      destruct (IH _ _ eq_refl) as (-> & Ha & Hb).
      cbn. rewrite E, Ha. auto.
    + intros [= <- <-]. cbn. auto.
Qed.

Lemma span_stop (p : ascii -> bool) (c : ascii) (s : text) :
  p c = false -> span p (c :: s) = ([], c :: s).
Proof. intros H. cbn. now rewrite H. Qed.

Lemma span_run (p : ascii -> bool) (a b : text) :
  forallb p a = true ->
  match b with [] => True | c :: _ => p c = false end ->
  span p (a ++ b) = (a, b).
Proof.
  intros Ha Hb. induction a as [|c a IH]; cbn in *.
  - destruct b as [|c b]; auto. cbn. now rewrite Hb.
  - apply andb_true_iff in Ha as [Hc Ha]. now rewrite Hc, IH.
Qed.

Lemma edit_refl (s : text) : edit s s.
Proof. induction s; auto using edit_nil, edit_copy. Qed.

Lemma edit_copy_app (k s s' : text) : edit s s' -> edit (k ++ s) (k ++ s').
Proof. intros H. induction k; cbn; auto using edit_copy. Qed.

Lemma edit_from_nil (out : text) : edit [] out -> out = [].
Proof.
  intros H. inversion H as
    [ | | | w u c s0 s0' Hw Hc Hg H0 E1 E2 | w Hw Hs ]; subst; auto.
  - destruct w; discriminate.
  - congruence.
Qed.

(** A scan is an edit as soon as each of its replacements is one in front
    of any edited rest. *)
Lemma re_sub_edit (m : matcher) :
  consuming m ->
  (forall s rep rest, m s = Some (rep, rest) ->
     forall out, edit rest out -> edit s (rep ++ out)) ->
  forall s, edit s (re_sub m s).
Proof.
  intros Hm Hrep. apply (scan_ind Hm).
  - rewrite re_sub_eq by auto. destruct (m []) as [[rep rest]|] eqn:E.
    + apply Hm in E. cbn in E. lia.
    + apply edit_nil.
  - intros c s E H. rewrite re_sub_eq, E by auto. now apply edit_copy.
  - intros s rep rest E H. rewrite re_sub_eq, E by auto. eauto.
Qed.

Lemma m_select_inv (s rep rest : text) :
  m_select s = Some (rep, rest) ->
  exists kw c, s = kw ++ c :: rest /\ rep = kw ++ [SPACE; c] /\
               upper kw = lit "SELECT" /\ (c = QMARK \/ c = STAR).
Proof.
  unfold m_select.
  destruct (take_ci (lit "SELECT") s) as [[kw [|c r]]|] eqn:E;
    try discriminate.
  destruct (_ || _) eqn:Ec; [|discriminate].
  intros [= <- <-]. apply take_ci_app in E as [-> Hk].
  exists kw, c. repeat split; auto.
  apply orb_true_iff in Ec as [Ec|Ec]; apply Ascii.eqb_eq in Ec; auto.
Qed.

Lemma m_where_inv (s rep rest : text) :
  m_where s = Some (rep, rest) ->
  exists kw, s = kw ++ LBRACE :: rest /\ rep = kw ++ [SPACE; LBRACE] /\
             upper kw = lit "WHERE".
Proof.
  unfold m_where.
  destruct (take_ci (lit "WHERE") s) as [[kw [|c r]]|] eqn:E;
    try discriminate.
  destruct (Ascii.eqb_spec c (ch "{")) as [->|]; [|discriminate].
  intros [= <- <-]. apply take_ci_app in E as [-> Hk].
  exists kw. repeat split; auto.
Qed.

Lemma m_glue_inv (s rep rest : text) :
  m_glue s = Some (rep, rest) ->
  exists w1 w2,
    s = lit "progettoMuseo:" ++ w1 ++ QMARK :: w2 ++ rest /\
    rep = lit "progettoMuseo:" ++ w1 ++ [SPACE; QMARK] ++ w2 /\
    w1 <> [] /\ w2 <> [] /\
    forallb is_word w1 = true /\ forallb is_word w2 = true /\
    match rest with [] => True | c :: _ => is_word c = false end.
Proof.
  unfold m_glue.
  destruct (take_lit (lit "progettoMuseo:") s) as [r|] eqn:E;
    [|discriminate].
  destruct (span is_word r) as [[|c1 w1] [|q r1]] eqn:E1; try discriminate.
  destruct (Ascii.eqb_spec q (ch "?")) as [->|]; [|discriminate].
  destruct (span is_word r1) as [[|c2 w2] r2] eqn:E2; try discriminate.
  intros [= <- <-]. apply take_lit_app in E.
  apply span_spec in E1 as (-> & H1 & _).
  apply span_spec in E2 as (-> & H2 & H3). subst s.
  exists (c1 :: w1), (c2 :: w2). repeat split; auto; discriminate.
Qed.

Lemma m_dot_inv (s rep rest : text) :
  m_dot s = Some (rep, rest) ->
  exists w sp,
    s = QMARK :: w ++ sp ++ RBRACE :: rest /\
    rep = QMARK :: w ++ [SPACE; DOT; SPACE; RBRACE] /\
    w <> [] /\ forallb is_word w = true /\ all_space sp = true.
Proof.
  unfold m_dot. destruct s as [|q r]; [discriminate|].
  destruct (Ascii.eqb_spec q (ch "?")) as [->|]; [|discriminate].
  destruct (span is_word r) as [[|c w] r1] eqn:E1; try discriminate.
  destruct (span is_space r1) as [sp [|b r2]] eqn:E2; cbn [snd];
    try discriminate.
  destruct (Ascii.eqb_spec b (ch "}")) as [->|]; [|discriminate].
  intros [= <- <-].
  apply span_spec in E1 as (-> & H1 & _).
  apply span_spec in E2 as (-> & H2 & _).
  exists (c :: w), sp. repeat split; auto. discriminate.
Qed.

Lemma m_add_where_inv (s rep rest : text) :
  m_add_where s = Some (rep, rest) ->
  exists kw body,
    s = kw ++ body ++ LBRACE :: rest /\
    rep = kw ++ body ++ SPACE :: lit "WHERE" ++ [SPACE; LBRACE] /\
    upper kw = lit "SELECT".
Proof.
  unfold m_add_where.
  destruct (take_ci (lit "SELECT") s) as [[kw r]|] eqn:E; [|discriminate].
  destruct (span _ r) as [[|w [|w' body]] [|b r2]] eqn:E1; try discriminate.
  destruct (is_space w); [|discriminate].
  intros [= <- <-]. apply take_ci_app in E as [-> Hk].
  apply span_spec in E1 as (-> & _ & Hb). cbn in Hb.
  apply negb_false_iff, Ascii.eqb_eq in Hb. subst b.
  exists kw, (w :: w' :: body). repeat split; auto.
Qed.

Lemma is_space_special (c : ascii) :
  c = QMARK \/ c = STAR \/ c = LBRACE \/ c = RBRACE -> is_space c = false.
Proof. intros [-> | [-> | [-> | ->]]]; reflexivity. Qed.

Lemma edit_select (s : text) : edit s (re_sub m_select s).
Proof.
  apply re_sub_edit; auto with scan.
  intros s0 rep rest E out Hout.
  apply m_select_inv in E as (kw & c & -> & -> & _ & Hc).
  rewrite <- app_assoc. apply edit_copy_app.
  apply (@edit_gap [] [SPACE] c); auto.
  - apply is_space_special. tauto.
  - apply gap_split. tauto.
Qed.

Lemma edit_where (s : text) : edit s (re_sub m_where s).
Proof.
  apply re_sub_edit; auto with scan.
  intros s0 rep rest E out Hout.
  apply m_where_inv in E as (kw & -> & -> & _).
  rewrite <- app_assoc. apply edit_copy_app.
  apply (@edit_gap [] [SPACE] LBRACE); auto.
  apply gap_split. tauto.
Qed.

Lemma edit_glue (s : text) : edit s (re_sub m_glue s).
Proof.
  apply re_sub_edit; auto with scan.
  intros s0 rep rest E out Hout.
  apply m_glue_inv in E as (w1 & w2 & -> & -> & _).
  rewrite <- !app_assoc. do 2 apply edit_copy_app.
  apply (@edit_gap [] [SPACE] QMARK); auto.
  - apply gap_split. tauto.
  - now apply edit_copy_app.
Qed.

Lemma edit_dot (s : text) : edit s (re_sub m_dot s).
Proof.
  apply re_sub_edit; auto with scan.
  intros s0 rep rest E out Hout.
  apply m_dot_inv in E as (w & sp & -> & -> & _ & _ & Hsp).
  cbn. apply edit_copy. rewrite <- app_assoc. apply edit_copy_app.
  apply (@edit_gap sp [SPACE; DOT; SPACE] RBRACE); auto.
  apply gap_dot.
Qed.

Lemma edit_add_where (s : text) : edit s (re_sub m_add_where s).
Proof.
  apply re_sub_edit; auto with scan.
  intros s0 rep rest E out Hout.
  apply m_add_where_inv in E as (kw & body & -> & -> & _).
  rewrite <- !app_assoc. do 2 apply edit_copy_app.
  change ((SPACE :: lit "WHERE" ++ [SPACE; LBRACE]) ++ out)
    with ((SPACE :: lit "WHERE" ++ [SPACE]) ++ LBRACE :: out).
  apply (@edit_gap [] _ LBRACE); auto.
  apply gap_where.
Qed.

Lemma m_spaces_inv (s rep rest : text) :
  m_spaces s = Some (rep, rest) ->
  exists w, s = w ++ rest /\ rep = [SPACE] /\ w <> [] /\
            all_space w = true /\
            match rest with [] => True | c :: _ => is_space c = false end.
Proof.
  unfold m_spaces.
  destruct (span is_space s) as [[|c a] b] eqn:E; [discriminate|].
  intros [= <- <-]. apply span_spec in E as (-> & Ha & Hb).
  exists (c :: a). repeat split; auto. discriminate.
Qed.

Lemma m_spaces_none (c : ascii) (s : text) :
  is_space c = false -> m_spaces (c :: s) = None.
Proof. intros H. unfold m_spaces. now rewrite span_stop. Qed.

Lemma edit_spaces (s : text) : edit s (re_sub m_spaces s).
Proof.
  revert s. apply (scan_ind m_spaces_consuming).
  - rewrite re_sub_nil by reflexivity. apply edit_nil.
  - intros c s0 E H. rewrite re_sub_eq, E by auto with scan.
    now apply edit_copy.
  - intros s0 rep rest E H. rewrite re_sub_eq, E by auto with scan.
    apply m_spaces_inv in E as (w & -> & -> & Hne & Hw & Hrest).
    destruct rest as [|c r].
    + apply edit_from_nil in H. rewrite H, app_nil_r. now apply edit_end.
    + rewrite re_sub_eq, m_spaces_none in * by auto with scan.
      destruct (edit_peel H Hrest) as (r0 & [= <-] & Hr).
      apply (@edit_gap w [SPACE] c); auto. now apply gap_squeeze.
Qed.

Lemma unwrap_lines_map (s : text) : unwrap_lines s = map unwrap_char s.
Proof.
  unfold unwrap_lines, lit. cbn [list_ascii_of_string].
  rewrite !replace_char_char, map_map. apply map_ext. intros c.
  unfold unwrap_char.
  destruct (Ascii.eqb_spec LF c) as [<-|]; reflexivity.
Qed.

Lemma edit_unwrap (s : text) : edit s (unwrap_lines s).
Proof.
  rewrite unwrap_lines_map. induction s as [|c s IH]; cbn.
  - apply edit_nil.
  - unfold unwrap_char at 1.
    destruct (Ascii.eqb_spec CR c) as [<-|];
      [now apply edit_blank|].
    destruct (Ascii.eqb_spec LF c) as [<-|];
      [now apply edit_blank|now apply edit_copy].
Qed.

(** ** Stripping *)

Lemma lstrip_all_space (w : text) : all_space w = true -> lstrip w = [].
Proof.
  induction w as [|c w IH]; cbn; auto.
  intros H. apply andb_true_iff in H as [-> H]. auto.
Qed.

Lemma lstrip_nil_inv (s : text) : lstrip s = [] -> all_space s = true.
Proof.
  induction s as [|c s IH]; cbn; auto.
  destruct (is_space c); [auto|discriminate].
Qed.

Lemma lstrip_app (a b : text) :
  lstrip (a ++ b) = if all_space a then lstrip b else lstrip a ++ b.
Proof.
  induction a as [|c a IH]; cbn; auto.
  destruct (is_space c); cbn; auto.
Qed.

Lemma all_space_rev (w : text) : all_space (rev w) = all_space w.
Proof.
  induction w as [|c w IH]; cbn; auto.
  rewrite all_space_app, IH. cbn. rewrite andb_true_r. apply andb_comm.
Qed.

Lemma rstrip_nil : rstrip [] = [].
Proof. reflexivity. Qed.

Lemma rstrip_all_space (w : text) : all_space w = true -> rstrip w = [].
Proof.
  intros H. unfold rstrip. rewrite lstrip_all_space; auto.
  now rewrite all_space_rev.
Qed.

(** [rstrip] read from the left. *)
Lemma rstrip_cons (c : ascii) (r : text) :
  rstrip (c :: r) = if all_space (c :: r) then [] else c :: rstrip r.
Proof.
  unfold rstrip. cbn [rev]. rewrite lstrip_app, all_space_rev.
  rewrite all_space_cons. destruct (all_space r) eqn:Hr.
  - rewrite andb_true_r. cbn. destruct (is_space c); cbn; auto.
    rewrite lstrip_all_space; auto. now rewrite all_space_rev.
  - rewrite andb_false_r, rev_app_distr. reflexivity.
Qed.

Lemma rstrip_nil_inv (s : text) : rstrip s = [] -> all_space s = true.
Proof.
  destruct s as [|c s]; auto. rewrite rstrip_cons.
  destruct (all_space (c :: s)); [auto|discriminate].
Qed.

Lemma lstrip_sub (s : text) :
  exists a, s = a ++ lstrip s /\ all_space a = true.
Proof.
  induction s as [|c s (a & E & Ha)]; cbn.
  - now exists [].
  - destruct (is_space c) eqn:Hc.
    + exists (c :: a). rewrite all_space_cons, Hc, Ha. cbn. now rewrite <- E.
    + now exists [].
Qed.

Lemma rstrip_sub (s : text) :
  exists b, s = rstrip s ++ b /\ all_space b = true.
Proof.
  induction s as [|c s (b & E & Hb)].
  - now exists [].
  - rewrite rstrip_cons. destruct (all_space (c :: s)) eqn:H.
    + now exists (c :: s).
    + exists b. cbn. now rewrite <- E.
Qed.

Lemma strip_sub (s : text) :
  exists a b, s = a ++ strip s ++ b /\
              all_space a = true /\ all_space b = true.
Proof.
  unfold strip. destruct (lstrip_sub s) as (a & Ea & Ha).
  destruct (rstrip_sub (lstrip s)) as (b & Eb & Hb).
  exists a, b. rewrite <- Eb. auto.
Qed.

(** An occurrence in the stripped text is one in the text, for patterns
    that look at a prefix only. *)
Lemma strip_reflects (occ : text -> Prop) (s : text) :
  (forall b t, occ b -> occ (b ++ t)) ->
  anywhere occ (strip s) -> anywhere occ s.
Proof.
  intros Hext (a0 & b0 & E & Ho).
  destruct (strip_sub s) as (a & b & Es & _).
  exists (a ++ a0), (b0 ++ b). split; [|auto].
  rewrite Es at 1. rewrite E, <- !app_assoc. reflexivity.
Qed.

Lemma lstrip_keep (c : ascii) (k' : text) :
  is_space c = false ->
  forall a r, exists a', lstrip (a ++ c :: k' ++ r) = a' ++ c :: k' ++ r.
Proof.
  intros Hc a r. induction a as [|x a (a' & IH)]; cbn.
  - rewrite Hc. now exists [].
  - destruct (is_space x); [now exists a'|now exists (x :: a)].
Qed.

Lemma rstrip_keep (k' : text) (d : ascii) :
  is_space d = false ->
  forall a r, exists r', rstrip (a ++ k' ++ d :: r) = a ++ k' ++ d :: r'.
Proof.
  intros Hd a r.
  assert (Hns : forall l, all_space (l ++ d :: r) = false).
  { intros l. rewrite all_space_app, all_space_cons, Hd.
    now rewrite andb_false_r. }
  assert (Hk : exists r', rstrip (d :: r) = d :: r').
  { rewrite rstrip_cons. change (d :: r) with ([] ++ d :: r) at 1.
    rewrite Hns. eauto. }
  destruct Hk as (r' & Hk). exists r'.
  rewrite !app_assoc. generalize (a ++ k'). intros l.
  induction l as [|x l IH]; cbn [app]; auto.
  rewrite rstrip_cons. change (x :: l ++ d :: r) with ((x :: l) ++ d :: r).
  rewrite Hns. cbn [app]. now rewrite IH.
Qed.

(** ** Squeezed texts *)

Lemma m_spaces_some (c : ascii) (s : text) :
  is_space c = true -> m_spaces (c :: s) <> None.
Proof.
  intros H. unfold m_spaces. cbn. rewrite H.
  destruct (span is_space s). discriminate.
Qed.

Lemma m_spaces_run (w rest : text) :
  w <> [] -> all_space w = true ->
  match rest with [] => True | c :: _ => is_space c = false end ->
  m_spaces (w ++ rest) = Some ([SPACE], rest).
Proof.
  intros Hne Hw Hrest. unfold m_spaces. rewrite (span_run _ _ _ Hw Hrest).
  destruct w; [congruence|reflexivity].
Qed.

Lemma single_weaken (b : bool) (s : text) :
  single_from true s = true -> single_from b s = true.
Proof.
  destruct s as [|c s]; cbn; auto. destruct (is_space c); auto.
  rewrite andb_false_r. discriminate.
Qed.

Lemma single_suffix (a t : text) (b : bool) :
  single_from b (a ++ t) = true -> single_from false t = true.
Proof.
  revert b. induction a as [|c a IH]; intros b; cbn.
  - destruct b; auto. apply single_weaken.
  - destruct (is_space c); eauto.
    intros H. apply andb_true_iff in H as [_ H]. eauto.
Qed.

Lemma single_spaces (s : text) : single_from false (re_sub m_spaces s) = true.
Proof.
  revert s. apply (scan_ind m_spaces_consuming).
  - reflexivity.
  - intros c s E H. rewrite re_sub_eq, E by auto with scan. cbn.
    destruct (is_space c) eqn:Hc; auto.
    now apply (@m_spaces_some c s) in Hc.
  - intros s rep rest E H. rewrite re_sub_eq, E by auto with scan.
    apply m_spaces_inv in E as (w & -> & -> & _ & _ & Hrest).
    cbn. destruct rest as [|c r]; [reflexivity|].
    rewrite re_sub_eq, m_spaces_none in * by auto with scan.
    cbn in *. now rewrite Hrest in *.
Qed.

Lemma tidy_rstrip (t : text) :
  forall b, single_from b t = true ->
            match rstrip t with
            | [] => True
            | _ => tidy_from b (rstrip t) = true
            end.
Proof.
  induction t as [|c r IH]; intros b H; [exact I|].
  rewrite rstrip_cons. destruct (all_space (c :: r)) eqn:Hall; [exact I|].
  cbn in H |- *. rewrite all_space_cons in Hall.
  destruct (is_space c) eqn:Hc.
  - apply andb_true_iff in H as [H1 H2]. rewrite H1. cbn in Hall.
    specialize (IH true H2). destruct (rstrip r) eqn:Er; [|exact IH].
    apply rstrip_nil_inv in Er. congruence.
  - specialize (IH false H). destruct (rstrip r); auto.
Qed.

Lemma lstrip_head (s : text) :
  match lstrip s with [] => True | c :: _ => is_space c = false end.
Proof.
  induction s as [|c s IH]; cbn; auto.
  destruct (is_space c) eqn:E; auto.
Qed.

Lemma tidy_squeeze (s : text) : tidy (squeeze s) = true.
Proof.
  unfold squeeze, strip. set (t := re_sub m_spaces s).
  assert (Ht : single_from false t = true) by apply single_spaces.
  destruct (lstrip_sub t) as (a & Ea & _). rewrite Ea in Ht.
  apply single_suffix in Ht. assert (Hh := lstrip_head t).
  destruct (lstrip t) as [|c t1] eqn:El; [reflexivity|].
  assert (H1 : single_from true (c :: t1) = true).
  { cbn in Ht |- *. now rewrite Hh in *. }
  apply tidy_rstrip in H1. unfold tidy.
  destruct (rstrip (c :: t1)); auto.
Qed.

Lemma tidy_from_head (s : text) :
  tidy_from true s = true ->
  exists c r, s = c :: r /\ is_space c = false.
Proof.
  destruct s as [|c r]; cbn; [discriminate|].
  destruct (is_space c) eqn:E; eauto.
  rewrite andb_false_r. discriminate.
Qed.

Lemma tidy_from_spaces (s : text) (b : bool) :
  tidy_from b s = true -> re_sub m_spaces s = s.
Proof.
  revert b. induction s as [|c r IH]; intros b H.
  - reflexivity.
  - rewrite re_sub_eq by auto with scan. cbn in H.
    destruct (is_space c) eqn:Hc.
    + apply andb_true_iff in H as [H1 H2].
      apply andb_true_iff in H1 as [H1 _]. apply Ascii.eqb_eq in H1.
      subst c. destruct (tidy_from_head _ H2) as (d & r' & -> & Hd).
      assert (E : m_spaces ([SPACE] ++ d :: r') = Some ([SPACE], d :: r'))
        by (apply m_spaces_run; auto; discriminate).
      cbn [app] in E. rewrite E. cbn [app]. f_equal. eauto.
    + rewrite m_spaces_none by auto. f_equal. eauto.
Qed.

Lemma tidy_from_rstrip (s : text) (b : bool) :
  tidy_from b s = true -> rstrip s = s.
Proof.
  revert b. induction s as [|c r IH]; intros b H; [reflexivity|].
  rewrite rstrip_cons, all_space_cons. cbn in H.
  destruct (is_space c) eqn:Hc; cbn.
  - apply andb_true_iff in H as [_ H].
    destruct (tidy_from_head _ H) as (d & r' & -> & Hd).
    rewrite all_space_cons, Hd. cbn. f_equal. eauto.
  - f_equal. eauto.
Qed.

Lemma tidy_fixed (s : text) : tidy s = true -> squeeze s = s.
Proof.
  destruct s as [|c r]; [reflexivity|]. unfold tidy. intros H.
  unfold squeeze, strip. rewrite (tidy_from_spaces _ _ H).
  destruct (tidy_from_head _ H) as (d & r' & [= -> ->] & Hd).
  cbn [lstrip]. rewrite Hd. exact (tidy_from_rstrip _ _ H).
Qed.

Lemma squeeze_idempotent (s : text) : squeeze (squeeze s) = squeeze s.
Proof. apply tidy_fixed, tidy_squeeze. Qed.

Lemma tidy_from_word (k : text) (b : bool) (t : text) :
  k <> [] -> no_space k = true ->
  tidy_from b (k ++ t) = tidy_from false t.
Proof.
  revert b. induction k as [|c k IH]; intros b Hne Hk; [congruence|].
  cbn in Hk |- *. apply andb_true_iff in Hk as [Hc Hk].
  apply negb_true_iff in Hc. rewrite Hc.
  destruct k as [|c' k]; [reflexivity|]. apply IH; auto. discriminate.
Qed.

Lemma word_no_space (w : text) : forallb is_word w = true -> no_space w = true.
Proof.
  unfold no_space. intros H. apply forallb_forall. intros c Hc.
  rewrite forallb_forall in H. specialize (H c Hc).
  destruct c as [[] [] [] [] [] [] [] []]; try reflexivity; discriminate.
Qed.

Lemma tidy_from_gap (sp : text) (c : ascii) (t : text) :
  all_space sp = true -> is_space c = false ->
  tidy_from false (sp ++ c :: t) = true -> tidy_from false t = true.
Proof.
  intros Hsp Hc H. destruct sp as [|x sp]; cbn in H.
  - now rewrite Hc in H.
  - rewrite all_space_cons in Hsp. apply andb_true_iff in Hsp as [Hx Hsp].
    rewrite Hx in H. apply andb_true_iff in H as [_ H].
    destruct (tidy_from_head _ H) as (d & r' & E & Hd).
    destruct sp as [|y sp]; cbn in E.
    + injection E as <- <-. cbn in H. now rewrite Hc in H.
    + injection E as <- _. rewrite all_space_cons in Hsp.
      apply andb_true_iff in Hsp as [Hy _]. congruence.
Qed.

Lemma tidy_from_dot (s : text) :
  forall b, tidy_from b s = true -> tidy_from b (re_sub m_dot s) = true.
Proof.
  revert s.
  apply (@scan_ind m_dot m_dot_consuming
           (fun s => forall b, tidy_from b s = true ->
                               tidy_from b (re_sub m_dot s) = true)).
  - auto.
  - intros c s E IH b H. rewrite re_sub_eq, E by auto with scan.
    cbn in H |- *. destruct (is_space c).
    + apply andb_true_iff in H as [H1 H2]. rewrite H1. cbn. auto.
    + auto.
  - intros s rep rest E IH b H. rewrite re_sub_eq, E by auto with scan.
    apply m_dot_inv in E as (w & sp & -> & -> & Hne & Hw & Hsp).
    change (QMARK :: w ++ sp ++ RBRACE :: rest)
      with ((QMARK :: w) ++ sp ++ RBRACE :: rest) in H.
    change (QMARK :: w ++ [SPACE; DOT; SPACE; RBRACE])
      with ((QMARK :: w) ++ [SPACE; DOT; SPACE; RBRACE]).
    assert (Hk : no_space (QMARK :: w) = true)
      by (cbn; now apply word_no_space).
    rewrite tidy_from_word in H by (auto; discriminate).
    rewrite <- app_assoc, tidy_from_word by (auto; discriminate).
    apply tidy_from_gap in H; auto. cbn [app tidy_from].
    change (is_space SPACE) with true. change (is_space DOT) with false.
    change (is_space RBRACE) with false. cbn. auto.
Qed.

Lemma tidy_dot (s : text) : tidy s = true -> tidy (re_sub m_dot s) = true.
Proof.
  destruct s as [|c r]; [reflexivity|]. unfold tidy. intros H.
  apply tidy_from_dot in H. destruct (re_sub m_dot (c :: r)); auto.
Qed.

Lemma tidy_from_unwrap (s : text) (b : bool) :
  tidy_from b s = true -> map unwrap_char s = s.
Proof.
  revert b. induction s as [|c r IH]; intros b H; [reflexivity|].
  cbn in H |- *. destruct (is_space c) eqn:Hc.
  - apply andb_true_iff in H as [H1 H2].
    apply andb_true_iff in H1 as [H1 _]. apply Ascii.eqb_eq in H1.
    subst c. cbn. f_equal. eauto.
  - f_equal; [|eauto]. unfold unwrap_char.
    destruct (Ascii.eqb_spec CR c) as [<-|]; [discriminate|].
    destruct (Ascii.eqb_spec LF c) as [<-|]; [discriminate|reflexivity].
Qed.

Lemma tidy_unwrap (s : text) : tidy s = true -> unwrap_lines s = s.
Proof.
  rewrite unwrap_lines_map. destruct s as [|c r]; [reflexivity|].
  apply tidy_from_unwrap.
Qed.

(** ** Patterns under edits *)

Unset Implicit Arguments.

Lemma gap_tail_cases (w u : text) (c : ascii) (a b : text) :
  gap w u c -> u = a ++ b -> b <> [] ->
  (exists x b', b = x :: b' /\ is_space x = true) \/
  In (b ++ [c]) inserted_tails.
Proof.
  intros Hg E Hb.
  destruct Hg as [w c Hne | c Hc | w | ]; unfold lit in E; cbn in E;
    repeat (destruct a as [|? a]; cbn in E;
            [ subst b;
              first [ left; do 2 eexists; split; reflexivity
                    | solve [ right; unfold inserted_tails, lit; cbn;
                              repeat (first [left; reflexivity | right]) ] ]
            | injection E as _ E ]);
    (destruct a; cbn in E; [exfalso; apply Hb; symmetry; exact E|discriminate]).
Qed.

Lemma token_nil (m : matcher) : token_pattern m -> ~ matches m [].
Proof.
  intros Ht H. destruct (Ht _ H) as (k & r & E & Hk & _).
  destruct k; [congruence|discriminate].
Qed.

Lemma token_space (m : matcher) (c : ascii) (t : text) :
  token_pattern m -> is_space c = true -> ~ matches m (c :: t).
Proof.
  intros Ht Hc H. destruct (Ht _ H) as (k & r & E & Hk & Hn & _).
  destruct k as [|x k]; [congruence|]. injection E as <- _.
  cbn in Hn. now rewrite Hc in Hn.
Qed.

Lemma token_head (m : matcher) (s s' : text) :
  token_pattern m -> edit s s' -> matches m s' -> matches m s.
Proof.
  intros Ht He H. destruct (Ht _ H) as (k & r' & -> & _ & Hn & Hk).
  destruct (@edit_peel_word k Hn s r' He) as (r & -> & _). apply Hk.
Qed.

Lemma tails_matches (m : matcher) :
  tails_ok m ->
  (forall c t, is_space c = true -> ~ matches m (c :: t)) ->
  forall w u c a b t, gap w u c -> u = a ++ b -> b <> [] ->
                      ~ matches m (b ++ c :: t).
Proof.
  intros Ht Hs w u c a b t Hg E Hb H.
  destruct (gap_tail_cases _ _ _ _ _ Hg E Hb) as [(x & b' & -> & Hx) | Hin].
  - exact (Hs _ _ Hx H).
  - apply (Ht _ t) in Hin. apply H.
    now rewrite <- app_assoc in Hin.
Qed.

(** Matches of a whitespace-free pattern in the output of an edit were
    there in the input. *)
Lemma token_reflects (m : matcher) :
  token_pattern m -> tails_ok m ->
  forall s s', edit s s' ->
               anywhere (matches m) s' -> anywhere (matches m) s.
Proof.
  intros Ht Hok. apply edit_reflects.
  - now apply token_nil.
  - intros c t. now apply token_space.
  - intros s s'. now apply token_head.
  - apply tails_matches; auto. intros c t. now apply token_space.
Qed.

(** Where the pattern matches nowhere, the substitution changes
    nothing. *)
Lemma re_sub_noop (m : matcher) (s : text) :
  consuming m -> ~ anywhere (matches m) s -> re_sub m s = s.
Proof.
  intros Hm. induction s as [|c s IH]; intros H.
  - rewrite re_sub_eq by auto. destruct (m []) eqn:E; auto.
    exfalso. apply H, anywhere_here. unfold matches. congruence.
  - rewrite re_sub_eq by auto. destruct (m (c :: s)) eqn:E.
    + exfalso. apply H, anywhere_here. unfold matches. congruence.
    + f_equal. apply IH. intros Hs. apply H.
      now apply (@anywhere_later _ [c]).
Qed.

(** After a substitution the pattern matches nowhere, when the input is
    good enough for no match to start inside a replacement. *)
Lemma sub_clears (m : matcher) (good : text -> Prop) :
  consuming m -> suffixing m ->
  (forall a s, good (a ++ s) -> good s) ->
  (forall s, edit s (re_sub m s)) ->
  (forall s s', edit s s' -> matches m s' -> matches m s) ->
  ~ matches m [] ->
  (forall s rep rest out, good s -> m s = Some (rep, rest) ->
     edit rest out ->
     forall a b, rep = a ++ b -> b <> [] -> ~ matches m (b ++ out)) ->
  forall s, good s -> ~ anywhere (matches m) (re_sub m s).
Proof.
  intros Hm Hsuf Hgood Hedit Hhead Hnil Hrep s. revert s.
  apply (@scan_ind m Hm
           (fun s => good s -> ~ anywhere (matches m) (re_sub m s))).
  - intros _ H. rewrite re_sub_eq in H by auto.
    destruct (m []) eqn:E.
    + apply Hnil. unfold matches. rewrite E. discriminate.
    + apply Hnil. now apply anywhere_nil.
  - intros c s E IH Hg H. rewrite re_sub_eq, E in H by auto.
    apply anywhere_cons in H as [H|H].
    + apply (Hhead (c :: s)) in H; [|apply edit_copy, Hedit].
      unfold matches in H. congruence.
    + apply IH; auto. apply (Hgood [c]). exact Hg.
  - intros s rep rest E IH Hg H. rewrite re_sub_eq, E in H by auto.
    destruct (Hsuf _ _ _ E) as (a0 & Ea).
    assert (Hgr : good rest) by (apply (Hgood a0); now rewrite <- Ea).
    destruct H as (a & b & Eab & Hb).
    apply app_eq_app in Eab as [l [[E1 ->] | [-> E2]]].
    + destruct l as [|x l].
      * apply IH; auto. rewrite app_nil_l in Hb. now apply anywhere_here.
      * apply (Hrep _ _ _ (re_sub m rest) Hg E (Hedit rest) a (x :: l));
          auto. discriminate.
    + apply IH; auto. now exists l, b.
Qed.

(** ** Keyword patterns (steps 3 and 4) *)

Lemma is_space_upper (c : ascii) : is_space (upper_char c) = is_space c.
Proof.
  destruct c as [[] [] [] [] [] [] [] []]; reflexivity.
Qed.

Lemma no_space_cons (c : ascii) (k : text) :
  no_space (c :: k) = negb (is_space c) && no_space k.
Proof. reflexivity. Qed.

Lemma no_space_upper (k : text) : no_space (upper k) = no_space k.
Proof.
  induction k as [|c k IH]; auto. cbn [upper map].
  fold (upper k). now rewrite !no_space_cons, is_space_upper, IH.
Qed.

Lemma no_space_app (a b : text) :
  no_space (a ++ b) = no_space a && no_space b.
Proof. apply forallb_app. Qed.

Lemma take_ci_make (kw r : text) :
  take_ci (upper kw) (kw ++ r) = Some (kw, r).
Proof.
  unfold upper. induction kw as [|c kw IH]; cbn; auto.
  now rewrite Ascii.eqb_refl, IH.
Qed.

Lemma split_at_space (a b pre post : text) :
  a ++ b = pre ++ SPACE :: post -> b <> [] ->
  (exists b1, b = b1 ++ SPACE :: post /\ pre = a ++ b1) \/
  (exists a2, post = a2 ++ b).
Proof.
  intros E Hb. apply app_eq_app in E as [l [[-> E] | [-> ->]]].
  - destruct l as [|x l]; cbn in E.
    + left. exists []. split; [now symmetry|now rewrite !app_nil_r].
    + injection E as _ ->. right. now exists l.
  - left. now exists l.
Qed.

Lemma no_space_prefix (k : text) :
  no_space k = true ->
  forall r b1 t, k ++ r = b1 ++ SPACE :: t -> exists b1', b1 = k ++ b1'.
Proof.
  induction k as [|c k IH]; intros Hk r b1 t E.
  - now exists b1.
  - cbn in Hk. apply andb_true_iff in Hk as [Hc Hk].
    destruct b1 as [|x b1]; cbn in E.
    + injection E as -> _. discriminate.
    + injection E as -> E. destruct (IH Hk _ _ _ E) as (b1' & ->).
      now exists b1'.
Qed.

Lemma re_sub_ext (m m' : matcher) :
  (forall s, m s = m' s) -> forall s, re_sub m s = re_sub m' s.
Proof.
  intros H s. unfold re_sub. generalize (S (List.length s)). intros fuel.
  revert s. induction fuel as [|fuel IH]; intros s; cbn; auto.
  rewrite <- H. destruct (m s) as [[rep rest]|].
  - now rewrite IH.
  - destruct s; auto. now rewrite IH.
Qed.

Section Keyword.

Variable K : text.
Variable follow : ascii -> bool.

Hypothesis K_solid : no_space K = true.
Hypothesis follow_special :
  forall c, follow c = true -> c = QMARK \/ c = STAR \/ c = LBRACE.
Hypothesis follow_not_first :
  forall c r, follow c = true -> take_ci K (c :: r) = None.
Hypothesis K_tails : tails_ok (m_keyword K follow).

Lemma m_keyword_inv (s rep rest : text) :
  m_keyword K follow s = Some (rep, rest) ->
  exists kw c, s = kw ++ c :: rest /\ rep = kw ++ [SPACE; c] /\
               upper kw = K /\ follow c = true.
Proof.
  unfold m_keyword.
  destruct (take_ci K s) as [[kw [|c r]]|] eqn:E; try discriminate.
  destruct (follow c) eqn:Ec; [|discriminate].
  intros [= <- <-]. apply take_ci_app in E as [-> Hk]. eauto 6.
Qed.

Lemma m_keyword_make (kw : text) (c : ascii) (r : text) :
  upper kw = K -> follow c = true ->
  matches (m_keyword K follow) (kw ++ c :: r).
Proof.
  intros <- Hc. unfold matches, m_keyword.
  rewrite take_ci_make, Hc. discriminate.
Qed.

Lemma m_keyword_consuming : consuming (m_keyword K follow).
Proof.
  intros s rep rest E. apply m_keyword_inv in E as (kw & c & -> & _).
  rewrite length_app. cbn. lia.
Qed.

Lemma m_keyword_suffixing : suffixing (m_keyword K follow).
Proof.
  intros s rep rest E. apply m_keyword_inv in E as (kw & c & -> & _).
  exists (kw ++ [c]). now rewrite <- app_assoc.
Qed.

Lemma follow_no_space (c : ascii) : follow c = true -> is_space c = false.
Proof.
  intros H. apply is_space_special.
  destruct (follow_special c H) as [-> | [-> | ->]]; auto.
Qed.

Lemma m_keyword_token : token_pattern (m_keyword K follow).
Proof.
  intros s H. unfold matches in H.
  destruct (m_keyword K follow s) as [[rep rest]|] eqn:E; [|congruence].
  apply m_keyword_inv in E as (kw & c & -> & _ & Hk & Hc).
  exists (kw ++ [c]), rest. repeat split.
  - now rewrite <- app_assoc.
  - destruct kw; discriminate.
  - rewrite no_space_app, <- no_space_upper, Hk, K_solid. cbn.
    now rewrite (follow_no_space c Hc).
  - intros r'. rewrite <- app_assoc. now apply m_keyword_make.
Qed.

Lemma edit_keyword (s : text) : edit s (re_sub (m_keyword K follow) s).
Proof.
  apply re_sub_edit; [apply m_keyword_consuming|].
  intros s0 rep rest E out Hout.
  apply m_keyword_inv in E as (kw & c & -> & -> & _ & Hc).
  rewrite <- app_assoc. apply edit_copy_app.
  apply (@edit_gap [] [SPACE] c); auto.
  - now apply follow_no_space.
  - apply gap_split. auto.
Qed.

(** After the step the keyword pattern matches nowhere. *)
Lemma keyword_cleared (s : text) :
  ~ anywhere (matches (m_keyword K follow)) (re_sub (m_keyword K follow) s).
Proof.
  apply (sub_clears _ (fun _ => True)); auto.
  - apply m_keyword_consuming.
  - apply m_keyword_suffixing.
  - apply edit_keyword.
  - intros s0 s' He Hm. exact (token_head _ _ _ m_keyword_token He Hm).
  - apply token_nil, m_keyword_token.
  - intros s0 rep rest out _ E Hout a b Eab Hb Hm.
    apply m_keyword_inv in E as (kw & c & -> & -> & Hk & Hc).
    unfold matches in Hm.
    destruct (m_keyword K follow (b ++ out)) as [[rep' rest']|] eqn:E';
      [|congruence].
    apply m_keyword_inv in E' as (kw' & c' & E' & _ & Hk' & Hc').
    symmetry in Eab.
    destruct (split_at_space _ _ _ _ Eab Hb) as [(b1 & -> & ->) | (a2 & E2)].
    + assert (Hn : no_space (kw' ++ [c']) = true).
      { rewrite no_space_app, <- no_space_upper, Hk', K_solid. cbn.
        now rewrite (follow_no_space c' Hc'). }
      rewrite <- app_assoc in E'. cbn in E'.
      change (kw' ++ c' :: rest') with (kw' ++ [c'] ++ rest') in E'.
      rewrite app_assoc in E'.
      destruct (no_space_prefix _ Hn _ _ _ (eq_sym E')) as (b1' & ->).
      assert (Hl : List.length (upper (a ++ (kw' ++ [c']) ++ b1'))
                   = List.length (upper kw')) by now rewrite Hk, Hk'.
      rewrite !upper_length, !length_app in Hl. cbn in Hl. lia.
    + destruct a2 as [|x a2]; cbn in E2.
      * subst b. cbn in E'.
        destruct kw' as [|k1 kw']; cbn in E'.
        -- assert (Hf := follow_not_first c [] Hc).
           rewrite <- Hk' in Hf. discriminate.
        -- injection E' as <- E'.
           assert (Hf := follow_not_first c (kw' ++ c' :: rest') Hc).
           change (c :: kw' ++ c' :: rest')
             with ((c :: kw') ++ c' :: rest') in Hf.
           rewrite <- Hk', take_ci_make in Hf. discriminate.
      * injection E2 as _ E2. destruct a2; destruct b; try discriminate.
        now elim Hb.
Qed.

(** Matches of the keyword pattern are not created by later edits. *)
Lemma keyword_reflects (s s' : text) :
  edit s s' ->
  anywhere (matches (m_keyword K follow)) s' ->
  anywhere (matches (m_keyword K follow)) s.
Proof. apply token_reflects; [apply m_keyword_token|apply K_tails]. Qed.

End Keyword.

Lemma anywhere_ext (m m' : matcher) (t : text) :
  (forall s, m s = m' s) ->
  anywhere (matches m) t -> anywhere (matches m') t.
Proof.
  intros H (a & b & -> & Hb). exists a, b. split; auto.
  unfold matches in *. now rewrite <- H.
Qed.

Lemma m_select_keyword (s : text) :
  m_select s = m_keyword (lit "SELECT") select_follow s.
Proof. reflexivity. Qed.

Lemma m_where_keyword (s : text) :
  m_where s = m_keyword (lit "WHERE") where_follow s.
Proof.
  unfold m_where, m_keyword, where_follow.
  destruct (take_ci (lit "WHERE") s) as [[kw [|c r]]|]; auto.
  change (ch "{") with LBRACE.
  destruct (Ascii.eqb_spec c LBRACE) as [->|]; reflexivity.
Qed.

Lemma select_follow_special (c : ascii) :
  select_follow c = true -> c = QMARK \/ c = STAR \/ c = LBRACE.
Proof.
  unfold select_follow. intros H.
  apply orb_true_iff in H as [H|H]; apply Ascii.eqb_eq in H; auto.
Qed.

Lemma where_follow_special (c : ascii) :
  where_follow c = true -> c = QMARK \/ c = STAR \/ c = LBRACE.
Proof. unfold where_follow. intros H. apply Ascii.eqb_eq in H. auto. Qed.

Lemma select_not_first (c : ascii) (r : text) :
  select_follow c = true -> take_ci (lit "SELECT") (c :: r) = None.
Proof.
  intros H. destruct (select_follow_special c H) as [-> | [-> | ->]];
    reflexivity.
Qed.

Lemma where_not_first (c : ascii) (r : text) :
  where_follow c = true -> take_ci (lit "WHERE") (c :: r) = None.
Proof.
  intros H. apply Ascii.eqb_eq in H. subst c. reflexivity.
Qed.

Ltac check_tails :=
  let b := fresh "b" in let t := fresh "t" in let H := fresh "H" in
  intros b t H; unfold inserted_tails in H; cbn [In] in H;
  repeat (destruct H as [<- | H]; [reflexivity|]); destruct H.

Lemma select_tails : tails_ok (m_keyword (lit "SELECT") select_follow).
Proof. check_tails. Qed.

Lemma where_tails : tails_ok (m_keyword (lit "WHERE") where_follow).
Proof. check_tails. Qed.

Lemma select_cleared (s : text) :
  ~ anywhere (matches m_select) (re_sub m_select s).
Proof.
  exact (keyword_cleared (lit "SELECT") select_follow eq_refl
           select_follow_special select_not_first select_tails s).
Qed.

Lemma select_reflects (s s' : text) :
  edit s s' -> anywhere (matches m_select) s' -> anywhere (matches m_select) s.
Proof.
  exact (keyword_reflects (lit "SELECT") select_follow eq_refl
           select_follow_special select_not_first select_tails s s').
Qed.

Lemma where_cleared (s : text) :
  ~ anywhere (matches m_where) (re_sub m_where s).
Proof.
  intros H. rewrite (re_sub_ext _ _ m_where_keyword) in H.
  apply (anywhere_ext _ _ _ m_where_keyword) in H. revert H.
  exact (keyword_cleared (lit "WHERE") where_follow eq_refl
           where_follow_special where_not_first where_tails s).
Qed.

Lemma where_reflects (s s' : text) :
  edit s s' -> anywhere (matches m_where) s' -> anywhere (matches m_where) s.
Proof.
  intros He H. apply (anywhere_ext _ _ _ m_where_keyword) in H.
  apply (anywhere_ext (m_keyword (lit "WHERE") where_follow) m_where);
    [intros; now rewrite m_where_keyword|].
  revert H.
  exact (keyword_reflects (lit "WHERE") where_follow eq_refl
           where_follow_special where_not_first where_tails s s' He).
Qed.

(** ** The glue pattern (step 5) *)

Lemma NAME_colon : lit "progettoMuseo:" = NAME ++ [COLON].
Proof. reflexivity. Qed.

Lemma word_not_qmark (w : text) : forallb is_word w = true -> ~ In QMARK w.
Proof.
  intros H Hin. rewrite forallb_forall in H. now apply H in Hin.
Qed.

Lemma not_in_text (c : ascii) (l : text) :
  existsb (Ascii.eqb c) l = false -> ~ In c l.
Proof.
  intros H Hin. assert (existsb (Ascii.eqb c) l = true); [|congruence].
  apply existsb_exists. exists c. split; auto. apply Ascii.eqb_refl.
Qed.

Lemma m_glue_make (w1 : text) (c2 : ascii) (r : text) :
  w1 <> [] -> forallb is_word w1 = true -> is_word c2 = true ->
  matches m_glue (lit "progettoMuseo:" ++ w1 ++ QMARK :: c2 :: r).
Proof.
  intros Hne Hw Hc. unfold matches, m_glue.
  assert (E : take_lit (lit "progettoMuseo:")
                (lit "progettoMuseo:" ++ w1 ++ QMARK :: c2 :: r)
              = Some (w1 ++ QMARK :: c2 :: r)) by now apply take_lit_app.
  rewrite E, (span_run is_word w1 (QMARK :: c2 :: r)) by auto.
  destruct w1 as [|x w1]; [congruence|]. change (ch "?") with QMARK.
  rewrite Ascii.eqb_refl. cbn [span]. rewrite Hc.
  destruct (span is_word r). discriminate.
Qed.

Lemma m_glue_token : token_pattern m_glue.
Proof.
  intros s H. unfold matches in H.
  destruct (m_glue s) as [[rep rest]|] eqn:E; [|congruence].
  apply m_glue_inv in E as (w1 & w2 & -> & _ & H1 & H2 & Hw1 & Hw2 & _).
  destruct w2 as [|c2 w2]; [congruence|]. cbn in Hw2.
  apply andb_true_iff in Hw2 as [Hc2 _].
  exists (lit "progettoMuseo:" ++ w1 ++ [QMARK; c2]), (w2 ++ rest).
  repeat split.
  - now rewrite <- !app_assoc.
  - discriminate.
  - rewrite !no_space_app, (word_no_space _ Hw1). cbn.
    destruct c2 as [[] [] [] [] [] [] [] []]; try reflexivity; discriminate.
  - intros r'. rewrite <- !app_assoc. now apply m_glue_make.
Qed.

Lemma m_glue_suffixing : suffixing m_glue.
Proof.
  intros s rep rest E. apply m_glue_inv in E as (w1 & w2 & -> & _).
  exists (lit "progettoMuseo:" ++ w1 ++ QMARK :: w2).
  now rewrite <- !app_assoc.
Qed.

Lemma glue_tails : tails_ok m_glue.
Proof. check_tails. Qed.

Lemma glue_reflects (s s' : text) :
  edit s s' -> anywhere (matches m_glue) s' -> anywhere (matches m_glue) s.
Proof. apply token_reflects; [apply m_glue_token|apply glue_tails]. Qed.

(** A run of word characters in front of a text that continues a name
    and a character outside the class is a prefix of the name. *)
Lemma word_prefix (b : text) :
  forallb is_word b = true ->
  forall k c t out,
    is_word c = false -> b ++ out = k ++ c :: t ->
    exists p2, k = b ++ p2.
Proof.
  induction b as [|x b IH]; intros Hb k c t out Hc E.
  - now exists k.
  - cbn in Hb. apply andb_true_iff in Hb as [Hx Hb].
    destruct k as [|y k]; cbn in E.
    + injection E as -> _. congruence.
    + injection E as -> E. destruct (IH Hb _ _ _ _ Hc E) as (p2 & ->).
      now exists p2.
Qed.

Lemma pair_suffix (a s : text) :
  ~ anywhere glued_pair (a ++ s) -> ~ anywhere glued_pair s.
Proof. intros H Hs. apply H. now apply anywhere_later. Qed.

(** After the glue step the pattern matches nowhere, for a text without
    two glued pairs in a row: a match left over starts in the variable
    name of a match that was replaced. *)
Lemma pair_cleared (s : text) :
  ~ anywhere glued_pair s -> ~ anywhere (matches m_glue) (re_sub m_glue s).
Proof.
  apply (sub_clears m_glue (fun s => ~ anywhere glued_pair s)).
  - apply m_glue_consuming.
  - apply m_glue_suffixing.
  - apply pair_suffix.
  - apply edit_glue.
  - intros s0 s' He Hm. exact (token_head _ _ _ m_glue_token He Hm).
  - apply token_nil, m_glue_token.
  - intros s0 rep rest out Hgood E Hout a b Eab Hb Hm.
    apply m_glue_inv in E as (w1 & w2 & -> & -> & H1 & H2 & Hw1 & Hw2 & Hr).
    unfold matches in Hm.
    destruct (m_glue (b ++ out)) as [[rep' rest']|] eqn:E'; [|congruence].
    apply m_glue_inv in E'
      as (w1' & w2' & E' & _ & H1' & H2' & Hw1' & Hw2' & _).
    rewrite app_assoc in Eab. symmetry in Eab.
    change ([SPACE; QMARK] ++ w2) with (SPACE :: QMARK :: w2) in Eab.
    destruct (split_at_space _ _ _ _ Eab Hb) as [(b1 & -> & Ep) | (a2 & E2)].
    + assert (Hn : no_space (lit "progettoMuseo:" ++ w1' ++ [QMARK]) = true).
      { now rewrite !no_space_app, (word_no_space _ Hw1'). }
      rewrite <- app_assoc in E'. cbn [app] in E'.
      change (QMARK :: w2' ++ rest') with ([QMARK] ++ w2' ++ rest') in E'.
      rewrite !app_assoc in E'. rewrite <- (app_assoc _ w1') in E'.
      rewrite <- app_assoc in E'.
      destruct (no_space_prefix _ Hn _ _ _ (eq_sym E')) as (b1' & ->).
      assert (Hin : In QMARK (lit "progettoMuseo:" ++ w1)).
      { rewrite Ep. apply in_or_app. right. apply in_or_app. left.
        apply in_or_app. right. apply in_or_app. right. now left. }
      apply in_app_or in Hin as [Hin|Hin].
      * revert Hin. apply not_in_text. reflexivity.
      * revert Hin. now apply word_not_qmark.
    + destruct a2 as [|x a2]; cbn in E2.
      * subst b. discriminate.
      * injection E2 as _ E2. subst w2.
        rewrite forallb_app in Hw2. apply andb_true_iff in Hw2 as [Ha2 Hwb].
        rewrite NAME_colon, <- !app_assoc in E'. cbn [app] in E'.
        destruct (word_prefix b Hwb NAME COLON _ out eq_refl E')
          as (p2 & Ep2).
        rewrite Ep2, <- app_assoc in E'. apply app_inv_head in E'.
        destruct p2 as [|y p2].
        -- cbn in E'. rewrite app_nil_r in Ep2. subst out b.
           destruct w2' as [|c2 w2']; [congruence|].
           cbn in Hw2'. apply andb_true_iff in Hw2' as [Hc2 _].
           assert (Hk : no_space (COLON :: w1' ++ [QMARK; c2]) = true).
           { rewrite no_space_cons, no_space_app, (word_no_space _ Hw1').
             cbn. rewrite andb_true_r.
             assert (Hn := word_no_space [c2]). cbn in Hn.
             rewrite Hc2 in Hn. specialize (Hn eq_refl).
             now rewrite andb_true_r in Hn. }
           assert (Eo : COLON :: w1' ++ QMARK :: (c2 :: w2') ++ rest'
                        = (COLON :: w1' ++ [QMARK; c2]) ++ w2' ++ rest').
           { cbn [app]. now rewrite <- app_assoc. }
           rewrite Eo in Hout.
           destruct (@edit_peel_word _ Hk _ _ Hout) as (r & -> & _).
           apply Hgood. apply anywhere_here. exists w1, a2, w1', c2, r.
           repeat split; auto.
           rewrite NAME_colon, <- !app_assoc. cbn [app].
           now rewrite <- !app_assoc.
        -- assert (Hy : is_word y = true).
           { assert (Hn : forallb is_word NAME = true) by reflexivity.
             rewrite Ep2, forallb_app in Hn.
             apply andb_true_iff in Hn as [_ Hn]. cbn in Hn.
             now apply andb_true_iff in Hn as [Hn _]. }
           cbn in E'. subst out.
           assert (Hys : is_space y = false).
           { assert (Hn := word_no_space [y]). cbn in Hn.
             rewrite Hy in Hn. specialize (Hn eq_refl).
             now destruct (is_space y). }
           destruct (edit_peel Hout Hys) as (r & -> & _).
           cbn in Hr. congruence.
Qed.

(** ** The terminator pattern (step 7) *)

Lemma m_dot_make (w sp r : text) :
  w <> [] -> forallb is_word w = true -> all_space sp = true ->
  matches m_dot (QMARK :: w ++ sp ++ RBRACE :: r).
Proof.
  intros Hne Hw Hsp. unfold matches, m_dot. change (ch "?") with QMARK.
  rewrite Ascii.eqb_refl.
  assert (Hq : forall c, is_space c = true -> is_word c = false).
  { intros c. destruct c as [[] [] [] [] [] [] [] []]; auto; discriminate. }
  assert (E1 : span is_word (w ++ sp ++ RBRACE :: r)
               = (w, sp ++ RBRACE :: r)).
  { apply span_run; auto. destruct sp as [|x sp]; [reflexivity|].
    rewrite all_space_cons in Hsp. apply andb_true_iff in Hsp as [Hx _].
    cbn. auto. }
  rewrite E1. destruct w as [|x w]; [congruence|].
  rewrite (span_run is_space sp (RBRACE :: r)) by auto.
  cbn. discriminate.
Qed.

Lemma m_dot_head (q : ascii) (t : text) : q <> QMARK -> m_dot (q :: t) = None.
Proof.
  intros H. unfold m_dot. change (ch "?") with QMARK.
  destruct (Ascii.eqb_spec q QMARK); [contradiction|reflexivity].
Qed.

Lemma m_dot_suffixing : suffixing m_dot.
Proof.
  intros s rep rest E. apply m_dot_inv in E as (w & sp & -> & _).
  exists (QMARK :: w ++ sp ++ [RBRACE]). cbn. f_equal.
  now rewrite <- !app_assoc.
Qed.

Lemma dot_tails : tails_ok m_dot.
Proof. check_tails. Qed.

Lemma dot_space (c : ascii) (t : text) :
  is_space c = true -> ~ matches m_dot (c :: t).
Proof.
  intros Hc H. apply H. apply m_dot_head. intros ->. discriminate.
Qed.

(** A match of the terminator pattern at the head of an edited text was
    there before the edit. *)
Lemma dot_head (s s' : text) :
  edit s s' -> matches m_dot s' -> matches m_dot s.
Proof.
  intros He H. unfold matches in H.
  destruct (m_dot s') as [[rep rest]|] eqn:E; [|congruence].
  apply m_dot_inv in E as (w & sp' & -> & _ & Hne & Hw & Hsp').
  change (QMARK :: w ++ sp' ++ RBRACE :: rest)
    with ((QMARK :: w) ++ sp' ++ RBRACE :: rest) in He.
  assert (Hk : no_space (QMARK :: w) = true)
    by (rewrite no_space_cons, (word_no_space _ Hw); reflexivity).
  destruct (@edit_peel_word _ Hk _ _ He) as (s1 & -> & H1).
  destruct (@edit_walk RBRACE rest eq_refl) with (ws' := sp') (s := s1)
    as (sp & r & -> & Hsp & _); auto; try discriminate.
  now apply m_dot_make.
Qed.

Lemma dot_reflects (s s' : text) :
  edit s s' -> anywhere (matches m_dot) s' -> anywhere (matches m_dot) s.
Proof.
  apply edit_reflects.
  - intros H. now apply H.
  - apply dot_space.
  - apply dot_head.
  - apply tails_matches; [apply dot_tails|apply dot_space].
Qed.

Lemma dot_cleared (s : text) :
  ~ anywhere (matches m_dot) (re_sub m_dot s).
Proof.
  apply (sub_clears m_dot (fun _ => True)); [ | | | | | | | exact I].
  - apply m_dot_consuming.
  - apply m_dot_suffixing.
  - auto.
  - apply edit_dot.
  - apply dot_head.
  - intros H. now apply H.
  - intros s0 rep rest out _ E Hout a b Eab Hb Hm.
    apply m_dot_inv in E as (w & sp & -> & -> & Hne & Hw & Hsp).
    destruct a as [|x a]; cbn in Eab.
    + subst b. apply Hm. cbn [app]. unfold m_dot.
      change (ch "?") with QMARK.
      rewrite Ascii.eqb_refl, <- app_assoc.
      rewrite (span_run is_word w) by (auto; reflexivity).
      destruct w as [|y w]; [congruence|]. reflexivity.
    + injection Eab as _ Eab. destruct b as [|y b]; [congruence|].
      apply Hm. apply m_dot_head. intros ->.
      assert (Hin : In QMARK (w ++ [SPACE; DOT; SPACE; RBRACE])).
      { rewrite Eab. apply in_or_app. right. now left. }
      apply in_app_or in Hin as [Hin|Hin].
      * revert Hin. now apply word_not_qmark.
      * revert Hin. apply not_in_text. reflexivity.
Qed.

(** ** Occurrences of plain text *)

Lemma contains_starts (s needle : text) :
  contains s needle = true <-> anywhere (starts needle) s.
Proof.
  induction s as [|c s IH]; cbn [contains].
  - rewrite orb_false_r, startswith_app, anywhere_nil. reflexivity.
  - rewrite orb_true_iff, IH, startswith_app, anywhere_cons. reflexivity.
Qed.

Lemma has_match_spec (m : matcher) (s : text) :
  has_match m s = true <-> anywhere (matches m) s.
Proof.
  induction s as [|c s IH]; cbn [has_match].
  - rewrite anywhere_nil. unfold matches.
    destruct (m []); split; congruence.
  - rewrite anywhere_cons, <- IH. unfold matches.
    destruct (m (c :: s)).
    + split; auto. intros _. left. discriminate.
    + split; auto. intros [H|H]; [congruence|exact H].
Qed.

Lemma is_special_spec (c : ascii) :
  is_special c = false ->
  c <> QMARK /\ c <> STAR /\ c <> LBRACE /\ c <> RBRACE.
Proof.
  unfold is_special. intros H.
  repeat (apply orb_false_iff in H as [H ?]).
  repeat split; intros ->; discriminate.
Qed.

(** Text without whitespace and without special characters is copied by
    an edit. *)
Lemma edit_keep_word (k : text) :
  no_space k = true -> no_special k = true ->
  forall s s', edit (k ++ s) s' -> exists r', s' = k ++ r' /\ edit s r'.
Proof.
  induction k as [|c k IH]; intros Hn Hs s s' H.
  - now exists s'.
  - rewrite no_space_cons in Hn. apply andb_true_iff in Hn as [Hc Hn].
    cbn in Hs. apply andb_true_iff in Hs as [Hcs Hs].
    apply negb_true_iff in Hc, Hcs.
    destruct (is_special_spec c Hcs) as (H1 & H2 & H3 & H4).
    destruct (@edit_keep c _ _ H Hc H1 H2 H3 H4) as (r1 & -> & Hr1).
    destruct (IH Hn Hs _ _ Hr1) as (r' & -> & Hr'). now exists r'.
Qed.

(** A single space between two kept characters stays a single space. *)
Lemma edit_keep_space (d : ascii) (s s' : text) :
  is_space d = false -> is_special d = false ->
  edit (SPACE :: d :: s) s' ->
  exists r', s' = SPACE :: r' /\ edit (d :: s) r'.
Proof.
  intros Hd Hds H. inversion H as
    [ | c s0 s0' H0 | c s0 s0' Hc H0 | w u c s0 s0' Hw Hc Hg H0 E1 E2
      | w Hw Hsp ]; subst.
  - eauto.
  - eauto.
  - destruct w as [|x w]; cbn in E1.
    + injection E1 as -> _. discriminate.
    + injection E1 as -> E1. destruct w as [|y w]; cbn in E1.
      * injection E1 as -> ->.
        destruct (is_special_spec d Hds) as (H1 & H2 & H3 & H4).
        inversion Hg; subst; try congruence.
        exists (d :: s0'). split; auto. now apply edit_copy.
      * injection E1 as -> _. rewrite !all_space_cons in Hw.
        apply andb_true_iff in Hw as [_ Hw2].
        apply andb_true_iff in Hw2 as [Hw2 _]. congruence.
  - rewrite !all_space_cons in Hsp. apply andb_true_iff in Hsp as [_ Hw2].
    apply andb_true_iff in Hw2 as [Hw2 _]. congruence.
Qed.

(** Tidy text without special characters is copied by an edit. *)
Lemma edit_keep_tidy (k : text) :
  no_special k = true ->
  forall b s s', tidy_from b k = true -> edit (k ++ s) s' ->
                 exists r', s' = k ++ r'.
Proof.
  induction k as [|c k IH]; intros Hs b s s' Ht H.
  - now exists s'.
  - cbn in Hs. apply andb_true_iff in Hs as [Hcs Hs].
    apply negb_true_iff in Hcs. cbn in Ht.
    destruct (is_space c) eqn:Hc.
    + apply andb_true_iff in Ht as [Ht1 Ht].
      apply andb_true_iff in Ht1 as [Ht1 _]. apply Ascii.eqb_eq in Ht1.
      subst c. destruct (tidy_from_head _ Ht) as (d & k' & -> & Hd).
      assert (Hds : is_special d = false).
      { cbn in Hs. apply andb_true_iff in Hs as [Hds _].
        now apply negb_true_iff in Hds. }
      destruct (edit_keep_space d _ _ Hd Hds H) as (r1 & -> & Hr1).
      destruct (IH Hs _ _ _ Ht Hr1) as (r' & ->). now exists r'.
    + destruct (is_special_spec c Hcs) as (H1 & H2 & H3 & H4).
      destruct (@edit_keep c _ _ H Hc H1 H2 H3 H4) as (r1 & -> & Hr1).
      destruct (IH Hs _ _ _ Ht Hr1) as (r' & ->). now exists r'.
Qed.

(** ** Patterns through [squeeze] and in front of a prefix *)

Lemma squeeze_reflects (occ : text -> Prop) :
  (forall b t, occ b -> occ (b ++ t)) ->
  (forall s s', edit s s' -> anywhere occ s' -> anywhere occ s) ->
  forall s, anywhere occ (squeeze s) -> anywhere occ s.
Proof.
  intros Hext Href s H. unfold squeeze in H.
  apply (@strip_reflects occ _ Hext) in H.
  exact (Href _ _ (edit_spaces s) H).
Qed.

Lemma token_ext (m : matcher) :
  token_pattern m -> forall b t, matches m b -> matches m (b ++ t).
Proof.
  intros Ht b t H. destruct (Ht _ H) as (k & r & -> & _ & _ & Hk).
  rewrite <- app_assoc. apply Hk.
Qed.

Lemma dot_ext (b t : text) : matches m_dot b -> matches m_dot (b ++ t).
Proof.
  intros H. unfold matches in H.
  destruct (m_dot b) as [[rep rest]|] eqn:E; [|congruence].
  apply m_dot_inv in E as (w & sp & -> & _ & Hne & Hw & Hsp).
  cbn. rewrite <- !app_assoc. cbn. now apply m_dot_make.
Qed.

Lemma tails_any (occ : text -> Prop) :
  (forall b t, In b inserted_tails -> ~ occ (b ++ t)) ->
  (forall c t, is_space c = true -> ~ occ (c :: t)) ->
  forall w u c a b t, gap w u c -> u = a ++ b -> b <> [] ->
                      ~ occ (b ++ c :: t).
Proof.
  intros Ht Hs w u c a b t Hg E Hb H.
  destruct (gap_tail_cases _ _ _ _ _ Hg E Hb) as [(x & b' & -> & Hx) | Hin].
  - exact (Hs _ _ Hx H).
  - apply (Ht _ t) in Hin. apply Hin. now rewrite <- app_assoc.
Qed.

Lemma anywhere_skip (occ : text -> Prop) (q : ascii) (pre t : text) :
  (forall c r, occ (c :: r) -> c = q) -> ~ occ [] -> ~ In q pre ->
  anywhere occ (pre ++ t) -> anywhere occ t.
Proof.
  intros Hq Hnil. induction pre as [|c pre IH]; intros Hin H; auto.
  cbn in H. apply anywhere_cons in H as [H|H].
  - apply Hq in H. subst c. exfalso. apply Hin. now left.
  - apply IH; auto. intros Hp. apply Hin. now right.
Qed.

(** *** Glued pairs in a row *)

Lemma word_char_no_space (c : ascii) : is_word c = true -> is_space c = false.
Proof.
  intros H. assert (Hn := word_no_space [c]). cbn in Hn.
  rewrite H in Hn. specialize (Hn eq_refl). now destruct (is_space c).
Qed.

(** A chain is decided by a prefix without whitespace that has a [?]. *)
Lemma chain_prefix (w1 w w3 : text) (c : ascii) (r b : text) :
  glued_chain w1 w w3 c r b ->
  exists k, b = k ++ r /\ no_space k = true /\ In QMARK k /\
            forall r', glued_chain w1 w w3 c r' (k ++ r').
Proof.
  intros (-> & H1 & Hw1 & Hw & H3 & Hw3 & Hc).
  exists (lit "progettoMuseo:" ++ w1 ++ QMARK :: w ++
          lit "progettoMuseo:" ++ w3 ++ [QMARK; c]).
  assert (E : forall r',
    (lit "progettoMuseo:" ++ w1 ++ QMARK :: w ++
     lit "progettoMuseo:" ++ w3 ++ [QMARK; c]) ++ r'
    = lit "progettoMuseo:" ++ w1 ++ QMARK :: w ++
      lit "progettoMuseo:" ++ w3 ++ QMARK :: c :: r').
  { intros r'. repeat (rewrite <- ?app_assoc; cbn [app]). reflexivity. }
  split; [now rewrite E|]. split; [|split].
  - rewrite no_space_app, no_space_app, no_space_cons, no_space_app,
      no_space_app, no_space_app.
    rewrite (word_no_space _ Hw1), (word_no_space _ Hw),
      (word_no_space _ Hw3).
    cbn. now rewrite (word_char_no_space _ Hc).
  - apply in_or_app. right. apply in_or_app. right. now left.
  - intros r'. rewrite E. repeat split; auto.
Qed.

Lemma hidden_nil : ~ hidden_glue [].
Proof. intros (w1 & w & w3 & c & r & ([=] & _) & _). Qed.

Lemma hidden_head (c : ascii) (t : text) :
  hidden_glue (c :: t) -> c = "p"%char.
Proof.
  intros (w1 & w & w3 & c0 & r & (E & _) & _). now injection E as ->.
Qed.

Lemma hidden_reflects (s s' : text) :
  edit s s' -> anywhere hidden_glue s' -> anywhere hidden_glue s.
Proof.
  apply edit_reflects.
  - apply hidden_nil.
  - intros c t Hc H. apply hidden_head in H. subst c. discriminate.
  - intros s0 s0' He (w1 & w & w3 & c & r & Hch & Hs1 & Hs3).
    destruct (chain_prefix _ _ _ _ _ _ Hch) as (k & -> & Hk & _ & Hmake).
    destruct (@edit_peel_word _ Hk _ _ He) as (r0 & -> & _).
    exists w1, w, w3, c, r0. auto.
  - apply tails_any.
    + intros b t Hin H. unfold inserted_tails in Hin. cbn [In] in Hin.
      repeat (destruct Hin as [<- | Hin];
              [apply hidden_head in H; discriminate|]).
      destruct Hin.
    + intros c t Hc H. apply hidden_head in H. subst c. discriminate.
Qed.

(** A pattern without whitespace that needs a character [q] does not
    start in a text that lacks [q] and ends in a space. *)
Lemma anywhere_past (occ : text -> Prop) (q : ascii) (p0 u : text) :
  (forall b, occ b ->
             exists k r, b = k ++ r /\ no_space k = true /\ In q k) ->
  ~ In q p0 ->
  anywhere occ ((p0 ++ [SPACE]) ++ u) -> anywhere occ u.
Proof.
  intros Hocc Hq (a & b & E & Hb).
  apply app_eq_app in E as [l [[E ->] | [-> ->]]].
  - destruct l as [|x l].
    + now apply anywhere_here.
    + exfalso. destruct (Hocc _ Hb) as (k & r & Ek & Hk & Hin).
      apply app_eq_app in Ek as [l' [[Ek _] | [Ek _]]].
      * apply Hq. assert (Hin' : In q (x :: l))
          by (rewrite Ek; apply in_or_app; now left).
        assert (Hp : In q (p0 ++ [SPACE]))
          by (rewrite E; apply in_or_app; now right).
        apply in_app_or in Hp as [Hp|[<-|[]]]; auto.
        exfalso. unfold no_space in Hk. rewrite forallb_forall in Hk.
        apply Hk in Hin. discriminate.
      * assert (Hl : no_space (x :: l) = true).
        { rewrite Ek, no_space_app in Hk.
          now apply andb_true_iff in Hk as [Hk _]. }
        destruct (exists_last (l := x :: l)) as (l0 & y & El);
          [discriminate|].
        rewrite El, app_assoc in E. apply app_inj_tail in E as [_ <-].
        rewrite El, no_space_app in Hl.
        apply andb_true_iff in Hl as [_ Hl]. discriminate.
  - apply anywhere_later, anywhere_here. exact Hb.
Qed.

Lemma pair_here_complete (b : text) : glued_pair b -> pair_here b = true.
Proof.
  intros (w1 & w & w3 & c & r & -> & H1 & Hw1 & Hw & H3 & Hw3 & Hc).
  unfold pair_here.
  assert (E : take_lit (lit "progettoMuseo:")
                (lit "progettoMuseo:" ++ w1 ++ QMARK :: w ++
                 lit "progettoMuseo:" ++ w3 ++ QMARK :: c :: r)
              = Some (w1 ++ QMARK :: w ++
                      lit "progettoMuseo:" ++ w3 ++ QMARK :: c :: r))
    by now apply take_lit_app.
  rewrite E, (span_run is_word w1 (QMARK :: _)) by auto.
  destruct w1 as [|x w1]; [congruence|]. rewrite Ascii.eqb_refl.
  rewrite NAME_colon, <- app_assoc, app_assoc. cbn [app andb].
  rewrite (span_run is_word (w ++ NAME) (COLON :: w3 ++ QMARK :: c :: r)).
  - rewrite rev_app_distr, Ascii.eqb_refl.
    rewrite (span_run is_word w3 (QMARK :: c :: r)) by auto.
    destruct w3 as [|y w3]; [congruence|].
    rewrite Ascii.eqb_refl, Hc. cbn [andb]. rewrite andb_true_r.
    apply startswith_app. eauto.
  - rewrite forallb_app, Hw. reflexivity.
  - reflexivity.
Qed.

Lemma has_pair_complete (s : text) :
  anywhere glued_pair s -> has_pair s = true.
Proof.
  induction s as [|c s IH]; intros H.
  - apply (proj1 (@anywhere_nil glued_pair)) in H.
    cbn [has_pair]. now rewrite (pair_here_complete _ H).
  - cbn [has_pair]. apply anywhere_cons in H as [H|H].
    + now rewrite (pair_here_complete _ H).
    + rewrite (IH H). apply orb_true_r.
Qed.

Lemma hidden_is_pair (s : text) :
  anywhere hidden_glue s -> anywhere glued_pair s.
Proof.
  intros (a & b & E & w1 & w & w3 & c & r & H & _).
  exists a, b. split; auto. now exists w1, w, w3, c, r.
Qed.

(** *** The declaration mark and its loose form *)

Lemma loose_head (c : ascii) (r : text) : loose_mark (c :: r) -> c = "P"%char.
Proof. intros (w & r0 & [= -> _] & _). reflexivity. Qed.

Lemma loose_nil : ~ loose_mark [].
Proof. intros (w & r0 & [=] & _). Qed.

Lemma loose_ext (b t : text) : loose_mark b -> loose_mark (b ++ t).
Proof.
  intros (w & r & -> & Hw). exists w, (r ++ t). split; auto.
  now rewrite <- !app_assoc.
Qed.

Lemma mark_is_loose (b : text) : starts PREFIX_MARK b -> loose_mark b.
Proof.
  intros (r & ->). exists [SPACE], r. repeat split; auto. discriminate.
Qed.

Lemma loose_reflects (s s' : text) :
  edit s s' -> anywhere loose_mark s' -> anywhere loose_mark s.
Proof.
  apply edit_reflects.
  - apply loose_nil.
  - intros c t Hc H. apply loose_head in H. subst c. discriminate.
  - intros s0 s0' He (w' & r' & -> & Hne & Hw').
    destruct (@edit_peel_word (lit "PREFIX") eq_refl _ _ He)
      as (s1 & -> & H1).
    change (lit "progettoMuseo:" ++ r')
      with ("p"%char :: lit "rogettoMuseo:" ++ r') in H1.
    destruct (@edit_walk "p"%char (lit "rogettoMuseo:" ++ r') eq_refl)
      with (ws' := w') (s := s1)
      as (ws & r1 & -> & Hws & H2 & Hkeep); auto; try discriminate.
    destruct (@edit_peel_word (lit "rogettoMuseo:") eq_refl _ _ H2)
      as (r & -> & _).
    exists ws, r. repeat split; auto.
  - apply tails_any.
    + intros b t Hin H. unfold inserted_tails in Hin. cbn [In] in Hin.
      repeat (destruct Hin as [<- | Hin];
              [apply loose_head in H; discriminate|]).
      destruct Hin.
    + intros c t Hc H. apply loose_head in H. subst c. discriminate.
Qed.

(** *** Kept text *)

Lemma tidy_last (k : text) :
  forall b, tidy_from b k = true -> k <> [] ->
            exists k0 d, k = k0 ++ [d] /\ is_space d = false.
Proof.
  induction k as [|c k IH]; intros b Ht Hne; [congruence|].
  destruct k as [|c2 k].
  - exists [], c. split; auto. cbn in Ht.
    destruct (is_space c); auto. rewrite andb_false_r in Ht. discriminate.
  - cbn [tidy_from] in Ht.
    assert (Hk : exists b', tidy_from b' (c2 :: k) = true).
    { destruct (is_space c); eauto.
      apply andb_true_iff in Ht as [_ Ht]. eauto. }
    destruct Hk as (b' & Hk).
    destruct (IH b' Hk) as (k0 & d & E & Hd); [discriminate|].
    exists (c :: k0), d. split; auto. cbn. now rewrite <- E.
Qed.

Lemma strip_keeps (k : text) :
  tidy_from true k = true ->
  forall a r, exists a' r', strip (a ++ k ++ r) = a' ++ k ++ r'.
Proof.
  intros Ht a r. destruct (tidy_from_head _ Ht) as (c & k' & E & Hc).
  destruct (tidy_last k true Ht) as (k0 & d & E0 & Hd); [now subst k|].
  assert (H1 : exists a', lstrip (a ++ k ++ r) = a' ++ k ++ r).
  { rewrite E. cbn [app]. apply lstrip_keep, Hc. }
  destruct H1 as (a' & H1).
  assert (H2 : exists r', rstrip (a' ++ k ++ r) = a' ++ k ++ r').
  { destruct (rstrip_keep k0 d Hd a' r) as (r' & Hr). exists r'.
    rewrite E0, <- !(app_assoc k0). cbn [app]. exact Hr. }
  destruct H2 as (r' & H2).
  exists a', r'. unfold strip. now rewrite H1, H2.
Qed.

Lemma strip_preserves_starts (k : text) (s : text) :
  tidy_from true k = true ->
  anywhere (starts k) s -> anywhere (starts k) (strip s).
Proof.
  intros Ht (a & b & -> & r & ->).
  destruct (strip_keeps k Ht a r) as (a' & r' & ->).
  exists a', (k ++ r'). split; auto. now exists r'.
Qed.

Lemma starts_preserved (k : text) :
  tidy_from true k = true -> no_special k = true ->
  forall s s', edit s s' -> anywhere (starts k) s -> anywhere (starts k) s'.
Proof.
  intros Ht Hs. destruct (tidy_from_head _ Ht) as (c & k' & E & Hc).
  apply edit_preserves.
  - intros (r & Hr). subst k. discriminate.
  - intros x t Hx (r & Hr). subst k. injection Hr as -> _. congruence.
  - intros s s' He (r & ->).
    destruct (edit_keep_tidy k Hs true _ _ Ht He) as (r' & ->).
    now exists r'.
Qed.

Lemma squeeze_preserves_starts (k : text) (s : text) :
  tidy_from true k = true -> no_special k = true ->
  anywhere (starts k) s -> anywhere (starts k) (squeeze s).
Proof.
  intros Ht Hs H. unfold squeeze. apply strip_preserves_starts; auto.
  exact (starts_preserved k Ht Hs _ _ (edit_spaces s) H).
Qed.

(** The head of a text is kept by an edit and by [squeeze], when it is
    tidy and has no special character. *)
Lemma squeeze_keeps_head (k : text) (s : text) :
  tidy_from true k = true -> no_special k = true ->
  exists r', squeeze (k ++ s) = k ++ r'.
Proof.
  intros Ht Hs. unfold squeeze.
  destruct (edit_keep_tidy k Hs true _ _ Ht (edit_spaces (k ++ s)))
    as (r1 & ->).
  destruct (tidy_from_head _ Ht) as (c & k' & Ek & Hc).
  destruct (tidy_last k true Ht) as (k0 & d & E0 & Hd); [now subst k|].
  assert (Hl : lstrip (k ++ r1) = k ++ r1)
    by (rewrite Ek; cbn [app lstrip]; now rewrite Hc).
  assert (H2 : exists r', rstrip (k ++ r1) = k ++ r').
  { destruct (rstrip_keep k0 d Hd [] r1) as (r' & Hr). exists r'.
    rewrite E0, <- !(app_assoc k0). cbn [app]. exact Hr. }
  destruct H2 as (r' & H2). exists r'. unfold strip. now rewrite Hl, H2.
Qed.

(** *** The WHERE keyword in any letter case *)

Lemma contains_upper (s K : text) :
  contains (upper s) K = true <-> anywhere (starts_ci K) s.
Proof.
  induction s as [|c s IH].
  - cbn [upper map contains]. rewrite orb_false_r, anywhere_nil.
    change [] with (upper []) at 1. rewrite startswith_upper.
    unfold starts_ci. reflexivity.
  - cbn [upper map contains]. fold (upper s).
    change (upper_char c :: upper s) with (upper (c :: s)).
    rewrite orb_true_iff, IH, startswith_upper, anywhere_cons.
    unfold starts_ci. reflexivity.
Qed.

Lemma is_special_upper (c : ascii) : is_special (upper_char c) = is_special c.
Proof. destruct c as [[] [] [] [] [] [] [] []]; reflexivity. Qed.

Lemma no_special_upper (k : text) : no_special (upper k) = no_special k.
Proof.
  induction k as [|c k IH]; auto. cbn [upper map no_special forallb].
  fold (upper k). fold (no_special (upper k)). fold (no_special k).
  now rewrite is_special_upper, IH.
Qed.

Section KeptKeyword.

Variable K : text.
Hypothesis K_word : K <> [].
Hypothesis K_solid : no_space K = true.
Hypothesis K_plain : no_special K = true.

Lemma ci_shape (k : text) :
  upper k = K -> k <> [] /\ no_space k = true /\ no_special k = true.
Proof.
  intros E. repeat split.
  - intros ->. now apply K_word.
  - now rewrite <- no_space_upper, E.
  - now rewrite <- no_special_upper, E.
Qed.

Lemma ci_preserved (s s' : text) :
  edit s s' -> anywhere (starts_ci K) s -> anywhere (starts_ci K) s'.
Proof.
  apply edit_preserves.
  - intros (k & r & E & Hk). destruct (ci_shape k Hk) as (Hne & _).
    destruct k; [congruence|discriminate].
  - intros c t Hc (k & r & E & Hk). destruct (ci_shape k Hk) as (Hne & Hn & _).
    destruct k as [|x k]; [congruence|]. injection E as -> _.
    rewrite no_space_cons, Hc in Hn. discriminate.
  - intros s0 s0' He (k & r & -> & Hk).
    destruct (ci_shape k Hk) as (_ & Hn & Hs).
    destruct (edit_keep_word k Hn Hs _ _ He) as (r' & -> & _).
    now exists k, r'.
Qed.

Lemma no_space_ends (k : text) :
  k <> [] -> no_space k = true -> tidy_from true k = true.
Proof.
  intros Hne Hn. rewrite <- (app_nil_r k), tidy_from_word; auto.
Qed.

Lemma ci_squeezed (s : text) :
  anywhere (starts_ci K) s -> anywhere (starts_ci K) (squeeze s).
Proof.
  intros H. apply (ci_preserved _ _ (edit_spaces s)) in H.
  destruct H as (a & b & E & k & r & -> & Hk).
  destruct (ci_shape k Hk) as (Hne & Hn & _).
  unfold squeeze. rewrite E.
  destruct (strip_keeps k (no_space_ends k Hne Hn) a r) as (a' & r' & ->).
  exists a', (k ++ r'). split; auto. now exists k, r'.
Qed.

End KeptKeyword.

Lemma add_where_inserts (s : text) :
  anywhere (matches m_add_where) s ->
  anywhere (starts_ci (lit "WHERE")) (re_sub m_add_where s).
Proof.
  revert s.
  apply (@scan_ind m_add_where m_add_where_consuming
           (fun s => anywhere (matches m_add_where) s ->
                     anywhere (starts_ci (lit "WHERE"))
                              (re_sub m_add_where s))).
  - intros H. apply (proj1 (@anywhere_nil (matches m_add_where))) in H.
    exfalso. now apply H.
  - intros c s E IH H. rewrite re_sub_eq, E by auto with scan.
    apply anywhere_cons in H as [H|H]; [exfalso; now apply H|].
    apply (@anywhere_later _ [c]). auto.
  - intros s rep rest E _ _. rewrite re_sub_eq, E by auto with scan.
    apply m_add_where_inv in E as (kw & body & -> & -> & _).
    rewrite <- !app_assoc. do 2 apply anywhere_later. cbn [app].
    apply (@anywhere_later _ [SPACE]). apply anywhere_here.
    exists (lit "WHERE"), (SPACE :: LBRACE :: re_sub m_add_where rest).
    split; reflexivity.
Qed.

(** ** The repair as a whole *)

Lemma repair_unfold (q : text) :
  correct_sparql_syntax_advanced q
  = finish (re_sub m_glue (re_sub m_where (re_sub m_select
      (with_prefix (unwrap_lines q))))).
Proof. reflexivity. Qed.

Lemma edit_with_where (q : text) : edit q (with_where q).
Proof.
  unfold with_where. destruct (negb _); [apply edit_add_where|apply edit_refl].
Qed.

(** A pattern that later edits cannot create is not in the output of
    steps 6 to 9 unless it was in their input. *)
Lemma finish_reflects (occ : text -> Prop) :
  (forall b t, occ b -> occ (b ++ t)) ->
  (forall s s', edit s s' -> anywhere occ s' -> anywhere occ s) ->
  forall q, anywhere occ (finish q) -> anywhere occ q.
Proof.
  intros Hext Href q H. unfold finish in H.
  apply (squeeze_reflects occ Hext Href) in H.
  apply (Href _ _ (edit_with_where _)) in H.
  apply (Href _ _ (edit_dot _)) in H.
  now apply (squeeze_reflects occ Hext Href) in H.
Qed.

Lemma tidy_finish (q : text) : tidy (finish q) = true.
Proof. apply tidy_squeeze. Qed.

(** Two glued pairs in a row after step 4 were in the candidate, and
    step 3 has not separated either: their names do not end in SELECT. *)
Lemma hidden_through_prefix (x : text) :
  ~ anywhere hidden_glue x ->
  ~ anywhere glued_pair
      (re_sub m_where (re_sub m_select (with_prefix (unwrap_lines x)))).
Proof.
  intros Hx (a & b & E & w1 & w & w3 & c & r & Hch).
  set (t2 := with_prefix (unwrap_lines x)) in *.
  assert (Hsel : forall pre k post,
             re_sub m_where (re_sub m_select t2) = pre ++ k ++ QMARK :: post ->
             upper k = lit "SELECT" -> False).
  { intros pre k post Ek Hk. apply (select_cleared t2).
    apply (select_reflects _ _ (edit_where _)).
    exists pre, (k ++ QMARK :: post). split; [exact Ek|].
    exact (m_keyword_make (lit "SELECT") select_follow eq_refl
             select_not_first select_tails k QMARK post Hk eq_refl). }
  assert (Hh : hidden_glue b).
  { exists w1, w, w3, c, r. split; [exact Hch|].
    destruct Hch as (Eb & _). split.
    - intros (a1 & k & -> & Hk).
      apply (Hsel (a ++ lit "progettoMuseo:" ++ a1) k
               (w ++ lit "progettoMuseo:" ++ w3 ++ QMARK :: c :: r));
        [|exact Hk].
      rewrite E, Eb. now rewrite <- !app_assoc.
    - intros (a3 & k & -> & Hk).
      apply (Hsel (a ++ lit "progettoMuseo:" ++ w1 ++ QMARK :: w ++
                   lit "progettoMuseo:" ++ a3) k (c :: r)); [|exact Hk].
      rewrite E, Eb. repeat (rewrite <- ?app_assoc; cbn [app]).
      reflexivity. }
  assert (H : anywhere hidden_glue (re_sub m_where (re_sub m_select t2)))
    by (now exists a, b).
  apply (hidden_reflects _ _ (edit_where _)) in H.
  apply (hidden_reflects _ _ (edit_select _)) in H.
  apply Hx, (hidden_reflects _ _ (edit_unwrap x)).
  unfold t2, with_prefix in H. destruct (negb _); auto.
  change PREFIX_DECL with (PREFIX_HEAD ++ [SPACE]) in H.
  revert H. apply (anywhere_past hidden_glue QMARK).
  - intros b0 (v1 & v & v3 & c0 & r0 & Hc0 & _).
    destruct (chain_prefix _ _ _ _ _ _ Hc0) as (k & -> & Hk & Hin & _).
    now exists k, r0.
  - apply not_in_text. reflexivity.
Qed.

Lemma m_select_token : token_pattern m_select.
Proof.
  exact (m_keyword_token (lit "SELECT") select_follow eq_refl
           select_follow_special select_not_first select_tails).
Qed.

Lemma m_where_token : token_pattern m_where.
Proof.
  intros s H. unfold matches in H. rewrite m_where_keyword in H.
  destruct (m_keyword_token (lit "WHERE") where_follow eq_refl
              where_follow_special where_not_first where_tails s H)
    as (k & r & E & Hk & Hn & Hm).
  exists k, r. repeat split; auto. intros r'. unfold matches.
  rewrite m_where_keyword. apply Hm.
Qed.

Lemma mark_tidy : tidy_from true PREFIX_MARK = true.
Proof. reflexivity. Qed.

Lemma mark_plain : no_special PREFIX_MARK = true.
Proof. reflexivity. Qed.

Lemma head_tidy : tidy_from true PREFIX_HEAD = true.
Proof. reflexivity. Qed.

Lemma head_plain : no_special PREFIX_HEAD = true.
Proof. reflexivity. Qed.

(** A text kept by edits and by [squeeze] is kept by steps 6 to 9. *)
Lemma finish_preserves_starts (k q : text) :
  tidy_from true k = true -> no_special k = true ->
  anywhere (starts k) q -> anywhere (starts k) (finish q).
Proof.
  intros Ht Hs H. unfold finish.
  apply squeeze_preserves_starts; auto.
  apply (starts_preserved k Ht Hs _ _ (edit_with_where _)).
  apply (starts_preserved k Ht Hs _ _ (edit_dot _)).
  now apply squeeze_preserves_starts.
Qed.

Section Output.

Variable x : text.

Let t2 := with_prefix (unwrap_lines x).
Let t3 := re_sub m_select t2.
Let t4 := re_sub m_where t3.
Let t5 := re_sub m_glue t4.
Let y := correct_sparql_syntax_advanced x.

Lemma output_eq : y = finish t5.
Proof. reflexivity. Qed.

Lemma output_tidy : tidy y = true.
Proof. apply tidy_finish. Qed.

Lemma output_no_select : ~ anywhere (matches m_select) y.
Proof.
  intros H. rewrite output_eq in H.
  apply (finish_reflects _ (token_ext _ m_select_token) select_reflects) in H.
  apply (select_reflects _ _ (edit_glue _)) in H.
  apply (select_reflects _ _ (edit_where _)) in H.
  revert H. apply select_cleared.
Qed.

Lemma output_no_where : ~ anywhere (matches m_where) y.
Proof.
  intros H. rewrite output_eq in H.
  apply (finish_reflects _ (token_ext _ m_where_token) where_reflects) in H.
  apply (where_reflects _ _ (edit_glue _)) in H.
  revert H. apply where_cleared.
Qed.

Lemma output_no_glue :
  ~ anywhere hidden_glue x -> ~ anywhere (matches m_glue) y.
Proof.
  intros Hx H. rewrite output_eq in H.
  apply (finish_reflects _ (token_ext _ m_glue_token) glue_reflects) in H.
  revert H. apply pair_cleared. now apply hidden_through_prefix.
Qed.

Lemma output_no_dot : ~ anywhere (matches m_dot) y.
Proof.
  intros H. rewrite output_eq in H. unfold finish in H.
  apply (squeeze_reflects _ dot_ext dot_reflects) in H.
  apply (dot_reflects _ _ (edit_with_where _)) in H.
  revert H. apply dot_cleared.
Qed.

Lemma prefixed_has_mark : anywhere (starts PREFIX_MARK) t2.
Proof.
  unfold t2, with_prefix.
  destruct (contains (unwrap_lines x) PREFIX_MARK) eqn:E; cbn [negb].
  - now apply contains_starts.
  - apply anywhere_here. eexists. reflexivity.
Qed.

Lemma output_has_mark : contains y PREFIX_MARK = true.
Proof.
  apply contains_starts. rewrite output_eq.
  apply finish_preserves_starts; [apply mark_tidy|apply mark_plain|].
  apply (starts_preserved _ mark_tidy mark_plain _ _ (edit_glue _)).
  apply (starts_preserved _ mark_tidy mark_plain _ _ (edit_where _)).
  apply (starts_preserved _ mark_tidy mark_plain _ _ (edit_select _)).
  apply prefixed_has_mark.
Qed.

(** Step 8 has nothing left to do on the output. *)
Lemma output_where_done : with_where y = y.
Proof.
  rewrite output_eq. unfold finish.
  set (t7 := re_sub m_dot (squeeze t5)).
  assert (Ht7 : tidy t7 = true) by (apply tidy_dot, tidy_squeeze).
  destruct (contains (upper t7) (lit "WHERE")) eqn:E.
  - assert (E8 : with_where t7 = t7) by (unfold with_where; now rewrite E).
    rewrite E8, (tidy_fixed _ Ht7). exact E8.
  - assert (E8 : with_where t7 = re_sub m_add_where t7)
      by (unfold with_where; now rewrite E).
    rewrite E8. destruct (has_match m_add_where t7) eqn:Em.
    + apply has_match_spec, add_where_inserts in Em.
      apply (ci_squeezed (lit "WHERE")) in Em;
        [|discriminate|reflexivity|reflexivity].
      apply contains_upper in Em. unfold with_where. now rewrite Em.
    + assert (Hno : ~ anywhere (matches m_add_where) t7).
      { intros H. apply has_match_spec in H. congruence. }
      rewrite (re_sub_noop _ _ m_add_where_consuming Hno).
      rewrite (tidy_fixed _ Ht7), E8.
      exact (re_sub_noop _ _ m_add_where_consuming Hno).
Qed.

End Output.

(** A text with the properties of an output is left alone by the
    repair. *)
Lemma repair_fixed (y : text) :
  tidy y = true -> contains y PREFIX_MARK = true ->
  ~ anywhere (matches m_select) y -> ~ anywhere (matches m_where) y ->
  ~ anywhere (matches m_glue) y -> ~ anywhere (matches m_dot) y ->
  with_where y = y ->
  correct_sparql_syntax_advanced y = y.
Proof.
  intros Ht Hm Hs Hw Hg Hd H8. rewrite repair_unfold.
  rewrite (tidy_unwrap _ Ht). unfold with_prefix. rewrite Hm. cbn [negb].
  rewrite (re_sub_noop _ _ m_select_consuming Hs).
  rewrite (re_sub_noop _ _ m_where_consuming Hw).
  rewrite (re_sub_noop _ _ m_glue_consuming Hg).
  unfold finish. rewrite (tidy_fixed _ Ht).
  rewrite (re_sub_noop _ _ m_dot_consuming Hd).
  rewrite H8. apply (tidy_fixed _ Ht).
Qed.

(** ** C6: idempotence *)

(** C6 fails as stated: after one repair the text below still has a
    property name glued to a variable, which a second repair splits. *)
Lemma repair_twice_differs :
  let x := lit "progettoMuseo:a?progettoMuseo:b?c" in
  correct_sparql_syntax_advanced x
  = PREFIX_DECL ++ lit "progettoMuseo:a ?progettoMuseo:b?c" /\
  correct_sparql_syntax_advanced (correct_sparql_syntax_advanced x)
  = PREFIX_DECL ++ lit "progettoMuseo:a ?progettoMuseo:b ?c" /\
  correct_sparql_syntax_advanced (correct_sparql_syntax_advanced x)
  <> correct_sparql_syntax_advanced x.
Proof. vm_compute. repeat split. discriminate. Qed.

(** C6, amended: the repair is idempotent on every text that nowhere has
    two glued pairs in a row which step 3 leaves alone, that is
    [progettoMuseo:], word characters, [?], word characters that end in
    [progettoMuseo], a colon, word characters, [?] and a word character,
    where neither of the two runs before a [?] ends in SELECT (in any
    letter case). *)
Theorem repair_idempotent (x : text) :
  ~ anywhere hidden_glue x ->
  correct_sparql_syntax_advanced (correct_sparql_syntax_advanced x)
  = correct_sparql_syntax_advanced x.
Proof.
  intros Hx. apply repair_fixed.
  - apply output_tidy.
  - apply output_has_mark.
  - apply output_no_select.
  - apply output_no_where.
  - now apply output_no_glue.
  - apply output_no_dot.
  - apply output_where_done.
Qed.

Lemma repair_idempotent_witness :
  let x := lit "SELECT?a{ ?progettoMuseo:x progettoMuseo:autoreOpera?a}" in
  correct_sparql_syntax_advanced x
  = PREFIX_DECL ++
    lit "SELECT ?a WHERE { ?progettoMuseo:x progettoMuseo:autoreOpera ?a . }"
  /\ correct_sparql_syntax_advanced (correct_sparql_syntax_advanced x)
     = correct_sparql_syntax_advanced x.
Proof.
  intros x. split; [vm_compute; reflexivity|].
  apply (repair_idempotent x). intros H.
  apply hidden_is_pair, has_pair_complete in H. vm_compute in H.
  discriminate.
Defined.

(** ** C7: the prepended declaration *)

Lemma squeeze_tail (c : ascii) (t : text) :
  is_space c = false ->
  squeeze (c :: t) = c :: rstrip (re_sub m_spaces t).
Proof.
  intros Hc. unfold squeeze, strip.
  rewrite re_sub_eq, m_spaces_none by auto with scan.
  cbn [lstrip]. rewrite Hc, rstrip_cons, all_space_cons, Hc. reflexivity.
Qed.

Lemma rstrip_reflects (occ : text -> Prop) (s : text) :
  (forall b t, occ b -> occ (b ++ t)) ->
  anywhere occ (rstrip s) -> anywhere occ s.
Proof.
  intros Hext (a & b & E & H). destruct (rstrip_sub s) as (w & Es & _).
  exists a, (b ++ w). split; auto. now rewrite Es, E, app_assoc.
Qed.

Lemma solo_edit (t t' : text) : edit t t' -> solo t -> solo t'.
Proof.
  intros He (a & -> & Ha).
  destruct (@edit_keep "P"%char a t' He) as (b & -> & Hb);
    try discriminate; try reflexivity.
  exists b. split; auto. intros H. apply Ha.
  exact (loose_reflects _ _ Hb H).
Qed.

Lemma solo_squeeze (t : text) : solo t -> solo (squeeze t).
Proof.
  intros (a & -> & Ha). rewrite squeeze_tail by reflexivity.
  eexists. split; [reflexivity|]. intros H. apply Ha.
  apply (rstrip_reflects _ _ loose_ext) in H.
  exact (loose_reflects _ _ (edit_spaces a) H).
Qed.

Lemma headed_edit (t t' : text) : edit t t' -> headed t -> headed t'.
Proof.
  intros He (r & ->).
  destruct (edit_keep_tidy _ head_plain true _ _ head_tidy He) as (r' & ->).
  now exists r'.
Qed.

Lemma headed_squeeze (t : text) : headed t -> headed (squeeze t).
Proof.
  intros (r & ->).
  destruct (squeeze_keeps_head PREFIX_HEAD r head_tidy head_plain)
    as (r' & ->).
  now exists r'.
Qed.

Lemma solo_once (y : text) :
  solo y -> forall a r, y = a ++ PREFIX_MARK ++ r -> a = [].
Proof.
  intros (y' & -> & Hy) a r E. destruct a as [|c a]; auto.
  exfalso. apply Hy. cbn in E. injection E as _ ->.
  exists a, (PREFIX_MARK ++ r). split; auto.
  apply mark_is_loose. now exists r.
Qed.

Lemma loose_needs_keyword (x : text) :
  anywhere loose_mark x -> contains x (lit "PREFIX") = true.
Proof.
  intros (a & b & -> & w & r & -> & _). apply contains_starts.
  exists a, (lit "PREFIX" ++ w ++ lit "progettoMuseo:" ++ r).
  split; auto. eexists. reflexivity.
Qed.

(** C7 fails as stated: with two spaces after [PREFIX] the candidate does
    not contain the declaration mark, and the output has it twice. *)
Lemma prefix_declared_twice :
  let x := lit "PREFIX  progettoMuseo: <urn:m#> SELECT * { ?s ?p ?o }" in
  contains x PREFIX_MARK = false /\
  exists a r, a <> [] /\
    correct_sparql_syntax_advanced x = PREFIX_MARK ++ a ++ PREFIX_MARK ++ r.
Proof.
  cbv zeta. split; [reflexivity|].
  exists (lit " <http://www.semanticweb.org/lucreziamosca/ontologies/progettoMuseo#> "),
         (lit " <urn:m#> SELECT * WHERE { ?s ?p ?o . }").
  split; [discriminate|]. vm_compute. reflexivity.
Qed.

(** C7, amended: for every candidate in which [PREFIX] is nowhere
    followed by whitespace and then [progettoMuseo:], the output starts
    with the prepended declaration and contains the declaration mark
    [PREFIX progettoMuseo:] at its start only. *)
Theorem prefix_prepended_once (x : text) :
  ~ anywhere loose_mark x ->
  (exists rest, correct_sparql_syntax_advanced x = PREFIX_HEAD ++ rest) /\
  (exists rest, correct_sparql_syntax_advanced x = PREFIX_MARK ++ rest) /\
  (forall a r, correct_sparql_syntax_advanced x = a ++ PREFIX_MARK ++ r ->
               a = []).
Proof.
  intros Hx.
  assert (H1 : ~ anywhere loose_mark (unwrap_lines x)).
  { intros H. apply Hx. exact (loose_reflects _ _ (edit_unwrap x) H). }
  assert (E2 : with_prefix (unwrap_lines x) = PREFIX_DECL ++ unwrap_lines x).
  { unfold with_prefix.
    destruct (contains (unwrap_lines x) PREFIX_MARK) eqn:E; [|reflexivity].
    exfalso. apply H1. apply contains_starts in E.
    destruct E as (a & b & E & Hb). exists a, b. split; auto.
    now apply mark_is_loose. }
  assert (Hsolo : solo (with_prefix (unwrap_lines x))).
  { rewrite E2. exists (tl PREFIX_DECL ++ unwrap_lines x).
    split; [reflexivity|]. intros H. apply H1.
    revert H. apply (anywhere_skip loose_mark "P"%char (tl PREFIX_DECL)).
    - apply loose_head.
    - apply loose_nil.
    - apply not_in_text. reflexivity. }
  assert (Hhead : headed (with_prefix (unwrap_lines x))).
  { rewrite E2. exists (SPACE :: unwrap_lines x). reflexivity. }
  assert (Hy : solo (correct_sparql_syntax_advanced x) /\
               headed (correct_sparql_syntax_advanced x)).
  { rewrite repair_unfold. unfold finish. split.
    - apply solo_squeeze. eapply solo_edit; [apply edit_with_where|].
      eapply solo_edit; [apply edit_dot|]. apply solo_squeeze.
      eapply solo_edit; [apply edit_glue|].
      eapply solo_edit; [apply edit_where|].
      eapply solo_edit; [apply edit_select|]. exact Hsolo.
    - apply headed_squeeze. eapply headed_edit; [apply edit_with_where|].
      eapply headed_edit; [apply edit_dot|]. apply headed_squeeze.
      eapply headed_edit; [apply edit_glue|].
      eapply headed_edit; [apply edit_where|].
      eapply headed_edit; [apply edit_select|]. exact Hhead. }
  destruct Hy as [Hs (rest & Hh)]. split; [now exists rest|]. split.
  - rewrite Hh. eexists. unfold PREFIX_HEAD, PREFIX_MARK, lit.
    cbn [list_ascii_of_string app]. reflexivity.
  - now apply solo_once.
Qed.

Lemma prefix_prepended_once_witness :
  let x := lit "SELECT ?autore { progettoMuseo:David progettoMuseo:autoreOpera ?autore }" in
  (exists rest, correct_sparql_syntax_advanced x = PREFIX_MARK ++ rest) /\
  (forall a r, correct_sparql_syntax_advanced x = a ++ PREFIX_MARK ++ r ->
               a = []).
Proof.
  intros x. apply (prefix_prepended_once x). intros H.
  apply loose_needs_keyword in H. vm_compute in H. discriminate.
Defined.

(** ** The matchers find their patterns *)

Lemma accepts_class (p : ascii -> bool) (u : text) :
  accepts (Class p) u <-> exists c, u = [c] /\ p c = true.
Proof.
  split.
  - intros H. inversion H; subst. eauto.
  - intros (c & -> & H). now apply acc_class.
Qed.

Lemma accepts_cat (a b : regex) (u : text) :
  accepts (Cat a b) u <->
  exists v w, u = v ++ w /\ accepts a v /\ accepts b w.
Proof.
  split.
  - intros H. inversion H; subst. eauto.
  - intros (v & w & -> & Ha & Hb). now apply acc_cat.
Qed.

Lemma accepts_many1_class (p : ascii -> bool) (u : text) :
  accepts (Many1 (Class p)) u <-> u <> [] /\ forallb p u = true.
Proof.
  split.
  - intros H. remember (Many1 (Class p)) as r eqn:Er.
    induction H; try discriminate; injection Er as ->.
    + apply accepts_class in H as (c & -> & Hc). cbn. rewrite Hc.
      split; [discriminate|reflexivity].
    + apply accepts_class in H as (c & -> & Hc).
      destruct (IHaccepts2 eq_refl) as [_ Hv]. cbn. rewrite Hc, Hv.
      split; [discriminate|reflexivity].
  - intros [Hne H]. induction u as [|c u IH]; [congruence|].
    cbn in H. apply andb_true_iff in H as [Hc Hu].
    destruct u as [|d u].
    + apply acc_many1_one. now apply acc_class.
    + apply (@acc_many1_more (Class p) [c] (d :: u)).
      * now apply acc_class.
      * apply IH; [discriminate|exact Hu].
Qed.

Lemma accepts_many_class (p : ascii -> bool) (u : text) :
  accepts (Many (Class p)) u <-> forallb p u = true.
Proof.
  split.
  - intros H. remember (Many (Class p)) as r eqn:Er.
    induction H; try discriminate; injection Er as ->; auto.
    apply accepts_class in H as (c & -> & Hc). cbn.
    now rewrite Hc, (IHaccepts2 eq_refl).
  - intros H. induction u as [|c u IH]; [apply acc_many_nil|].
    cbn in H. apply andb_true_iff in H as [Hc Hu].
    apply (@acc_many_more (Class p) [c] u); auto. now apply acc_class.
Qed.

Lemma accepts_word_lit (K u : text) : accepts (word_lit K) u <-> u = K.
Proof.
  revert u. induction K as [|k K IH]; intros u; cbn [word_lit].
  - split; [intros H; now inversion H|intros ->; apply acc_nothing].
  - rewrite accepts_cat. split.
    + intros (v & w & -> & Hv & Hw). apply accepts_class in Hv
        as (c & -> & Hc). apply Ascii.eqb_eq in Hc. subst c.
      apply IH in Hw. now subst.
    + intros ->. exists [k], K. repeat split.
      * apply acc_class, Ascii.eqb_refl.
      * now apply IH.
Qed.

Lemma accepts_word_ci (K u : text) : accepts (word_ci K) u <-> upper u = K.
Proof.
  revert u. induction K as [|k K IH]; intros u; cbn [word_ci].
  - split.
    + intros H. now inversion H.
    + intros H. destruct u; [apply acc_nothing|discriminate].
  - rewrite accepts_cat. split.
    + intros (v & w & -> & Hv & Hw). apply accepts_class in Hv
        as (c & -> & Hc). apply Ascii.eqb_eq in Hc.
      apply IH in Hw. cbn. now rewrite <- Hc, <- Hw.
    + intros H. destruct u as [|c u]; [discriminate|].
      injection H as Hc Hu. exists [c], u. repeat split.
      * apply acc_class. rewrite Hc. apply Ascii.eqb_refl.
      * now apply IH.
Qed.

Lemma run_unique (p : ascii -> bool) (a b x y : text) :
  forallb p a = true -> forallb p b = true -> a ++ x = b ++ y ->
  match x with [] => True | c :: _ => p c = false end ->
  match y with [] => True | c :: _ => p c = false end ->
  a = b /\ x = y.
Proof.
  intros Ha Hb E Hx Hy.
  assert (E1 := span_run p a x Ha Hx). assert (E2 := span_run p b y Hb Hy).
  rewrite E, E2 in E1. now injection E1 as -> ->.
Qed.

Lemma run_shorter (p : ascii -> bool) (a : text) :
  forallb p a = true ->
  forall b x y, a ++ x = b ++ y ->
    match y with [] => True | c :: _ => p c = false end ->
    List.length a <= List.length b.
Proof.
  induction a as [|c a IH]; intros Ha b x y E Hy; cbn; [lia|].
  cbn in Ha. apply andb_true_iff in Ha as [Hc Ha].
  destruct b as [|d b]; cbn in E.
  - subst y. congruence.
  - injection E as _ E. cbn. specialize (IH Ha _ _ _ E Hy). lia.
Qed.

Lemma accepts_keyword (K : text) (follow : ascii -> bool) (u : text) :
  accepts (Cat (word_ci K) (Class follow)) u <->
  exists kw c, u = kw ++ [c] /\ upper kw = K /\ follow c = true.
Proof.
  rewrite accepts_cat. split.
  - intros (v & w & -> & Hv & Hw). apply accepts_word_ci in Hv.
    apply accepts_class in Hw as (c & -> & Hc). eauto.
  - intros (kw & c & -> & Hk & Hc). exists kw, [c]. repeat split.
    + now apply accepts_word_ci.
    + now apply acc_class.
Qed.

Lemma finds_keyword (K : text) (follow : ascii -> bool) :
  finds (m_keyword K follow) (Cat (word_ci K) (Class follow)).
Proof.
  intros s. destruct (m_keyword K follow s) as [[rep rest]|] eqn:E.
  - unfold m_keyword in E.
    destruct (take_ci K s) as [[kw [|c r]]|] eqn:Et; try discriminate.
    destruct (follow c) eqn:Ec; [|discriminate]. injection E as _ <-.
    apply take_ci_app in Et as [-> Hk].
    exists (kw ++ [c]). split; [now rewrite <- app_assoc|]. split.
    + apply accepts_keyword. eauto.
    + intros u' r' _ H. apply accepts_keyword in H as (kw' & c' & -> & Hk' & _).
      rewrite !length_app, <- (upper_length kw), <- (upper_length kw'), Hk, Hk'.
      cbn [List.length]. lia.
  - intros u r -> H. apply accepts_keyword in H as (kw & c & -> & Hk & Hc).
    unfold m_keyword in E. rewrite <- Hk, <- app_assoc in E. cbn [app] in E.
    rewrite take_ci_make, Hc in E. discriminate.
Qed.

Lemma finds_select : finds m_select p_select.
Proof. exact (finds_keyword (lit "SELECT") select_follow). Qed.

Lemma finds_where : finds m_where p_where.
Proof.
  intros s. rewrite m_where_keyword.
  exact (finds_keyword (lit "WHERE") where_follow s).
Qed.

Lemma accepts_glue (u : text) :
  accepts p_glue u <->
  exists w1 w2, u = lit "progettoMuseo:" ++ w1 ++ QMARK :: w2 /\
                w1 <> [] /\ forallb is_word w1 = true /\
                w2 <> [] /\ forallb is_word w2 = true.
Proof.
  unfold p_glue. rewrite accepts_cat. split.
  - intros (v & w & -> & Hv & Hw). apply accepts_word_lit in Hv. subst v.
    apply accepts_cat in Hw as (w1 & w' & -> & H1 & Hw).
    apply accepts_many1_class in H1 as [H1 H1'].
    apply accepts_cat in Hw as (q & w2 & -> & Hq & H2).
    apply accepts_class in Hq as (c & -> & Hc). apply Ascii.eqb_eq in Hc.
    subst c. apply accepts_many1_class in H2 as [H2 H2'].
    exists w1, w2. auto.
  - intros (w1 & w2 & -> & H1 & H1' & H2 & H2').
    exists (lit "progettoMuseo:"), (w1 ++ QMARK :: w2). repeat split.
    + now apply accepts_word_lit.
    + apply acc_cat; [now apply accepts_many1_class|].
      apply (@acc_cat _ _ [QMARK] w2).
      * apply acc_class, Ascii.eqb_refl.
      * now apply accepts_many1_class.
Qed.

Lemma finds_glue : finds m_glue p_glue.
Proof.
  intros s. destruct (m_glue s) as [[rep rest]|] eqn:E.
  - apply m_glue_inv in E as (w1 & w2 & -> & _ & H1 & H2 & Hw1 & Hw2 & Hr).
    exists (lit "progettoMuseo:" ++ w1 ++ QMARK :: w2). split.
    { now rewrite <- !app_assoc. }
    split.
    + apply accepts_glue. exists w1, w2. auto.
    + intros u' r' E H.
      apply accepts_glue in H as (w1' & w2' & -> & _ & Hw1' & _ & Hw2').
      rewrite <- !app_assoc in E. apply app_inv_head in E. cbn [app] in E.
      destruct (run_unique is_word w1 w1' _ _ Hw1 Hw1' E eq_refl eq_refl)
        as [<- E2].
      injection E2 as E2. symmetry in E2.
      assert (Hl := run_shorter is_word w2' Hw2' _ _ _ E2 Hr).
      rewrite !length_app. cbn [List.length]. lia.
  - intros u r -> H.
    apply accepts_glue in H as (w1 & w2 & -> & H1 & Hw1 & H2 & Hw2).
    destruct w2 as [|c2 w2]; [congruence|]. cbn in Hw2.
    apply andb_true_iff in Hw2 as [Hc2 _].
    assert (Hm := m_glue_make w1 c2 (w2 ++ r) H1 Hw1 Hc2).
    apply Hm. rewrite <- E. now rewrite <- !app_assoc.
Qed.

Lemma finds_spaces : finds m_spaces p_spaces.
Proof.
  intros s. destruct (m_spaces s) as [[rep rest]|] eqn:E.
  - apply m_spaces_inv in E as (w & -> & _ & Hne & Hw & Hr).
    exists w. split; auto. split.
    + now apply accepts_many1_class.
    + intros u' r' E H. apply accepts_many1_class in H as [_ Hu].
      symmetry in E. exact (run_shorter is_space u' Hu _ _ _ E Hr).
  - intros u r -> H. apply accepts_many1_class in H as [Hne Hu].
    destruct u as [|c u]; [congruence|]. cbn in Hu.
    apply andb_true_iff in Hu as [Hc _].
    now apply (m_spaces_some c (u ++ r)) in Hc.
Qed.

Lemma accepts_dot (u : text) :
  accepts p_dot u <->
  exists w sp, u = QMARK :: w ++ sp ++ [RBRACE] /\
               w <> [] /\ forallb is_word w = true /\ all_space sp = true.
Proof.
  unfold p_dot. rewrite accepts_cat. split.
  - intros (q & v & -> & Hq & Hv).
    apply accepts_class in Hq as (c & -> & Hc). apply Ascii.eqb_eq in Hc.
    subst c. apply accepts_cat in Hv as (w & v' & -> & Hw & Hv).
    apply accepts_many1_class in Hw as [Hw Hw'].
    apply accepts_cat in Hv as (sp & b & -> & Hsp & Hb).
    apply accepts_many_class in Hsp.
    apply accepts_class in Hb as (c & -> & Hc). apply Ascii.eqb_eq in Hc.
    subst c. exists w, sp. auto.
  - intros (w & sp & -> & Hw & Hw' & Hsp).
    exists [QMARK], (w ++ sp ++ [RBRACE]). repeat split.
    + apply acc_class, Ascii.eqb_refl.
    + apply acc_cat; [now apply accepts_many1_class|].
      apply acc_cat; [now apply accepts_many_class|].
      apply acc_class, Ascii.eqb_refl.
Qed.

Lemma space_not_word (c : ascii) : is_space c = true -> is_word c = false.
Proof. destruct c as [[] [] [] [] [] [] [] []]; auto; discriminate. Qed.

Lemma after_word (sp : text) (t : text) :
  all_space sp = true ->
  match sp ++ RBRACE :: t with
  | [] => True
  | c :: _ => is_word c = false
  end.
Proof.
  intros H. destruct sp as [|x sp]; cbn; auto.
  rewrite all_space_cons in H. apply andb_true_iff in H as [Hx _].
  now apply space_not_word.
Qed.

Lemma finds_dot : finds m_dot p_dot.
Proof.
  intros s. destruct (m_dot s) as [[rep rest]|] eqn:E.
  - apply m_dot_inv in E as (w & sp & -> & _ & Hne & Hw & Hsp).
    exists (QMARK :: w ++ sp ++ [RBRACE]). split.
    { cbn. now rewrite <- !app_assoc. }
    split.
    + apply accepts_dot. exists w, sp. auto.
    + intros u' r' E H.
      apply accepts_dot in H as (w' & sp' & -> & _ & Hw' & Hsp').
      cbn in E. injection E as E. rewrite <- !app_assoc in E. cbn [app] in E.
      destruct (run_unique is_word w w' _ _ Hw Hw' E
                  (after_word sp rest Hsp) (after_word sp' r' Hsp'))
        as [<- E2].
      destruct (run_unique is_space sp sp' _ _ Hsp Hsp' E2 eq_refl eq_refl)
        as [<- _].
      lia.
  - intros u r -> H.
    apply accepts_dot in H as (w & sp & -> & Hne & Hw & Hsp).
    assert (Hm := m_dot_make w sp r Hne Hw Hsp). apply Hm. rewrite <- E.
    cbn. now rewrite <- !app_assoc.
Qed.

Lemma accepts_add_where (u : text) :
  accepts p_add_where u <->
  exists kw ws body,
    u = kw ++ ws ++ body ++ [LBRACE] /\ upper kw = lit "SELECT" /\
    ws <> [] /\ all_space ws = true /\
    body <> [] /\ forallb not_lbrace body = true.
Proof.
  unfold p_add_where. rewrite accepts_cat. split.
  - intros (kw & v & -> & Hk & Hv). apply accepts_word_ci in Hk.
    apply accepts_cat in Hv as (ws & v' & -> & Hws & Hv).
    apply accepts_many1_class in Hws as [Hws Hws'].
    apply accepts_cat in Hv as (body & b & -> & Hb & Hc).
    apply accepts_many1_class in Hb as [Hb Hb'].
    apply accepts_class in Hc as (c & -> & Hc). apply Ascii.eqb_eq in Hc.
    subst c. exists kw, ws, body. auto 7.
  - intros (kw & ws & body & -> & Hk & Hws & Hws' & Hb & Hb').
    exists kw, (ws ++ body ++ [LBRACE]). repeat split.
    + now apply accepts_word_ci.
    + apply acc_cat; [now apply accepts_many1_class|].
      apply acc_cat; [now apply accepts_many1_class|].
      apply acc_class, Ascii.eqb_refl.
Qed.

Lemma space_not_lbrace (w : text) :
  all_space w = true -> forallb not_lbrace w = true.
Proof.
  intros H. apply forallb_forall. intros c Hc.
  unfold all_space in H. rewrite forallb_forall in H. specialize (H c Hc).
  unfold not_lbrace. destruct (Ascii.eqb_spec c LBRACE) as [->|]; auto.
Qed.

Lemma finds_add_where : finds m_add_where p_add_where.
Proof.
  intros s. unfold m_add_where.
  destruct (take_ci (lit "SELECT") s) as [[kw r]|] eqn:Et.
  - apply take_ci_app in Et as [-> Hk].
    destruct (span (fun c => negb (Ascii.eqb c (ch "{"))) r)
      as [body0 post] eqn:Es.
    change (fun c => negb (Ascii.eqb c (ch "{"))) with not_lbrace in Es.
    apply span_spec in Es as (-> & Hb0 & Hpost).
    assert (Hno : forall u r',
              kw ++ body0 ++ post = u ++ r' -> accepts p_add_where u ->
              exists w w' b rest,
                body0 = w :: w' :: b /\ post = LBRACE :: rest /\
                is_space w = true /\ r' = rest).
    { intros u r' E H.
      apply accepts_add_where in H
        as (kw' & ws & body & -> & Hk' & Hws & Hws' & Hb & Hb').
      rewrite <- !app_assoc in E. cbn [app] in E.
      assert (Hl : List.length kw = List.length kw')
        by now rewrite <- (upper_length kw), <- (upper_length kw'), Hk, Hk'.
      apply app_eq_app in E as [l [[-> E] | [-> E]]].
      - rewrite length_app in Hl. destruct l; [|cbn in Hl; lia].
        cbn [app] in E. rewrite (app_assoc ws) in E.
        assert (Hwb : forallb not_lbrace (ws ++ body) = true)
          by now rewrite forallb_app, (space_not_lbrace ws Hws'), Hb'.
        destruct (run_unique not_lbrace body0 (ws ++ body) _ _ Hb0 Hwb
                    (eq_sym E) Hpost eq_refl) as [-> ->].
        destruct ws as [|w ws]; [congruence|].
        rewrite all_space_cons in Hws'.
        apply andb_true_iff in Hws' as [Hw _].
        destruct ws as [|w' ws]; cbn [app].
        + destruct body as [|w' body]; [congruence|].
          exists w, w', body, r'. auto.
        + exists w, w', (ws ++ body), r'. auto.
      - rewrite length_app in Hl. destruct l; [|cbn in Hl; lia].
        rewrite app_nil_r in *. cbn [app] in E. rewrite (app_assoc ws) in E.
        assert (Hwb : forallb not_lbrace (ws ++ body) = true)
          by now rewrite forallb_app, (space_not_lbrace ws Hws'), Hb'.
        destruct (run_unique not_lbrace body0 (ws ++ body) _ _ Hb0 Hwb
                    E Hpost eq_refl) as [-> ->].
        destruct ws as [|w ws]; [congruence|].
        rewrite all_space_cons in Hws'.
        apply andb_true_iff in Hws' as [Hw _].
        destruct ws as [|w' ws]; cbn [app].
        + destruct body as [|w' body]; [congruence|].
          exists w, w', body, r'. auto.
        + exists w, w', (ws ++ body), r'. auto. }
    destruct body0 as [|w [|w' b]]; try (destruct post as [|c0 rest]);
      try (intros u r' E H;
           destruct (Hno u r' E H) as (? & ? & ? & ? & [=] & _); fail);
      try (intros u r' E H;
           destruct (Hno u r' E H) as (? & ? & ? & ? & _ & [=] & _); fail).
    destruct (is_space w) eqn:Hw.
    + cbn in Hpost. apply negb_false_iff, Ascii.eqb_eq in Hpost. subst c0.
      exists (kw ++ (w :: w' :: b) ++ [LBRACE]). split.
      { now rewrite <- !app_assoc. }
      split.
      * apply accepts_add_where. exists kw, [w], (w' :: b).
        cbn in Hb0. apply andb_true_iff in Hb0 as [_ Hb0].
        repeat split; auto; try discriminate.
        now rewrite all_space_cons, Hw.
      * intros u' r' E H. destruct (Hno u' r' E H)
          as (x1 & x2 & x3 & x4 & _ & [= <-] & _ & ->).
        apply (f_equal (@List.length ascii)) in E.
        rewrite !length_app in *. cbn [List.length] in *. lia.
    + intros u r' E H.
      destruct (Hno u r' E H) as (? & ? & ? & ? & [= <- _ _] & _ & Hx & _).
      congruence.
  - intros u r -> H.
    apply accepts_add_where in H as (kw & ws & body & -> & Hk & _).
    rewrite <- Hk, <- app_assoc, take_ci_make in Et. discriminate.
Qed.

(** ** Worked examples *)

(** A no-break space is whitespace and an accented letter is a word
    character, for the repair as for Python. *)
Example repair_squeezes_no_break_space :
  correct_sparql_syntax_advanced
    (lit "SELECT" ++ [NBSP] ++ lit "?a { ?a ?b ?c }")
  = PREFIX_DECL ++ lit "SELECT ?a WHERE { ?a ?b ?c . }".
Proof. vm_compute. reflexivity. Qed.

Example repair_closes_accented_variable :
  correct_sparql_syntax_advanced
    (lit "SELECT ?citt" ++ [A_GRAVE] ++ lit " WHERE { ?o ?p ?citt"
     ++ [A_GRAVE] ++ lit "}")
  = PREFIX_DECL ++ lit "SELECT ?citt" ++ [A_GRAVE]
    ++ lit " WHERE { ?o ?p ?citt" ++ [A_GRAVE] ++ lit " . }".
Proof. vm_compute. reflexivity. Qed.

Example repair_splits_accented_name :
  correct_sparql_syntax_advanced
    (lit "progettoMuseo:" ++ [E_GRAVE] ++ lit "Esposto?s")
  = PREFIX_DECL ++ lit "progettoMuseo:" ++ [E_GRAVE] ++ lit "Esposto ?s".
Proof. vm_compute. reflexivity. Qed.

(** A variable name that ends in the prefix name may begin with an
    accented letter: the second pair is split on the second run only. *)
Example repair_twice_differs_accented :
  let x := lit "progettoMuseo:a?" ++ [E_GRAVE] ++ lit "progettoMuseo:b?c" in
  has_pair x = true /\
  correct_sparql_syntax_advanced x
  = PREFIX_DECL ++ lit "progettoMuseo:a ?" ++ [E_GRAVE]
    ++ lit "progettoMuseo:b?c" /\
  correct_sparql_syntax_advanced (correct_sparql_syntax_advanced x)
  = PREFIX_DECL ++ lit "progettoMuseo:a ?" ++ [E_GRAVE]
    ++ lit "progettoMuseo:b ?c".
Proof. vm_compute. repeat split. Qed.

(** A no-break space after PREFIX hides the declaration from the check of
    step 2 and becomes a space in step 6. *)
Example prefix_declared_twice_no_break_space :
  let x := lit "PREFIX" ++ [NBSP]
           ++ lit "progettoMuseo: <urn:m#> SELECT * { ?s ?p ?o }" in
  contains x PREFIX_MARK = false /\
  correct_sparql_syntax_advanced x
  = PREFIX_DECL ++ lit "PREFIX progettoMuseo: <urn:m#> SELECT * WHERE { ?s ?p ?o . }".
Proof. vm_compute. split; reflexivity. Qed.

Example repair_joins_lines :
  correct_sparql_syntax_advanced
    (lit "SELECT ?a" ++ [LF] ++ lit "WHERE{ ?a ?b ?c}")
  = PREFIX_DECL ++ lit "SELECT ?a WHERE { ?a ?b ?c . }".
Proof. vm_compute. reflexivity. Qed.

Example repair_adds_where :
  correct_sparql_syntax_advanced (lit "select * { ?s ?p ?o}")
  = PREFIX_DECL ++ lit "select * WHERE { ?s ?p ?o . }".
Proof. vm_compute. reflexivity. Qed.

(** Example 14 of the query-synthesis prompt is left as it is. *)
Example repair_keeps_prompt_example :
  let q :=
    PREFIX_DECL ++
    lit "SELECT ?opera WHERE { progettoMuseo:LaNotteStellata ?rel ?info . FILTER(?rel != progettoMuseo:posizioneOpera) } LIMIT 10" in
  correct_sparql_syntax_advanced q = q.
Proof. vm_compute. reflexivity. Qed.

Example render_two_rows :
  render_results
    [ [(lit "autore", Some (lit "Mirone")); (lit "p", None)];
      [(lit "opera", Some (lit "Discobolo"))] ]
  = lit "1) autore=Mirone, p=None" ++ [LF] ++ lit "2) opera=Discobolo".
Proof. vm_compute. reflexivity. Qed.

Example rooms_grouped_in_order :
  map (fun room => (roomName room, map nome (entries room)))
    (stanze_list
       [ [(lit "stanza", Some (lit "http://m#stanzaGrecia"));
          (lit "opera", Some (lit "http://m#Discobolo")); (lit "p", None)];
         [(lit "stanza", Some (lit "http://m#stanzaItalia"));
          (lit "opera", Some (lit "http://m#David")); (lit "p", None)];
         [(lit "stanza", Some (lit "http://m#stanzaGrecia"));
          (lit "opera", Some (lit "AfroditeDiMilo")); (lit "p", None)] ])
  = [ (lit "stanzaGrecia", [lit "Discobolo"; lit "AfroditeDiMilo"]);
      (lit "stanzaItalia", [lit "David"]) ].
Proof. vm_compute. reflexivity. Qed.

(** * Further properties of the code *)

(** ** The shape of a repaired query *)

Lemma tidy_from_plain (s : text) :
  forall b, tidy_from b s = true ->
            forall c, In c s -> is_space c = true -> c = SPACE.
Proof.
  induction s as [|d s IH]; intros b H c Hin Hc; [destruct Hin|].
  cbn [tidy_from] in H. destruct Hin as [->|Hin].
  - rewrite Hc in H. apply andb_true_iff in H as [H _].
    apply andb_true_iff in H as [H _]. now apply Ascii.eqb_eq in H.
  - destruct (is_space d).
    + apply andb_true_iff in H as [_ H]. exact (IH _ H c Hin Hc).
    + exact (IH _ H c Hin Hc).
Qed.

Lemma tidy_from_tail (d : ascii) (s : text) (b : bool) :
  tidy_from b (d :: s) = true -> exists b', tidy_from b' s = true.
Proof.
  cbn [tidy_from]. destruct (is_space d); intros H.
  - apply andb_true_iff in H as [_ H]. eauto.
  - eauto.
Qed.

Lemma tidy_from_no_double (s : text) :
  forall b, tidy_from b s = true ->
            forall a t, s <> a ++ SPACE :: SPACE :: t.
Proof.
  induction s as [|d s IH]; intros b H a t E.
  - now destruct a.
  - destruct a as [|c a]; cbn [app] in E; injection E as -> ->.
    + cbn in H. rewrite andb_false_r in H. discriminate.
    + apply tidy_from_tail in H as [b' H]. exact (IH _ H a t eq_refl).
Qed.

(** X1: a repaired query is one line whose words are separated by single
    spaces: its only whitespace characters are spaces, no two of them are
    adjacent, and it neither starts nor ends with one. *)
Theorem repair_output_single_spaced (x : text) :
  let y := correct_sparql_syntax_advanced x in
  (forall c, In c y -> is_space c = true -> c = SPACE) /\
  (forall a b, y <> a ++ SPACE :: SPACE :: b) /\
  (forall c r, y = c :: r -> is_space c = false) /\
  (forall a c, y = a ++ [c] -> is_space c = false).
Proof.
  intros y. assert (Ht : tidy y = true) by apply output_tidy.
  destruct y as [|c0 y0] eqn:Ey.
  - repeat split.
    + intros c [].
    + intros a b E. now destruct a.
    + discriminate.
    + intros a c E. now destruct a.
  - cbn [tidy] in Ht. repeat split.
    + exact (tidy_from_plain _ _ Ht).
    + exact (tidy_from_no_double _ _ Ht).
    + intros c r [= <- <-]. cbn in Ht.
      destruct (is_space c0); [|reflexivity].
      rewrite andb_false_r in Ht. discriminate.
    + intros a c E.
      destruct (tidy_last _ _ Ht) as (k0 & d & Ek & Hd); [discriminate|].
      rewrite Ek in E. apply app_inj_tail in E as [_ <-]. exact Hd.
Qed.

(** X2: a repaired query always carries the declaration mark of the museum
    prefix, whatever the candidate was; in particular it is never the
    empty string. *)
Theorem repair_output_declares_prefix (x : text) :
  contains (correct_sparql_syntax_advanced x) PREFIX_MARK = true /\
  correct_sparql_syntax_advanced x <> [].
Proof.
  assert (H : contains (correct_sparql_syntax_advanced x) PREFIX_MARK = true)
    by apply output_has_mark.
  split; [exact H|]. intros E. rewrite E in H. discriminate.
Qed.

Lemma m_add_where_make (kw : text) (sp : ascii) (body r : text) :
  upper kw = lit "SELECT" -> is_space sp = true -> body <> [] ->
  ~ In LBRACE body ->
  matches m_add_where (kw ++ sp :: body ++ LBRACE :: r).
Proof.
  intros Hk Hs Hb Hn. unfold matches, m_add_where.
  rewrite <- Hk, take_ci_make.
  change (sp :: body ++ LBRACE :: r) with ((sp :: body) ++ LBRACE :: r).
  rewrite (span_run _ (sp :: body) (LBRACE :: r)).
  - destruct body as [|b0 body]; [congruence|]. rewrite Hs. discriminate.
  - cbn [forallb]. apply andb_true_iff. split.
    + destruct (Ascii.eqb_spec sp (ch "{")) as [->|]; [discriminate|].
      reflexivity.
    + apply forallb_forall. intros c Hc.
      destruct (Ascii.eqb_spec c (ch "{")) as [->|]; [contradiction|].
      reflexivity.
  - reflexivity.
Qed.

(** X3: in a repaired query the keyword SELECT, in any letter case, is
    never directly followed by [?] or [*], and the keyword WHERE never
    directly by an opening brace. *)
Theorem repair_output_spaces_keywords (x a kw : text) (c : ascii)
    (r : text) :
  correct_sparql_syntax_advanced x = a ++ kw ++ c :: r ->
  (upper kw = lit "SELECT" -> c <> QMARK /\ c <> STAR) /\
  (upper kw = lit "WHERE" -> c <> LBRACE).
Proof.
  intros E. split.
  - intros Hk.
    assert (Hno : select_follow c = false).
    { destruct (select_follow c) eqn:Hf; [|reflexivity]. exfalso.
      apply (output_no_select x). exists a, (kw ++ c :: r). split; [exact E|].
      exact (m_keyword_make (lit "SELECT") select_follow eq_refl
               select_not_first select_tails kw c r Hk Hf). }
    unfold select_follow in Hno. apply orb_false_iff in Hno as [H1 H2].
    split; intros ->; discriminate.
  - intros Hk Hc. subst c.
    apply (output_no_where x). exists a, (kw ++ LBRACE :: r).
    split; [exact E|]. unfold matches. rewrite m_where_keyword.
    exact (m_keyword_make (lit "WHERE") where_follow eq_refl
             where_not_first where_tails kw LBRACE r Hk eq_refl).
Qed.

Lemma repair_output_spaces_keywords_witness :
  let x := lit "select*{ ?s ?p ?o }" in
  correct_sparql_syntax_advanced x
  = PREFIX_DECL ++ lit "select" ++ SPACE :: lit "* WHERE { ?s ?p ?o . }"
  /\ SPACE <> QMARK /\ SPACE <> STAR.
Proof.
  intros x. split; [vm_compute; reflexivity|].
  apply (repair_output_spaces_keywords x PREFIX_DECL (lit "select") SPACE
           (lit "* WHERE { ?s ?p ?o . }")); vm_compute; reflexivity.
Defined.

(** X4: in a repaired query no variable stands, directly or across
    whitespace, before a closing brace: the terminating dot is there. *)
Theorem repair_output_closes_triples (x a w sp r : text) :
  w <> [] -> forallb is_word w = true -> all_space sp = true ->
  correct_sparql_syntax_advanced x <> a ++ QMARK :: w ++ sp ++ RBRACE :: r.
Proof.
  intros Hw Hword Hsp E. apply (output_no_dot x).
  exists a, (QMARK :: w ++ sp ++ RBRACE :: r). split; [exact E|].
  now apply m_dot_make.
Qed.

Lemma repair_output_closes_triples_witness :
  correct_sparql_syntax_advanced (lit "SELECT ?s { ?s ?p ?o}")
  <> PREFIX_DECL ++ lit "SELECT ?s WHERE { ?s ?p " ++
     QMARK :: lit "o" ++ lit " " ++ RBRACE :: [].
Proof.
  apply (repair_output_closes_triples (lit "SELECT ?s { ?s ?p ?o}")
           (PREFIX_DECL ++ lit "SELECT ?s WHERE { ?s ?p ") (lit "o")
           (lit " ") []).
  - discriminate.
  - reflexivity.
  - reflexivity.
Defined.

(** X5: when the candidate nowhere has two glued pairs in a row which
    step 3 leaves alone (as for the idempotence of the repair), the
    repaired query has no property name glued to a variable: the prefix
    name, a colon and word characters are never directly followed by [?]
    and a word character. *)
Theorem repair_output_unglues (x a w : text) (c : ascii) (r : text) :
  ~ anywhere hidden_glue x ->
  w <> [] -> forallb is_word w = true -> is_word c = true ->
  correct_sparql_syntax_advanced x
  <> a ++ lit "progettoMuseo:" ++ w ++ QMARK :: c :: r.
Proof.
  intros Hx Hw Hword Hc E. apply (output_no_glue x Hx).
  exists a, (lit "progettoMuseo:" ++ w ++ QMARK :: c :: r).
  split; [exact E|]. now apply m_glue_make.
Qed.

Lemma repair_output_unglues_witness :
  let x := lit "SELECT ?a { ?o progettoMuseo:autoreOpera?a }" in
  correct_sparql_syntax_advanced x
  = PREFIX_DECL ++ lit "SELECT ?a WHERE { ?o progettoMuseo:autoreOpera ?a . }"
  /\ correct_sparql_syntax_advanced x
     <> PREFIX_DECL ++ lit "SELECT ?a WHERE { ?o " ++
        lit "progettoMuseo:" ++ lit "autoreOpera" ++
        QMARK :: "a"%char :: lit " }".
Proof.
  intros x. split; [vm_compute; reflexivity|].
  apply (repair_output_unglues x
           (PREFIX_DECL ++ lit "SELECT ?a WHERE { ?o ") (lit "autoreOpera")
           "a"%char (lit " }")).
  - intros H. apply hidden_is_pair, has_pair_complete in H.
    vm_compute in H. discriminate.
  - discriminate.
  - reflexivity.
  - reflexivity.
Defined.

(** X6: a repaired query in which SELECT (any letter case) is followed by
    whitespace, some text without a brace and then an opening brace
    contains the keyword WHERE in some letter case. *)
Theorem repair_output_has_where (x a kw : text) (sp : ascii)
    (body r : text) :
  correct_sparql_syntax_advanced x = a ++ kw ++ sp :: body ++ LBRACE :: r ->
  upper kw = lit "SELECT" -> is_space sp = true -> body <> [] ->
  ~ In LBRACE body ->
  contains (upper (correct_sparql_syntax_advanced x)) (lit "WHERE") = true.
Proof.
  intros E Hk Hs Hb Hn.
  destruct (contains (upper (correct_sparql_syntax_advanced x)) (lit "WHERE"))
    eqn:Hc; [reflexivity|].
  assert (Hdone := output_where_done x). unfold with_where in Hdone.
  rewrite Hc in Hdone. cbn [negb] in Hdone.
  assert (Hm : anywhere (matches m_add_where)
                 (correct_sparql_syntax_advanced x)).
  { exists a, (kw ++ sp :: body ++ LBRACE :: r). split; [exact E|].
    now apply m_add_where_make. }
  apply add_where_inserts in Hm. rewrite Hdone in Hm.
  apply contains_upper in Hm. congruence.
Qed.

Lemma repair_output_has_where_witness :
  let x := lit "select ?s { ?s ?p ?o . }" in
  correct_sparql_syntax_advanced x
  = PREFIX_DECL ++ lit "select" ++ SPACE :: lit "?s WHERE " ++ LBRACE ::
    lit " ?s ?p ?o . }"
  /\ contains (upper (correct_sparql_syntax_advanced x)) (lit "WHERE") = true.
Proof.
  intros x. split; [vm_compute; reflexivity|].
  apply (repair_output_has_where x PREFIX_DECL (lit "select") SPACE
           (lit "?s WHERE ") (lit " ?s ?p ?o . }")).
  - vm_compute. reflexivity.
  - reflexivity.
  - reflexivity.
  - discriminate.
  - apply not_in_text. reflexivity.
Defined.

(** X7: a query that is already in shape is returned as it is: one that is
    single-spaced, declares the prefix, has no match of the four repair
    patterns and either names WHERE or has no SELECT block to put it in. *)
Theorem repair_keeps_clean_query (y : text) :
  tidy y = true -> contains y PREFIX_MARK = true ->
  has_match m_select y = false -> has_match m_where y = false ->
  has_match m_glue y = false -> has_match m_dot y = false ->
  contains (upper y) (lit "WHERE") = true \/
    has_match m_add_where y = false ->
  correct_sparql_syntax_advanced y = y.
Proof.
  intros Ht Hm Hs Hw Hg Hd H8.
  assert (Hno : forall m, has_match m y = false -> ~ anywhere (matches m) y).
  { intros m E H. apply has_match_spec in H. congruence. }
  apply repair_fixed; auto.
  unfold with_where. destruct H8 as [H8|H8].
  - now rewrite H8.
  - destruct (negb _); [|reflexivity].
    apply re_sub_noop; auto with scan.
Qed.

Lemma repair_keeps_clean_query_witness :
  let q :=
    PREFIX_DECL ++
    lit "SELECT ?opera ?posizione WHERE { progettoMuseo:Discobolo progettoMuseo:posizioneOpera ?posizione . } LIMIT 10" in
  correct_sparql_syntax_advanced q = q.
Proof.
  intros q. apply (repair_keeps_clean_query q); try reflexivity.
  left. reflexivity.
Defined.

(** ** What a repair keeps of its input *)

Lemma embeds_refl (a : text) : embeds a a.
Proof. induction a; constructor; auto. Qed.

Lemma embeds_trans (a b c : text) : embeds a b -> embeds b c -> embeds a c.
Proof.
  intros Hab Hbc. revert a Hab.
  induction Hbc as [|x b c Hbc IH|x b c Hbc IH]; intros a Hab.
  - exact Hab.
  - inversion Hab; subst.
    + apply embeds_keep. now apply IH.
    + apply embeds_skip. now apply IH.
  - apply embeds_skip. now apply IH.
Qed.

Lemma embeds_skip_app (p a b : text) : embeds a b -> embeds a (p ++ b).
Proof. intros H. induction p; cbn; [exact H|now apply embeds_skip]. Qed.

Lemma visible_app (a b : text) : visible (a ++ b) = visible a ++ visible b.
Proof. apply filter_app. Qed.

Lemma visible_blank (w : text) : all_space w = true -> visible w = [].
Proof.
  induction w as [|c w IH]; cbn; auto.
  intros H. apply andb_true_iff in H as [Hc Hw]. rewrite Hc. cbn. auto.
Qed.

Lemma visible_cons (c : ascii) (s : text) :
  is_space c = false -> visible (c :: s) = c :: visible s.
Proof. intros H. cbn. now rewrite H. Qed.

Lemma visible_skip (c : ascii) (s : text) :
  is_space c = true -> visible (c :: s) = visible s.
Proof. intros H. cbn. now rewrite H. Qed.

Lemma edit_visible (s s' : text) :
  edit s s' -> embeds (visible s) (visible s').
Proof.
  induction 1 as [|c s s' _ IH|c s s' Hc _ IH|w u c s s' Hw Hc _ _ IH|w _ Hw].
  - constructor.
  - destruct (is_space c) eqn:E.
    + now rewrite !visible_skip.
    + rewrite !visible_cons by auto. now apply embeds_keep.
  - rewrite (visible_skip c s Hc), (visible_skip SPACE s' is_space_SPACE).
    exact IH.
  - rewrite !visible_app, (visible_blank _ Hw), !visible_cons by auto.
    apply embeds_skip_app. now apply embeds_keep.
  - rewrite (visible_blank _ Hw). constructor.
Qed.

Lemma strip_visible (s : text) : visible (strip s) = visible s.
Proof.
  destruct (strip_sub s) as (a & b & E & Ha & Hb).
  rewrite E at 2. rewrite !visible_app, (visible_blank _ Ha),
    (visible_blank _ Hb), app_nil_r. reflexivity.
Qed.

Lemma squeeze_visible (s : text) :
  embeds (visible s) (visible (squeeze s)).
Proof.
  unfold squeeze. rewrite strip_visible. apply edit_visible, edit_spaces.
Qed.

(** X8: the repair drops nothing but whitespace: the characters of the
    candidate other than whitespace are all in the repaired query, in
    their order and unchanged (letter case included); what the repair adds
    stands between them. *)
Theorem repair_keeps_content (x : text) :
  embeds (visible x) (visible (correct_sparql_syntax_advanced x)).
Proof.
  rewrite repair_unfold. unfold finish.
  eapply embeds_trans; [|apply squeeze_visible].
  eapply embeds_trans; [|apply edit_visible, edit_with_where].
  eapply embeds_trans; [|apply edit_visible, edit_dot].
  eapply embeds_trans; [|apply squeeze_visible].
  eapply embeds_trans; [|apply edit_visible, edit_glue].
  eapply embeds_trans; [|apply edit_visible, edit_where].
  eapply embeds_trans; [|apply edit_visible, edit_select].
  eapply embeds_trans; [apply edit_visible, edit_unwrap|].
  unfold with_prefix. destruct (negb _).
  - rewrite visible_app. apply embeds_skip_app, embeds_refl.
  - apply embeds_refl.
Qed.

(** ** Blank candidates *)

Lemma no_space_before_blank (k : text) :
  no_space k = true ->
  forall p w r, all_space w = true -> p ++ w = k ++ r ->
                exists p2, p = k ++ p2.
Proof.
  induction k as [|x k IH]; intros Hk p w r Hw E.
  - now exists p.
  - cbn in Hk. apply andb_true_iff in Hk as [Hx Hk].
    destruct p as [|y p]; cbn [app] in E.
    + subst w. cbn in Hw. apply andb_true_iff in Hw as [Hw _].
      rewrite Hw in Hx. discriminate.
    + injection E as -> E. destruct (IH Hk _ _ _ Hw E) as (p2 & ->).
      now exists p2.
Qed.

Lemma token_not_in_blank (m : matcher) (w : text) :
  token_pattern m -> all_space w = true -> ~ anywhere (matches m) w.
Proof.
  intros Ht. induction w as [|c w IH]; intros Hw H.
  - apply (proj1 (@anywhere_nil (matches m))) in H. exact (token_nil _ Ht H).
  - cbn in Hw. apply andb_true_iff in Hw as [Hc Hw].
    apply anywhere_cons in H as [H|H].
    + exact (token_space _ _ _ Ht Hc H).
    + exact (IH Hw H).
Qed.

(** A whitespace-free pattern that is not in [p] is not in [p] followed by
    whitespace either. *)
Lemma token_before_blank (m : matcher) (p w : text) :
  token_pattern m -> has_match m p = false -> all_space w = true ->
  ~ anywhere (matches m) (p ++ w).
Proof.
  intros Ht Hp Hw. induction p as [|c p IH]; cbn [app].
  - now apply token_not_in_blank.
  - cbn [has_match] in Hp.
    destruct (m (c :: p)) as [hit|] eqn:Em; [discriminate|].
    intros H. apply anywhere_cons in H as [H|H].
    + destruct (Ht _ H) as (k & r & E & _ & Hn & Hk).
      destruct (no_space_before_blank k Hn (c :: p) w r Hw E) as (p2 & Ep).
      specialize (Hk p2). rewrite <- Ep in Hk. now apply Hk.
    + exact (IH Hp H).
Qed.

Lemma spaces_before_blank (s w : text) :
  all_space w = true ->
  exists w', all_space w' = true /\
             re_sub m_spaces (s ++ w) = re_sub m_spaces s ++ w'.
Proof.
  intros Hw. revert s.
  apply (@scan_ind m_spaces m_spaces_consuming
           (fun s => exists w', all_space w' = true /\
              re_sub m_spaces (s ++ w) = re_sub m_spaces s ++ w')).
  - cbn [app]. destruct w as [|c w].
    + exists []. split; reflexivity.
    + exists [SPACE]. split; [reflexivity|].
      rewrite (re_sub_eq m_spaces_consuming (c :: w)).
      rewrite <- (app_nil_r (c :: w)) at 1.
      rewrite (@m_spaces_run (c :: w) []) by (auto; discriminate).
      reflexivity.
  - intros c s Hc (w' & Hw' & IH). exists w'. split; [exact Hw'|].
    assert (Hns : is_space c = false).
    { destruct (is_space c) eqn:E; auto.
      exfalso. exact (@m_spaces_some c s E Hc). }
    cbn [app]. rewrite (re_sub_eq m_spaces_consuming (c :: s ++ w)).
    rewrite (re_sub_eq m_spaces_consuming (c :: s)).
    rewrite !m_spaces_none by exact Hns. cbn [app]. now rewrite IH.
  - intros s rep rest Hm (w' & Hw' & IH).
    destruct (@m_spaces_inv _ _ _ Hm) as (sp & -> & -> & Hsp & Hall & Hrest).
    rewrite (re_sub_eq m_spaces_consuming (sp ++ rest)), Hm.
    destruct rest as [|c rest].
    + exists []. split; [reflexivity|]. rewrite !app_nil_r.
      rewrite (re_sub_eq m_spaces_consuming (sp ++ w)).
      rewrite <- (app_nil_r (sp ++ w)) at 1.
      rewrite (@m_spaces_run (sp ++ w) []); auto.
      * now destruct sp.
      * now rewrite all_space_app, Hall, Hw.
    + exists w'. split; [exact Hw'|].
      rewrite <- app_assoc.
      rewrite (re_sub_eq m_spaces_consuming (sp ++ (c :: rest) ++ w)).
      rewrite (@m_spaces_run sp ((c :: rest) ++ w)) by auto.
      now rewrite IH.
Qed.

Lemma rstrip_blank_tail (t w : text) :
  all_space w = true -> rstrip (t ++ w) = rstrip t.
Proof.
  intros Hw. unfold rstrip. rewrite rev_app_distr, lstrip_app.
  now rewrite all_space_rev, Hw.
Qed.

Lemma strip_blank_tail (t w : text) :
  all_space w = true -> strip (t ++ w) = strip t.
Proof.
  intros Hw. unfold strip. rewrite lstrip_app.
  destruct (all_space t) eqn:Et.
  - rewrite (@lstrip_all_space _ Hw), (@lstrip_all_space _ Et). reflexivity.
  - now apply rstrip_blank_tail.
Qed.

Lemma squeeze_blank_tail (s w : text) :
  all_space w = true -> squeeze (s ++ w) = squeeze s.
Proof.
  intros Hw. unfold squeeze.
  destruct (spaces_before_blank s w Hw) as (w' & Hw' & ->).
  now apply strip_blank_tail.
Qed.

Lemma unwrap_blank (w : text) :
  all_space w = true -> all_space (unwrap_lines w) = true.
Proof.
  rewrite unwrap_lines_map.
  induction w as [|c w IH]; intros H; [reflexivity|].
  cbn [map]. rewrite all_space_cons in *.
  apply andb_true_iff in H as [Hc Hw].
  rewrite (IH Hw), andb_true_r. unfold unwrap_char.
  destruct (Ascii.eqb CR c); [reflexivity|].
  destruct (Ascii.eqb LF c); [reflexivity|exact Hc].
Qed.

Lemma blank_has_no_mark (w : text) :
  all_space w = true -> contains w PREFIX_MARK = false.
Proof.
  intros Hw. destruct (contains w PREFIX_MARK) eqn:E; [|reflexivity].
  apply contains_starts in E as (a & b & -> & r & ->).
  rewrite !all_space_app in Hw.
  apply andb_true_iff in Hw as [_ Hw]. apply andb_true_iff in Hw as [Hw _].
  discriminate.
Qed.

(** X9: the repair of an empty or blank candidate is the prefix
    declaration alone. *)
Theorem repair_of_blank (x : text) :
  all_space x = true -> correct_sparql_syntax_advanced x = PREFIX_HEAD.
Proof.
  intros Hx. rewrite repair_unfold.
  assert (Hw := unwrap_blank x Hx). set (w := unwrap_lines x) in *.
  unfold with_prefix. rewrite (blank_has_no_mark w Hw). cbn [negb].
  rewrite (re_sub_noop m_select (PREFIX_DECL ++ w) m_select_consuming)
    by (apply token_before_blank; [apply m_select_token|reflexivity|exact Hw]).
  rewrite (re_sub_noop m_where (PREFIX_DECL ++ w) m_where_consuming)
    by (apply token_before_blank; [apply m_where_token|reflexivity|exact Hw]).
  rewrite (re_sub_noop m_glue (PREFIX_DECL ++ w) m_glue_consuming)
    by (apply token_before_blank; [apply m_glue_token|reflexivity|exact Hw]).
  unfold finish. rewrite (squeeze_blank_tail PREFIX_DECL w Hw).
  vm_compute. reflexivity.
Qed.

Lemma repair_of_blank_witness :
  correct_sparql_syntax_advanced [] = PREFIX_HEAD /\
  correct_sparql_syntax_advanced [SPACE; LF; SPACE] = PREFIX_HEAD.
Proof.
  split.
  - apply (repair_of_blank []). reflexivity.
  - apply (repair_of_blank [SPACE; LF; SPACE]). reflexivity.
Defined.

(** ** Grouping the rows by room *)

Lemma text_eqb_sym (a b : text) : text_eqb a b = text_eqb b a.
Proof.
  destruct (text_eqb b a) eqn:E.
  - apply text_eqb_eq in E. subst. apply text_eqb_refl.
  - apply text_eqb_neq. apply text_eqb_neq in E. congruence.
Qed.

Lemma dict_get_append (k k' : text) (e : Entry) (d : Dict) :
  dict_get k (dict_append k' e d)
  = if text_eqb k k' then dict_get k d ++ [e] else dict_get k d.
Proof.
  induction d as [|[k0 es0] d IH]; cbn [dict_append dict_get].
  - destruct (text_eqb k k'); reflexivity.
  - destruct (text_eqb k' k0) eqn:E0; cbn [dict_get].
    + apply text_eqb_eq in E0. subst k0.
      destruct (text_eqb k k'); reflexivity.
    + rewrite IH. destruct (text_eqb k k0) eqn:E1; [|reflexivity].
      apply text_eqb_eq in E1. subst k0.
      destruct (text_eqb k k') eqn:E2; [|reflexivity].
      apply text_eqb_eq in E2. subst k'.
      rewrite text_eqb_refl in E0. discriminate.
Qed.

Lemma dict_get_fold (k : text) (rows : list Row) :
  forall d,
    dict_get k
      (fold_left (fun d row => dict_append (stanza_local row) (opera_dict row) d)
                 rows d)
    = dict_get k d ++ map opera_dict (rows_of k rows).
Proof.
  induction rows as [|row rows IH]; intros d; cbn [fold_left rows_of filter map].
  - now rewrite app_nil_r.
  - rewrite IH, dict_get_append. unfold rows_of.
    rewrite (text_eqb_sym k (stanza_local row)).
    destruct (text_eqb (stanza_local row) k); cbn [map];
      now rewrite <- ?app_assoc.
Qed.

Lemma keys_append (k : text) (e : Entry) (d : Dict) :
  keys (dict_append k e d)
  = if existsb (text_eqb k) (keys d) then keys d else keys d ++ [k].
Proof.
  unfold keys.
  induction d as [|[k0 es0] d IH]; cbn [dict_append map fst existsb app].
  - reflexivity.
  - destruct (text_eqb k k0); cbn [map fst orb]; [reflexivity|].
    rewrite IH. destruct (existsb _ _); reflexivity.
Qed.

Lemma filter_filter_and {A : Type} (p q : A -> bool) (l : list A) :
  filter p (filter q l) = filter (fun x => q x && p x) l.
Proof.
  induction l as [|x l IH]; cbn; auto.
  destruct (q x); cbn; [destruct (p x)|]; now rewrite IH.
Qed.

Lemma keys_fold (rows : list Row) :
  forall d,
    keys
      (fold_left (fun d row => dict_append (stanza_local row) (opera_dict row) d)
                 rows d)
    = keys d ++
      filter (fun k => negb (existsb (text_eqb k) (keys d)))
             (first_seen (map stanza_local rows)).
Proof.
  induction rows as [|row rows IH]; intros d;
    cbn [fold_left map first_seen filter].
  - now rewrite app_nil_r.
  - rewrite IH, keys_append. set (k := stanza_local row).
    set (fs := first_seen (map stanza_local rows)).
    destruct (existsb (text_eqb k) (keys d)) eqn:E; cbn [negb].
    + f_equal. rewrite filter_filter_and. apply filter_ext. intros x.
      destruct (text_eqb x k) eqn:Ex; [|reflexivity].
      apply text_eqb_eq in Ex. subst x. now rewrite E.
    + rewrite <- app_assoc. cbn [app]. do 2 f_equal.
      rewrite filter_filter_and. apply filter_ext. intros x.
      rewrite existsb_app. cbn [existsb]. rewrite orb_false_r, negb_orb.
      apply andb_comm.
Qed.

Lemma first_seen_in (ks : list text) (k : text) :
  In k (first_seen ks) <-> In k ks.
Proof.
  induction ks as [|k0 ks IH]; cbn [first_seen]; [tauto|].
  cbn [In]. rewrite filter_In, IH. split.
  - intros [H|[H _]]; auto.
  - intros [H|H]; auto.
    destruct (text_eqb k k0) eqn:E.
    + apply text_eqb_eq in E. auto.
    + right. auto.
Qed.

Lemma first_seen_nodup (ks : list text) : NoDup (first_seen ks).
Proof.
  induction ks as [|k ks IH]; cbn [first_seen]; constructor.
  - intros H. apply filter_In in H as [_ H].
    now rewrite text_eqb_refl in H.
  - now apply NoDup_filter.
Qed.

Lemma dict_get_in (d : Dict) (k : text) (es : list Entry) :
  NoDup (keys d) -> In (k, es) d -> dict_get k d = es.
Proof.
  unfold keys.
  induction d as [|[k0 es0] d IH]; intros Hn Hin; [destruct Hin|].
  cbn [map fst] in Hn. inversion Hn as [|? ? Hk0 Hd]; subst.
  cbn [dict_get]. destruct Hin as [[= -> ->]|Hin].
  - now rewrite text_eqb_refl.
  - destruct (text_eqb k k0) eqn:E.
    + apply text_eqb_eq in E. subst k0. exfalso. apply Hk0.
      apply in_map_iff. exists (k, es). auto.
    + now apply IH.
Qed.

Lemma keys_group (rows : list Row) :
  keys (group_rows rows) = first_seen (map stanza_local rows).
Proof.
  unfold group_rows. rewrite keys_fold. cbn [keys map app existsb negb].
  induction (first_seen (map stanza_local rows)) as [|k l IH]; cbn; auto.
  now f_equal.
Qed.

Lemma room_names (rows : list Row) :
  map roomName (stanze_list rows) = keys (group_rows rows).
Proof. unfold stanze_list, keys. now rewrite map_map. Qed.

(** X10: the rooms endpoint lists every room once, in the order in which
    the rooms first occur in the result, and a room's entries are those of
    exactly the rows of that room, in the order of the rows. *)
Theorem rooms_are_grouped (rows : list Row) :
  map roomName (stanze_list rows) = first_seen (map stanza_local rows) /\
  NoDup (map roomName (stanze_list rows)) /\
  forall room, In room (stanze_list rows) ->
    entries room = map opera_dict (rows_of (roomName room) rows).
Proof.
  rewrite room_names, keys_group.
  split; [reflexivity|]. split; [apply first_seen_nodup|].
  intros room Hin. unfold stanze_list in Hin.
  apply in_map_iff in Hin as ([k es] & <- & Hin).
  cbn [entries roomName fst snd].
  rewrite <- (dict_get_in (group_rows rows) k es).
  - unfold group_rows. now rewrite dict_get_fold.
  - rewrite keys_group. apply first_seen_nodup.
  - exact Hin.
Qed.

Lemma total_append (k : text) (e : Entry) (d : Dict) :
  total (dict_append k e d) = S (total d).
Proof.
  unfold total. induction d as [|[k0 es0] d IH]; cbn [dict_append].
  - reflexivity.
  - destruct (text_eqb k k0); cbn [map snd List.concat].
    + rewrite !length_app. cbn [List.length]. lia.
    + rewrite !length_app, IH. lia.
Qed.

Lemma nonempty_append (k : text) (e : Entry) (d : Dict) :
  Forall (fun kv => snd kv <> []) d ->
  Forall (fun kv => snd kv <> []) (dict_append k e d).
Proof.
  induction 1 as [|[k0 es0] d H0 Hd IH]; cbn [dict_append].
  - constructor; [discriminate|constructor].
  - destruct (text_eqb k k0); constructor; auto.
    cbn [snd]. now destruct es0.
Qed.

Lemma group_fold_invariant (rows : list Row) :
  forall d,
    Forall (fun kv => snd kv <> []) d ->
    let d' :=
      fold_left
        (fun d row => dict_append (stanza_local row) (opera_dict row) d)
        rows d in
    total d' = total d + List.length rows /\
    Forall (fun kv => snd kv <> []) d'.
Proof.
  induction rows as [|row rows IH]; intros d Hd; cbn [fold_left List.length].
  - split; [lia|exact Hd].
  - destruct (IH _ (nonempty_append (stanza_local row) (opera_dict row) d Hd))
      as [Ht Hn].
    split; [|exact Hn]. rewrite Ht, total_append. lia.
Qed.

(** X11: the rooms endpoint neither drops nor repeats a row and lists no
    empty room: the entries of all rooms together are as many as the rows
    of the result, and every listed room has at least one entry. *)
Theorem rooms_lose_nothing (rows : list Row) :
  List.length (List.concat (map entries (stanze_list rows)))
  = List.length rows /\
  forall room, In room (stanze_list rows) -> entries room <> [].
Proof.
  destruct (group_fold_invariant rows [] (Forall_nil _)) as [Ht Hn].
  fold (group_rows rows) in Ht, Hn. split.
  - unfold stanze_list. rewrite map_map. cbn [entries]. exact Ht.
  - intros room Hin. unfold stanze_list in Hin.
    apply in_map_iff in Hin as (kv & <- & Hin). cbn [entries].
    rewrite Forall_forall in Hn. now apply Hn.
Qed.

(** ** Local names *)

Lemma split_on_pieces (sep : ascii) (s : text) :
  Forall (fun piece => ~ In sep piece) (split_on sep s).
Proof.
  induction s as [|c s IH]; cbn [split_on].
  - constructor; [intros []|constructor].
  - destruct (Ascii.eqb_spec c sep) as [->|Hne].
    + constructor; [intros []|exact IH].
    + destruct (split_on sep s) as [|piece pieces].
      * constructor; [|constructor]. intros [H|[]]. congruence.
      * inversion IH as [|? ? Hp Hps]; subst. constructor; [|exact Hps].
        intros [H|H]; [congruence|contradiction].
Qed.

Lemma last_forall {A : Type} (P : A -> Prop) (l : list A) (d : A) :
  Forall P l -> P d -> P (last l d).
Proof.
  intros Hl Hd. induction Hl as [|x l Hx Hl IH]; [exact Hd|].
  destruct l as [|y l]; [exact Hx|exact IH].
Qed.

Lemma strip_in (c : ascii) (s : text) : In c (strip s) -> In c s.
Proof.
  intros H. destruct (strip_sub s) as (a & b & E & _). rewrite E.
  apply in_or_app. right. apply in_or_app. now left.
Qed.

(** X12: a local name never contains the separator [#], whether the
    identifier had one or not; taking the local name of a local name
    changes nothing. *)
Theorem local_name_has_no_separator (uri : text) :
  ~ In HASH (local_name uri) /\
  local_name (local_name uri) = local_name uri.
Proof.
  assert (H : ~ In HASH (local_name uri)).
  { unfold local_name. destruct (contains uri [HASH]) eqn:E.
    - intros Hin. apply strip_in in Hin. revert Hin.
      apply (last_forall (fun piece => ~ In HASH piece)).
      + apply split_on_pieces.
      + intros [].
    - intros Hin. apply contains_char in Hin. congruence. }
  split; [exact H|]. now apply local_name_spec.
Qed.

(** ** Outcomes of the rooms endpoint *)

Lemma stanze_query_fixed :
  correct_sparql_syntax_advanced STANZE_QUERY = STANZE_QUERY.
Proof. vm_compute. reflexivity. Qed.

Section RoomsEndpoint.

Context {World : Type} (sv : Services World).

(** X13: when the parser rejects the rooms query, the rooms endpoint
    raises the error 400 and the store is not queried. *)
Theorem rooms_rejected_query_is_400 (w : World) :
  parseQuery sv STANZE_QUERY = false ->
  serve (query_stanze_endpoint sv) w
  = ([CallRepair STANZE_QUERY; CallParseQuery STANZE_QUERY false],
     inl (HTTPError 400 (lit "Query SPARQL non valida."))).
Proof.
  intros Hp.
  cbv [serve query_stanze_endpoint bind repair_query is_sparql_query_valid
         note perform ret raise world calls app].
  rewrite stanze_query_fixed, Hp. reflexivity.
Qed.

(** X14: when the parser accepts the rooms query, the store is asked that
    query, unchanged by the repair, once: rows are answered grouped by
    room, a failure of the store with the error 500. *)
Theorem rooms_store_outcome (w w' : World) (r : option (list Row)) :
  parseQuery sv STANZE_QUERY = true ->
  ontology_query sv w STANZE_QUERY = (w', r) ->
  serve (query_stanze_endpoint sv) w
  = ([CallRepair STANZE_QUERY; CallParseQuery STANZE_QUERY true;
      CallGraphQuery STANZE_QUERY r],
     match r with
     | Some rows => inr (stanze_list rows)
     | None =>
         inl (HTTPError 500
                (lit "Errore nell'esecuzione della query SPARQL."))
     end).
Proof.
  intros Hp Hq.
  cbv [serve query_stanze_endpoint bind repair_query is_sparql_query_valid
         run_query note perform ret raise world calls app].
  rewrite stanze_query_fixed, Hp. cbv [negb]. rewrite Hq.
  destruct r; reflexivity.
Qed.

End RoomsEndpoint.

Lemma rooms_rejected_query_is_400_witness :
  serve (query_stanze_endpoint (rooms_services false (Some two_rooms))) (0, 0)
  = ([CallRepair STANZE_QUERY; CallParseQuery STANZE_QUERY false],
     inl (HTTPError 400 (lit "Query SPARQL non valida."))).
Proof.
  apply (rooms_rejected_query_is_400
           (rooms_services false (Some two_rooms)) (0, 0)).
  reflexivity.
Defined.

Lemma rooms_store_outcome_witness :
  snd (serve (query_stanze_endpoint (rooms_services true (Some two_rooms)))
             (0, 0))
  = inr (stanze_list two_rooms) /\
  snd (serve (query_stanze_endpoint (rooms_services true None)) (0, 0))
  = inl (HTTPError 500 (lit "Errore nell'esecuzione della query SPARQL.")).
Proof.
  split.
  - rewrite (rooms_store_outcome (rooms_services true (Some two_rooms))
               (0, 0) (0, 0) (Some two_rooms) eq_refl eq_refl).
    reflexivity.
  - rewrite (rooms_store_outcome (rooms_services true None)
               (0, 0) (0, 0) None eq_refl eq_refl).
    reflexivity.
Defined.

(** ** Removing the quotes *)

Lemma filter_all {A : Type} (p : A -> bool) (l : list A) :
  (forall x, In x l -> p x = true) -> filter p l = l.
Proof.
  induction l as [|x l IH]; intros H; cbn; auto.
  rewrite (H x (or_introl eq_refl)). f_equal. apply IH.
  intros y Hy. apply H. now right.
Qed.

Lemma embeds_filter (p : ascii -> bool) (s : text) : embeds (filter p s) s.
Proof.
  induction s as [|c s IH]; cbn; [constructor|].
  destruct (p c); now constructor.
Qed.

Lemma m_replace_del_inv (old s rep rest : text) :
  m_replace old [] s = Some (rep, rest) ->
  rep = [] /\ s = old ++ rest /\ old <> [].
Proof.
  unfold m_replace. destruct old as [|o old]; [discriminate|].
  destruct (take_lit (o :: old) s) as [r|] eqn:E; [|discriminate].
  intros [= <- <-]. apply take_lit_app in E. repeat split; auto.
  discriminate.
Qed.

Lemma embeds_delete (old s : text) : embeds (replace old [] s) s.
Proof.
  unfold replace. revert s.
  apply (@scan_ind (m_replace old []) (m_replace_consuming old [])
           (fun s => embeds (re_sub (m_replace old []) s) s)).
  - rewrite re_sub_eq by auto with scan.
    destruct (m_replace old [] []) as [[rep rest]|] eqn:E; [|constructor].
    apply m_replace_del_inv in E as (_ & E & Ho).
    destruct old; [congruence|discriminate].
  - intros c s Hc IH. rewrite re_sub_eq, Hc by auto with scan.
    now constructor.
  - intros s rep rest Hm IH. rewrite re_sub_eq, Hm by auto with scan.
    apply m_replace_del_inv in Hm as (-> & -> & _). cbn [app].
    now apply embeds_skip_app.
Qed.

(** X15: removing the quotes only deletes characters, and a text without a
    double quote is left as it is; so removing the quotes twice is the
    same as once. *)
Theorem strip_quotes_only_deletes (s : text) :
  embeds (strip_quotes s) s /\
  (~ In DQUOTE s -> strip_quotes s = s) /\
  strip_quotes (strip_quotes s) = strip_quotes s.
Proof.
  assert (Hplain : forall t, ~ In DQUOTE t -> strip_quotes t = t).
  { intros t Ht. unfold strip_quotes.
    assert (E : replace [BACKSLASH; DQUOTE] [] t = t).
    { unfold replace. apply re_sub_noop; [auto with scan|].
      intros (a & b & -> & Hb). unfold matches in Hb.
      destruct (m_replace [BACKSLASH; DQUOTE] [] b) as [[rep rest]|] eqn:Em;
        [|congruence].
      apply m_replace_del_inv in Em as (_ & -> & _). apply Ht.
      apply in_or_app. right. right. now left. }
    rewrite E, replace_char_nil. apply filter_all.
    intros c Hc. destruct (Ascii.eqb_spec DQUOTE c) as [<-|]; [|reflexivity].
    contradiction. }
  split; [|split].
  - unfold strip_quotes. eapply embeds_trans; apply embeds_delete.
  - apply Hplain.
  - apply Hplain, strip_quotes_clean.
Qed.

Lemma strip_quotes_only_deletes_witness :
  strip_quotes (lit "Il Discobolo di Mirone.") = lit "Il Discobolo di Mirone.".
Proof.
  destruct (strip_quotes_only_deletes (lit "Il Discobolo di Mirone."))
    as (_ & H & _).
  apply H. apply not_in_text. reflexivity.
Defined.

(** ** The rendering of the rows *)

Lemma render_from_nth (results : list Row) :
  forall idx i row,
    nth_error results i = Some row ->
    nth_error (render_from idx results) i
    = Some (str_of_nat (idx + i + 1) ++ lit ") " ++ render_row row).
Proof.
  induction results as [|r results IH]; intros idx i row H.
  - destruct i; discriminate.
  - destruct i as [|i]; cbn [nth_error render_from] in *.
    + injection H as ->. now rewrite Nat.add_0_r.
    + rewrite (IH (S idx) i row H). do 3 f_equal. lia.
Qed.

Lemma render_from_length (results : list Row) :
  forall idx, List.length (render_from idx results) = List.length results.
Proof.
  induction results as [|r results IH]; intros idx; cbn; auto.
Qed.

(** X16: the rows are rendered one per line, joined by line feeds: the
    line of the row at position [i] (from 0) begins with the number
    [i + 1] and a closing parenthesis, then lists the row's variables. *)
Theorem render_results_numbers_rows (results : list Row) :
  exists lines,
    render_results results = join [LF] lines /\
    List.length lines = List.length results /\
    forall i row,
      nth_error results i = Some row ->
      nth_error lines i
      = Some (str_of_nat (i + 1) ++ lit ") " ++ render_row row).
Proof.
  exists (render_from 0 results). split; [reflexivity|].
  split; [apply render_from_length|].
  intros i row H. exact (render_from_nth results 0 i row H).
Qed.

(** ** Language normalization *)

Section Normalization.

Context {World : Type} (sv : Services World).

(** The calls and the result of language normalization: two detections,
    then a translation when the two languages differ. *)
Lemma classify_and_translate_serve (question answer : text) (w : World) :
  exists ql al,
    let question_lang := match ql with Some l => l | None => lit "en" end in
    let answer_lang := match al with Some l => l | None => lit "it" end in
    let detect := [CallClassify question ql; CallClassify answer al] in
    (question_lang = answer_lang /\
     serve (classify_and_translate sv question answer) w
     = (detect, inr answer))
    \/
    (question_lang <> answer_lang /\
     exists tr,
       serve (classify_and_translate sv question answer) w
       = (detect ++
          [CallTranslate (TRANSLATOR_MODEL_PREFIX ++ lit "-" ++ answer_lang
                          ++ lit "-" ++ question_lang) answer tr],
          inr (match tr with Some t => t | None => answer end))).
Proof.
  unfold serve.
  destruct (classify_and_translate_run sv question answer
              {| world := w; calls := [] |})
    as (w' & ql & al & [[E ->] | [E [tr ->]]]); cbn [calls app];
    exists ql, al; [left|right]; split; auto.
  exists tr. reflexivity.
Qed.

(** X17: when the language detected for the question (English if the
    detection fails) is the one detected for the answer (Italian if the
    detection fails), the answer is returned as it is and no translation
    is requested. *)
Theorem same_language_needs_no_translation (question answer : text)
    (w : World) (cs : list Call) (out : HTTPException + text)
    (ql al : option text) :
  serve (classify_and_translate sv question answer) w = (cs, out) ->
  nth_error cs 0 = Some (CallClassify question ql) ->
  nth_error cs 1 = Some (CallClassify answer al) ->
  match ql with Some l => l | None => lit "en" end
  = match al with Some l => l | None => lit "it" end ->
  cs = [CallClassify question ql; CallClassify answer al] /\
  out = inr answer.
Proof.
  intros H H0 H1 Hsame.
  destruct (classify_and_translate_serve question answer w)
    as (ql' & al' & [[E Hrun] | [E [tr Hrun]]]);
    rewrite Hrun in H; injection H as <- <-;
    cbn [nth_error app] in H0, H1;
    injection H0 as <-; injection H1 as <-.
  - split; reflexivity.
  - contradiction.
Qed.

(** X18: when the two languages differ, one translation is requested,
    from the model named by the fixed prefix, the answer's language and
    the question's language in that order, for the answer text; its result
    is returned untouched. *)
Theorem translation_goes_to_question_language (question answer : text)
    (w : World) (cs : list Call) (out : HTTPException + text)
    (ql al : option text) :
  serve (classify_and_translate sv question answer) w = (cs, out) ->
  nth_error cs 0 = Some (CallClassify question ql) ->
  nth_error cs 1 = Some (CallClassify answer al) ->
  let question_lang := match ql with Some l => l | None => lit "en" end in
  let answer_lang := match al with Some l => l | None => lit "it" end in
  question_lang <> answer_lang ->
  exists tr,
    cs = [CallClassify question ql; CallClassify answer al;
          CallTranslate (TRANSLATOR_MODEL_PREFIX ++ lit "-" ++ answer_lang
                         ++ lit "-" ++ question_lang) answer tr] /\
    (forall translated, tr = Some translated -> out = inr translated).
Proof.
  intros H H0 H1 question_lang answer_lang Hdiff.
  destruct (classify_and_translate_serve question answer w)
    as (ql' & al' & [[E Hrun] | [E [tr Hrun]]]);
    rewrite Hrun in H; injection H as <- <-;
    cbn [nth_error app] in H0, H1;
    injection H0 as <-; injection H1 as <-.
  - contradiction.
  - exists tr. split; [reflexivity|]. now intros translated ->.
Qed.

(** X19: when both detections fail, the fallback languages differ: the
    answer is sent to the Italian-to-English model, whatever the language
    of the question was. *)
Theorem blind_detection_translates_to_english (question answer : text)
    (w : World) (cs : list Call) (out : HTTPException + text) :
  serve (classify_and_translate sv question answer) w = (cs, out) ->
  nth_error cs 0 = Some (CallClassify question None) ->
  nth_error cs 1 = Some (CallClassify answer None) ->
  exists tr,
    nth_error cs 2
    = Some (CallTranslate (lit "Helsinki-NLP/opus-mt-it-en") answer tr) /\
    out = inr (match tr with Some t => t | None => answer end).
Proof.
  intros H H0 H1.
  destruct (classify_and_translate_serve question answer w)
    as (ql' & al' & [[E Hrun] | [E [tr Hrun]]]);
    rewrite Hrun in H; injection H as <- <-;
    cbn [nth_error app] in H0, H1;
    injection H0 as ->; injection H1 as ->.
  - discriminate.
  - exists tr. split; reflexivity.
Qed.

End Normalization.

Lemma same_language_needs_no_translation_witness :
  serve (classify_and_translate sentinel_services
           (lit "Dove si trova?") (lit "Non lo so.")) (0, 0)
  = ([CallClassify (lit "Dove si trova?") (Some (lit "it"));
      CallClassify (lit "Non lo so.") (Some (lit "it"))],
     inr (lit "Non lo so.")).
Proof.
  destruct (serve (classify_and_translate sentinel_services
                     (lit "Dove si trova?") (lit "Non lo so.")) (0, 0))
    as [cs out] eqn:E.
  destruct (same_language_needs_no_translation sentinel_services _ _ (0, 0)
              _ _ (Some (lit "it")) (Some (lit "it")) E) as [-> ->];
    try reflexivity;
    vm_compute in E; injection E as <- _; reflexivity.
Defined.

Lemma translation_goes_to_question_language_witness :
  exists cs,
    serve (classify_and_translate translating_services
             (lit "Where is it?") (lit "Non lo so.")) (0, 0)
    = (cs, inr (lit "I do not know.")) /\
    nth_error cs 2
    = Some (CallTranslate (lit "Helsinki-NLP/opus-mt-it-en")
              (lit "Non lo so.") (Some (lit "I do not know."))).
Proof.
  destruct (serve (classify_and_translate translating_services
                     (lit "Where is it?") (lit "Non lo so.")) (0, 0))
    as [cs out] eqn:E.
  assert (Ecs : cs =
    [CallClassify (lit "Where is it?") (Some (lit "en"));
     CallClassify (lit "Non lo so.") (Some (lit "it"));
     CallTranslate (lit "Helsinki-NLP/opus-mt-it-en") (lit "Non lo so.")
       (Some (lit "I do not know."))])
    by (vm_compute in E; injection E as <- _; reflexivity).
  destruct (translation_goes_to_question_language translating_services _ _
              (0, 0) _ _ (Some (lit "en")) (Some (lit "it")) E)
    as (tr & Hcs & Hout).
  - rewrite Ecs. reflexivity.
  - rewrite Ecs. reflexivity.
  - discriminate.
  - exists cs. split; [|rewrite Ecs; reflexivity].
    f_equal. apply Hout. rewrite Ecs in Hcs. now injection Hcs as <-.
Defined.

Lemma blind_detection_translates_to_english_witness :
  exists cs tr,
    serve (classify_and_translate blind_services
             (lit "Dove si trova?") (lit "Non lo so.")) (0, 0)
    = (cs, inr (lit "I do not know.")) /\
    nth_error cs 2
    = Some (CallTranslate (lit "Helsinki-NLP/opus-mt-it-en")
              (lit "Non lo so.") tr).
Proof.
  destruct (serve (classify_and_translate blind_services
                     (lit "Dove si trova?") (lit "Non lo so.")) (0, 0))
    as [cs out] eqn:E.
  assert (Ecs : cs =
    [CallClassify (lit "Dove si trova?") None;
     CallClassify (lit "Non lo so.") None;
     CallTranslate (lit "Helsinki-NLP/opus-mt-it-en") (lit "Non lo so.")
       (Some (lit "I do not know."))])
    by (vm_compute in E; injection E as <- _; reflexivity).
  destruct (blind_detection_translates_to_english blind_services _ _ (0, 0)
              _ _ E) as (tr & Hc & ->).
  - rewrite Ecs. reflexivity.
  - rewrite Ecs. reflexivity.
  - exists cs, tr. split; [|exact Hc].
    rewrite Ecs in Hc. now injection Hc as <-.
Defined.

(** ** The runs of the assistant endpoint, case by case *)

Lemma repair_nonempty (x : text) : correct_sparql_syntax_advanced x <> [].
Proof.
  intros E. assert (H := output_has_mark x). rewrite E in H. discriminate.
Qed.

Section EndpointTraces.

Context {World : Type} (sv : Services World).

Ltac next_call :=
  match goal with |- context [perform ?f ?r ?s] =>
    let w := fresh "w" in let x := fresh "x" in
    destruct (perform_run f r s) as (w & x & _ & ->)
  end.

(** Step 2 on every outcome of step 1. *)
Lemma execute_query_cases (gq : option text) (st : State World) :
  match gq with
  | None => execute_query sv gq st = (st, inr [])
  | Some q =>
      q <> [] ->
      exists w r,
        execute_query sv gq st
        = ({| world := w; calls := calls st ++ [CallGraphQuery q r] |},
           inr (match r with Some rows => rows | None => [] end))
  end.
Proof.
  destruct gq as [q|]; [|reflexivity].
  intros Hq. unfold execute_query.
  destruct q as [|c q]; [congruence|]. cbn [truthy].
  unfold run_query, bind. next_call. unfold ret. eauto.
Qed.

(** Every run: the serialization and the query-generation call, the work
    on the query (none after the marker, repair and validation otherwise,
    then one query of the store if the parser agreed), the answer call,
    and after an answer the language normalization. *)
Lemma assistant_endpoint_trace (req : AssistantRequest) (w : World) :
  exists ser gen work gq results fin tail out,
    let sysp := create_system_prompt_for_sparql sv
                  (match ser with Some t => t | None => [] end) in
    let pq := match gen with Some c => strip c | None => NO_SPARQL end in
    let fixed := correct_sparql_syntax_advanced pq in
    let pp := point_and_prompt (message req) gq results in
    serve (assistant_endpoint sv req) w =
    ([CallSerialize ser;
      CallCompletion sysp (message req) 512%Z (2 # 10)%Q gen] ++ work ++
     CallCompletion (snd pp) FINAL_USER 512%Z (5 # 10)%Q fin :: tail, out) /\
    ((startswith (upper pq) NO_SPARQL = true /\
      work = [] /\ gq = None /\ results = [])
     \/
     (startswith (upper pq) NO_SPARQL = false /\
      parseQuery sv fixed = false /\
      work = [CallRepair pq; CallParseQuery fixed false] /\
      gq = None /\ results = [])
     \/
     (startswith (upper pq) NO_SPARQL = false /\
      parseQuery sv fixed = true /\
      exists r,
        work = [CallRepair pq; CallParseQuery fixed true;
                CallGraphQuery fixed r] /\
        gq = Some fixed /\
        results = match r with Some rows => rows | None => [] end)) /\
    match fin with
    | None => out = inl ANSWER_ERROR /\ tail = []
    | Some content =>
        exists ql al,
          let question_lang :=
            match ql with Some l => l | None => lit "en" end in
          let answer_lang :=
            match al with Some l => l | None => lit "it" end in
          let detect := [CallClassify (message req) ql;
                         CallClassify (strip content) al] in
          (question_lang = answer_lang /\ tail = detect /\
           out = inr {| query := gq;
                        response := strip_quotes (strip content);
                        point := fst pp |})
          \/
          (question_lang <> answer_lang /\
           exists tr,
             tail = detect ++
               [CallTranslate (TRANSLATOR_MODEL_PREFIX ++ lit "-"
                               ++ answer_lang ++ lit "-" ++ question_lang)
                  (strip content) tr] /\
             out = inr {| query := gq;
                          response :=
                            strip_quotes
                              (match tr with
                               | Some t => t
                               | None => strip content
                               end);
                          point := fst pp |})
    end.
Proof.
  unfold serve, assistant_endpoint, bind.
  set (st0 := {| world := w; calls := [] |}).
  destruct (generate_query_run sv (message req) st0)
    as (w1 & ser & gen & [[Hs ->] | [Hs ->]]);
    cbn [calls st0 app].
  - unfold execute_query at 1. cbn [truthy]. unfold ret at 1.
    destruct (point_and_prompt (message req) None []) as [pt prompt] eqn:Epp.
    unfold complete. next_call. cbn [calls world app].
    destruct x as [content|].
    + match goal with |- context [classify_and_translate sv ?q ?a ?s] =>
        destruct (classify_and_translate_run sv q a s)
          as (w3 & ql & al & [[E ->] | [E [tr ->]]]) end;
      cbn [calls world app];
      exists ser, gen, [], None, [], (Some content); do 2 eexists;
      rewrite Epp; cbn [fst snd app];
      (split; [reflexivity|]); (split; [left; auto|]);
      exists ql, al; [left|right]; eauto.
    + exists ser, gen, [], None, [], None, [], (inl ANSWER_ERROR).
      rewrite Epp. cbn [fst snd app]. auto 7.
  - set (pq := match gen with Some c => strip c | None => NO_SPARQL end) in *.
    set (fixed := correct_sparql_syntax_advanced pq).
    destruct (parseQuery sv fixed) eqn:Hp.
    + match goal with |- context [execute_query sv (Some fixed) ?s] =>
        destruct (execute_query_cases (Some fixed) s (repair_nonempty pq))
          as (w2 & r & ->) end.
      cbn [calls world app].
      set (results := match r with Some rows => rows | None => [] end).
      destruct (point_and_prompt (message req) (Some fixed) results)
        as [pt prompt] eqn:Epp.
      unfold complete. next_call. cbn [calls world app].
      destruct x as [content|].
      * match goal with |- context [classify_and_translate sv ?q ?a ?s] =>
          destruct (classify_and_translate_run sv q a s)
            as (w3 & ql & al & [[E ->] | [E [tr ->]]]) end;
        cbn [calls world app];
        exists ser, gen; eexists [_; _; _], (Some fixed), results;
        exists (Some content); do 2 eexists;
        rewrite Epp; cbn [fst snd app];
        (split; [reflexivity|]);
        (split; [right; right; repeat split; auto; exists r; auto|]);
        exists ql, al; [left|right]; eauto.
      * exists ser, gen; eexists [_; _; _], (Some fixed), results.
        exists None, [], (inl ANSWER_ERROR).
        rewrite Epp. cbn [fst snd app]. split; [reflexivity|].
        split; [right; right; repeat split; auto; exists r; auto|auto].
    + unfold execute_query at 1. cbn [truthy]. unfold ret at 1.
      destruct (point_and_prompt (message req) None [])
        as [pt prompt] eqn:Epp.
      unfold complete. next_call. cbn [calls world app].
      destruct x as [content|].
      * match goal with |- context [classify_and_translate sv ?q ?a ?s] =>
          destruct (classify_and_translate_run sv q a s)
            as (w3 & ql & al & [[E ->] | [E [tr ->]]]) end;
        cbn [calls world app];
        exists ser, gen; eexists [_; _], None, [];
        exists (Some content); do 2 eexists;
        rewrite Epp; cbn [fst snd app];
        (split; [reflexivity|]);
        (split; [right; left; auto|]);
        exists ql, al; [left|right]; eauto.
      * exists ser, gen; eexists [_; _], None, [].
        exists None, [], (inl ANSWER_ERROR).
        rewrite Epp. cbn [fst snd app]. split; [reflexivity|].
        split; [right; left; auto|auto].
Qed.

End EndpointTraces.

(** ** Failures and edges of the assistant endpoint *)

Lemma extract_point_source (results : list Row) :
  extract_point [] results = [] \/
  exists row v x,
    In row results /\ (v = lit "p" \/ v = lit "posizione") /\
    get row v = Some x /\ extract_point [] results = strip x.
Proof.
  induction results as [|row results IH]; [now left|].
  cbn [extract_point].
  destruct (valid_binding row (lit "p")) eqn:Hp.
  - destruct (valid_binding_value _ _ Hp) as (x & Hx & _ & Hv).
    right. exists row, (lit "p"), x. repeat split; auto. now left.
  - destruct (valid_binding row (lit "posizione")) eqn:Hq.
    + destruct (valid_binding_value _ _ Hq) as (x & Hx & _ & Hv).
      right. exists row, (lit "posizione"), x. repeat split; auto. now left.
    + destruct IH as [IH | (r & v & x & Hin & Hv & Hx & E)]; [now left|].
      right. exists r, v, x. repeat split; auto. now right.
Qed.

Lemma prompt_without_rows (msg q : text) :
  q <> [] ->
  point_and_prompt msg (Some q) [] = ([], prompt_no_results msg q).
Proof. intros Hq. destruct q; [congruence|reflexivity]. Qed.

Lemma strip_blank (s : text) : all_space s = true -> strip s = [].
Proof.
  intros H. unfold strip. now rewrite (@lstrip_all_space _ H).
Qed.

Section EndpointEdges.

Context {World : Type} (sv : Services World).

Ltac use_trace req w H :=
  let Hrun := fresh "Hrun" in
  destruct (assistant_endpoint_trace sv req w)
    as (ser & gen & work & gq & results & fin & tail & out' & Hrun
        & Hcase & Hfin);
  cbv zeta in Hrun, Hcase, Hfin; rewrite Hrun in H;
  injection H as Hcs Hout; clear Hrun.

Ltac split_tail fin Hfin :=
  destruct fin as [content|];
  [ destruct Hfin as (ql & al & [(E & Htail & Hres) | (E & tr & Htail & Hres)])
  | destruct Hfin as [Hres Htail] ].

(** X20: when the query-generation call raises, the run goes on without a
    query: nothing is repaired, validated or asked of the store, the
    answer call gets the prompt for the case without a query, and a
    response has no query and the empty point. *)
Theorem generation_failure_is_absorbed (req : AssistantRequest) (w : World)
    (cs : list Call) (out : HTTPException + Response)
    (system user : text) (max_tok : Z) (temp : Q) :
  serve (assistant_endpoint sv req) w = (cs, out) ->
  nth_error (completions cs) 0
  = Some (CallCompletion system user max_tok temp None) ->
  filter is_query_work cs = [] /\
  (exists fin,
     nth_error (completions cs) 1
     = Some (CallCompletion (prompt_no_query (message req)) FINAL_USER
               512%Z (5 # 10)%Q fin)) /\
  forall r, out = inr r -> query r = None /\ point r = [].
Proof.
  intros H Hfirst. use_trace req w H. subst cs.
  cbn [app completions filter is_completion nth_error] in Hfirst.
  injection Hfirst as _ _ _ _ ->. cbn [upper map] in Hcase.
  destruct Hcase as [(_ & -> & -> & ->) | [(Hs & _) | (Hs & _)]];
    try (vm_compute in Hs; discriminate).
  cbn [app snd fst point_and_prompt truthy andb] in *.
  split_tail fin Hfin; subst tail out out'; cbn [app filter is_query_work];
    (split; [reflexivity|]);
    (split; [eexists; reflexivity|]);
    intros r [= <-]; split; reflexivity.
Qed.

Ltac in_cases H :=
  cbn [In app] in H;
  repeat (destruct H as [H|H]; [try discriminate H|]); try contradiction.

(** X21: when the parser rejects the repaired query, the store is not
    queried, and a response has no query and the empty point. *)
Theorem rejected_query_is_dropped (req : AssistantRequest) (w : World)
    (cs : list Call) (out : HTTPException + Response) (q : text) :
  serve (assistant_endpoint sv req) w = (cs, out) ->
  In (CallParseQuery q false) cs ->
  (forall q' res, ~ In (CallGraphQuery q' res) cs) /\
  forall r, out = inr r -> query r = None /\ point r = [].
Proof.
  intros H Hin. use_trace req w H. subst cs out.
  destruct Hcase as [(_ & -> & -> & ->) | [(_ & _ & -> & -> & ->)
    | (_ & _ & r0 & -> & -> & ->)]];
    split_tail fin Hfin; subst tail out'; in_cases Hin;
    (split; [intros q' res Hq; in_cases Hq|]);
    intros r [= <-]; split; reflexivity.
Qed.

(** X22: a query in a response is the repair of the stripped output of the
    query-generation call, the parser accepted it, and the store was asked
    exactly that text. *)
Theorem returned_query_was_validated_and_run (req : AssistantRequest)
    (w : World) (cs : list Call) (r : Response) (q : text) :
  serve (assistant_endpoint sv req) w = (cs, inr r) ->
  query r = Some q ->
  exists system content res,
    nth_error (completions cs) 0
    = Some (CallCompletion system (message req) 512%Z (2 # 10)%Q
              (Some content)) /\
    q = correct_sparql_syntax_advanced (strip content) /\
    parseQuery sv q = true /\
    In (CallRepair (strip content)) cs /\
    In (CallGraphQuery q res) cs.
Proof.
  intros H Hq. use_trace req w H. subst cs out'.
  destruct Hcase as [(_ & -> & -> & ->) | [(_ & _ & -> & -> & ->)
    | (Hs & Hp & r0 & -> & -> & ->)]];
    split_tail fin Hfin; try discriminate Hres;
    injection Hres as ->; cbn [query] in Hq; try discriminate Hq;
    injection Hq as <-;
    (destruct gen as [c0|]; [|vm_compute in Hs; discriminate]);
    exists (create_system_prompt_for_sparql sv
              (match ser with Some t => t | None => [] end)), c0, r0;
    cbn [app In completions filter is_completion nth_error];
    (split; [reflexivity|]); (split; [reflexivity|]);
    (split; [exact Hp|]);
    (split; [do 2 right; left; reflexivity|do 4 right; left; reflexivity]).
Qed.

(** X23: when the store raises or answers no row, the response still
    carries the query, its point is empty, and the answer call got the
    prompt for a query without results. *)
Theorem empty_result_keeps_query (req : AssistantRequest) (w : World)
    (cs : list Call) (out : HTTPException + Response) (q : text)
    (res : option (list Row)) :
  serve (assistant_endpoint sv req) w = (cs, out) ->
  In (CallGraphQuery q res) cs ->
  res = None \/ res = Some [] ->
  (exists fin,
     nth_error (completions cs) 1
     = Some (CallCompletion (prompt_no_results (message req) q) FINAL_USER
               512%Z (5 # 10)%Q fin)) /\
  forall r, out = inr r -> query r = Some q /\ point r = [].
Proof.
  intros H Hin Hres0. use_trace req w H. subst cs out.
  destruct Hcase as [(_ & -> & -> & ->) | [(_ & _ & -> & -> & ->)
    | (Hs & Hp & r0 & -> & -> & ->)]];
    split_tail fin Hfin; subst tail out'; in_cases Hin;
    injection Hin as <- <-;
    (assert (Er : match r0 with Some rows => rows | None => [] end = [])
       by (destruct Hres0 as [-> | ->]; reflexivity));
    rewrite Er, prompt_without_rows by apply repair_nonempty;
    cbn [fst snd app completions filter is_completion nth_error];
    (split; [eexists; reflexivity|]);
    intros r [= <-]; split; reflexivity.
Qed.


(** X25: when the ontology cannot be serialized the run goes on: the
    query-generation call gets the prompt built around the empty text. *)
Theorem serialization_failure_is_absorbed (req : AssistantRequest)
    (w : World) (cs : list Call) (out : HTTPException + Response) :
  serve (assistant_endpoint sv req) w = (cs, out) ->
  nth_error cs 0 = Some (CallSerialize None) ->
  exists gen,
    nth_error cs 1
    = Some (CallCompletion (create_system_prompt_for_sparql sv [])
              (message req) 512%Z (2 # 10)%Q gen).
Proof.
  intros H H0. use_trace req w H. subst cs.
  cbn [app nth_error] in H0. injection H0 as ->.
  exists gen. reflexivity.
Qed.

(** X26: a point that is not empty is the stripped value that a row of
    the store's answer to the returned query binds to [p] or to
    [posizione]. *)
Theorem point_comes_from_store (req : AssistantRequest) (w : World)
    (cs : list Call) (r : Response) :
  serve (assistant_endpoint sv req) w = (cs, inr r) ->
  point r <> [] ->
  exists q rows row v x,
    query r = Some q /\ In (CallGraphQuery q (Some rows)) cs /\
    In row rows /\ (v = lit "p" \/ v = lit "posizione") /\
    get row v = Some x /\ point r = strip x.
Proof.
  intros H Hpt. use_trace req w H. subst cs out'.
  destruct Hcase as [(_ & -> & -> & ->) | [(_ & _ & -> & -> & ->)
    | (_ & _ & r0 & -> & -> & ->)]];
    split_tail fin Hfin; try discriminate Hres;
    injection Hres as ->; cbn [point query] in *;
    try (exfalso; apply Hpt; reflexivity);
    (destruct r0 as [rows|];
     [|exfalso; apply Hpt; now rewrite prompt_without_rows
                             by apply repair_nonempty]);
    (destruct rows as [|row0 rows];
     [exfalso; apply Hpt; now rewrite prompt_without_rows
                            by apply repair_nonempty|]);
    set (fixed := correct_sparql_syntax_advanced _) in *;
    (assert (Ep : fst (point_and_prompt (message req) (Some fixed)
                         (row0 :: rows))
                  = extract_point [] (row0 :: rows))
       by (unfold point_and_prompt;
           destruct fixed eqn:Ef;
           [exfalso; exact (repair_nonempty _ Ef)|reflexivity]));
    rewrite Ep in *;
    (destruct (extract_point_source (row0 :: rows))
       as [E0 | (row & v & x & Hin & Hv & Hx & E0)];
     [contradiction|]);
    exists fixed, (row0 :: rows), row, v, x;
    (split; [reflexivity|]);
    (split; [cbn [app In]; do 4 right; left; reflexivity|]);
    auto.
Qed.

(** X27: an empty or blank output of the query-generation call is not
    taken for the marker: the empty candidate is repaired and the prefix
    declaration alone goes to the parser. *)
Theorem blank_generation_is_validated (req : AssistantRequest) (w : World)
    (cs : list Call) (out : HTTPException + Response)
    (system user : text) (max_tok : Z) (temp : Q) (content : text) :
  serve (assistant_endpoint sv req) w = (cs, out) ->
  nth_error (completions cs) 0
  = Some (CallCompletion system user max_tok temp (Some content)) ->
  all_space content = true ->
  nth_error cs 2 = Some (CallRepair []) /\
  nth_error cs 3
  = Some (CallParseQuery PREFIX_HEAD (parseQuery sv PREFIX_HEAD)).
Proof.
  intros H Hfirst Hblank. use_trace req w H. subst cs.
  cbn [app completions filter is_completion nth_error] in Hfirst.
  injection Hfirst as _ _ _ _ ->. rewrite (strip_blank _ Hblank) in Hcase.
  change (correct_sparql_syntax_advanced []) with PREFIX_HEAD in Hcase.
  destruct Hcase as [(Hs & _) | [(_ & Hp & -> & _) | (_ & Hp & r0 & -> & _)]];
    [vm_compute in Hs; discriminate| |]; rewrite Hp;
    split; reflexivity.
Qed.

End EndpointEdges.

Lemma generation_failure_is_absorbed_witness :
  let run := serve (assistant_endpoint (museum_services None true None)
                      discobolo_request) (0, 0) in
  filter is_query_work (fst run) = [] /\
  forall r, snd run = inr r -> query r = None /\ point r = [].
Proof.
  intros run.
  edestruct (generation_failure_is_absorbed (museum_services None true None)
               discobolo_request (0, 0) (fst run) (snd run))
    as (H1 & _ & H3).
  - apply surjective_pairing.
  - vm_compute. reflexivity.
  - split; assumption.
Defined.

Lemma rejected_query_is_dropped_witness :
  let run := serve (assistant_endpoint
                      (museum_services (Some DISCOBOLO_QUERY) false
                         (Some discobolo_rows))
                      discobolo_request) (0, 0) in
  (forall q' res, ~ In (CallGraphQuery q' res) (fst run)) /\
  forall r, snd run = inr r -> query r = None /\ point r = [].
Proof.
  intros run.
  apply (rejected_query_is_dropped
           (museum_services (Some DISCOBOLO_QUERY) false (Some discobolo_rows))
           discobolo_request (0, 0) (fst run) (snd run)
           (correct_sparql_syntax_advanced DISCOBOLO_QUERY)).
  - apply surjective_pairing.
  - vm_compute. do 3 right. left. reflexivity.
Defined.

Lemma returned_query_was_validated_and_run_witness :
  exists cs r res,
    serve (assistant_endpoint
             (museum_services (Some DISCOBOLO_QUERY) true
                (Some discobolo_rows))
             discobolo_request) (0, 0) = (cs, inr r) /\
    query r = Some (correct_sparql_syntax_advanced DISCOBOLO_QUERY) /\
    In (CallGraphQuery (correct_sparql_syntax_advanced DISCOBOLO_QUERY) res)
       cs.
Proof.
  destruct (serve (assistant_endpoint
                     (museum_services (Some DISCOBOLO_QUERY) true
                        (Some discobolo_rows))
                     discobolo_request) (0, 0)) as [cs out] eqn:E.
  assert (Eo : exists r, out = inr r /\
            query r = Some (correct_sparql_syntax_advanced DISCOBOLO_QUERY)).
  { vm_compute in E. injection E as _ <-. eexists. split; reflexivity. }
  destruct Eo as (r & -> & Hq).
  destruct (returned_query_was_validated_and_run
              (museum_services (Some DISCOBOLO_QUERY) true
                 (Some discobolo_rows))
              discobolo_request (0, 0) cs r _ E Hq)
    as (system & content & res & _ & _ & _ & _ & Hin).
  exists cs, r, res. auto.
Defined.

Lemma empty_result_keeps_query_witness :
  let run := serve (assistant_endpoint
                      (museum_services (Some DISCOBOLO_QUERY) true None)
                      discobolo_request) (0, 0) in
  let q := correct_sparql_syntax_advanced DISCOBOLO_QUERY in
  (exists fin,
     nth_error (completions (fst run)) 1
     = Some (CallCompletion (prompt_no_results (message discobolo_request) q)
               FINAL_USER 512%Z (5 # 10)%Q fin)) /\
  (forall r, snd run = inr r -> query r = Some q /\ point r = []).
Proof.
  intros run q.
  apply (empty_result_keeps_query
           (museum_services (Some DISCOBOLO_QUERY) true None)
           discobolo_request (0, 0) (fst run) (snd run) q None).
  - apply surjective_pairing.
  - vm_compute. do 4 right. left. reflexivity.
  - now left.
Defined.


Lemma serialization_failure_is_absorbed_witness :
  let run := serve (assistant_endpoint unserializable_services
                      weather_request) (0, 0) in
  exists gen,
    nth_error (fst run) 1
    = Some (CallCompletion (lit "ONTOLOGIA: ") (message weather_request)
              512%Z (2 # 10)%Q gen).
Proof.
  intros run.
  apply (serialization_failure_is_absorbed unserializable_services
           weather_request (0, 0) (fst run) (snd run)).
  - apply surjective_pairing.
  - vm_compute. reflexivity.
Defined.

Lemma point_comes_from_store_witness :
  exists cs r,
    serve (assistant_endpoint
             (museum_services (Some DISCOBOLO_QUERY) true
                (Some discobolo_rows))
             discobolo_request) (0, 0) = (cs, inr r) /\
    point r = lit "(0, 0, 0.77)" /\
    exists q rows row v x,
      query r = Some q /\ In (CallGraphQuery q (Some rows)) cs /\
      In row rows /\ (v = lit "p" \/ v = lit "posizione") /\
      get row v = Some x /\ point r = strip x.
Proof.
  destruct (serve (assistant_endpoint
                     (museum_services (Some DISCOBOLO_QUERY) true
                        (Some discobolo_rows))
                     discobolo_request) (0, 0)) as [cs out] eqn:E.
  assert (Eo : exists r, out = inr r /\ point r = lit "(0, 0, 0.77)").
  { vm_compute in E. injection E as _ <-. eexists. split; reflexivity. }
  destruct Eo as (r & -> & Hp).
  exists cs, r. split; [reflexivity|]. split; [exact Hp|].
  apply (point_comes_from_store
           (museum_services (Some DISCOBOLO_QUERY) true (Some discobolo_rows))
           discobolo_request (0, 0) cs r E).
  rewrite Hp. discriminate.
Defined.

Lemma blank_generation_is_validated_witness :
  let run := serve (assistant_endpoint
                      (museum_services (Some (lit "  ")) false None)
                      discobolo_request) (0, 0) in
  nth_error (fst run) 2 = Some (CallRepair []) /\
  nth_error (fst run) 3 = Some (CallParseQuery PREFIX_HEAD false).
Proof.
  intros run.
  eapply (blank_generation_is_validated
            (museum_services (Some (lit "  ")) false None)
            discobolo_request (0, 0) (fst run) (snd run)).
  - apply surjective_pairing.
  - vm_compute. reflexivity.
  - reflexivity.
Defined.
